(** * relnote-pro: changelog editing, classification and version bumps

    A shallow embedding of the TypeScript sources [src/changelog.ts]
    (the target-branch-aware editor), [src/categorize.ts] and
    [src/semver.ts], with the properties the specification states about
    them.

    JavaScript strings are sequences of UTF-16 code units; they are modelled
    as lists of code units ([N]).  Regular expressions of the source are
    embedded as the recognisers they denote; each recogniser carries the
    regular expression it stands for and the reading that justifies it. *)

From Stdlib Require Import Ascii String DecimalString.
From Stdlib Require Import List NArith Bool Lia Arith.
Import ListNotations.

Set Implicit Arguments.

(* ================================================================== *)
(** * JavaScript strings *)
(* ================================================================== *)

Module JS.

Definition char := N.
Definition str := list char.

(** String literals.  [lit] reads a literal the way the TypeScript source
    writes it: backslash-n, backslash-r and backslash-t are the escapes for
    code units 10, 13 and 9; every other character is its code. *)
Fixpoint lit (s : string) : str :=
  match s with
  | EmptyString => []
  | String a r =>
      match r with
      | String b r' =>
          if (Ascii.eqb a "\")%char then
            if (Ascii.eqb b "n")%char then 10%N :: lit r'
            else if (Ascii.eqb b "r")%char then 13%N :: lit r'
            else if (Ascii.eqb b "t")%char then 9%N :: lit r'
            else N_of_ascii a :: lit r
          else N_of_ascii a :: lit r
      | EmptyString => [N_of_ascii a]
      end
  end.

Definition LF : char := 10%N.
Definition CR : char := 13%N.

(** LineTerminator of ECMAScript: LF, CR, U+2028, U+2029. *)
Definition isLineTerminator (c : char) : bool :=
  (c =? 10)%N || (c =? 13)%N || (c =? 8232)%N || (c =? 8233)%N.

(** The class [\s] (and the set [trim] removes): WhiteSpace and
    LineTerminator. *)
Definition isWhiteSpace (c : char) : bool :=
  ((9 <=? c) && (c <=? 13))%N || (c =? 32)%N || (c =? 160)%N
  || (c =? 5760)%N || ((8192 <=? c) && (c <=? 8202))%N
  || (c =? 8232)%N || (c =? 8233)%N || (c =? 8239)%N || (c =? 8287)%N
  || (c =? 12288)%N || (c =? 65279)%N.

(** The class [\w] without the unicode flag: [A-Za-z0-9_]; the ignore-case
    flag adds nothing to it. *)
Definition isWordChar (c : char) : bool :=
  ((48 <=? c) && (c <=? 57))%N || ((65 <=? c) && (c <=? 90))%N
  || (c =? 95)%N || ((97 <=? c) && (c <=? 122))%N.

(** Case folding of one code unit as a regular expression with flag [i]
    (and no flag [u]) compares Basic Latin letters. *)
Definition foldASCII (c : char) : char :=
  if ((65 <=? c) && (c <=? 90))%N then (c + 32)%N else c.

(** [String.prototype.toLowerCase] on strings of Basic Latin code units. *)
Definition lowerASCII (s : str) : str := map foldASCII s.

Fixpoint eqb (a b : str) : bool :=
  match a, b with
  | [], [] => true
  | x :: a', y :: b' => (x =? y)%N && eqb a' b'
  | _, _ => false
  end.

Definition isEmpty (s : str) : bool :=
  match s with [] => true | _ => false end.

(** [s.trimStart()] *)
Fixpoint trimStart (s : str) : str :=
  match s with
  | c :: r => if isWhiteSpace c then trimStart r else s
  | [] => []
  end.

(** [s.trimEnd()] *)
Fixpoint trimEnd (s : str) : str :=
  match s with
  | [] => []
  | c :: r =>
      match trimEnd r with
      | [] => if isWhiteSpace c then [] else [c]
      | r' => c :: r'
      end
  end.

(** [s.trim()] *)
Definition trim (s : str) : str := trimEnd (trimStart s).

(** [s.startsWith(p)], returning what follows the prefix. *)
Fixpoint stripPrefix (p s : str) : option str :=
  match p, s with
  | [], _ => Some s
  | x :: p', y :: s' => if (x =? y)%N then stripPrefix p' s' else None
  | _ :: _, [] => None
  end.

(** The same, comparing letters without case (flag [i]). *)
Fixpoint stripPrefixCI (p s : str) : option str :=
  match p, s with
  | [], _ => Some s
  | x :: p', y :: s' =>
      if (foldASCII x =? foldASCII y)%N then stripPrefixCI p' s' else None
  | _ :: _, [] => None
  end.

Definition startsWith (p s : str) : bool :=
  match stripPrefix p s with Some _ => true | None => false end.

(** [s.indexOf(p)], [None] for -1. *)
Fixpoint indexOf (p s : str) : option nat :=
  if startsWith p s then Some 0
  else match s with
       | [] => None
       | _ :: r => option_map S (indexOf p r)
       end.

(** [s.includes(p)] *)
Definition includes (p s : str) : bool :=
  match indexOf p s with Some _ => true | None => false end.

(** [s.slice(0, i)] and [s.slice(i)] for [0 <= i]. *)
Definition sliceTo (i : nat) (s : str) : str := firstn i s.
Definition sliceFrom (i : nat) (s : str) : str := skipn i s.

(** [s.split("\n")] *)
Fixpoint splitLF (s : str) : list str :=
  match s with
  | [] => [[]]
  | c :: r =>
      if (c =? LF)%N then [] :: splitLF r
      else match splitLF r with
           | l :: ls => (c :: l) :: ls
           | [] => [[c]]
           end
  end.

(** Removes one trailing CR. *)
Fixpoint chompCR (s : str) : str :=
  match s with
  | [] => []
  | [c] => if (c =? CR)%N then [] else [c]
  | c :: r => c :: chompCR r
  end.

Fixpoint chompAllButLast (ls : list str) : list str :=
  match ls with
  | [] => []
  | [l] => [l]
  | l :: r => chompCR l :: chompAllButLast r
  end.

(** [s.split(/\r?\n/)].  Every LF is a separator, and the separator takes
    the CR before it when there is one (the leftmost match at a CR LF pair
    starts at the CR): each line that a separator ends loses one trailing
    CR, the last line is kept as it is. *)
Definition splitLines (s : str) : list str := chompAllButLast (splitLF s).

(** [ls.join("\n")] *)
Fixpoint joinLF (ls : list str) : str :=
  match ls with
  | [] => []
  | [l] => l
  | l :: r => l ++ LF :: joinLF r
  end.

(** [s.replace(/\n{3,}/g, "\n\n")]: every maximal run of three or more
    LF becomes two.  [k] counts the LF just emitted (at most two are). *)
Fixpoint collapseFrom (k : nat) (s : str) : str :=
  match s with
  | [] => []
  | c :: r =>
      if (c =? LF)%N then
        if k <? 2 then c :: collapseFrom (S k) r else collapseFrom k r
      else c :: collapseFrom 0 r
  end.

Definition collapseNewlines (s : str) : str := collapseFrom 0 s.

(** The decimal rendering of a non-negative integer in a template
    literal. *)
Definition ofNumber (n : N) : str :=
  lit (NilEmpty.string_of_uint (N.to_uint n)).

(** [^] under flag [m]: a recogniser is tried at the start of the input and
    after every LineTerminator.  [atStart] says whether the position at the
    head of [s] is such a place. *)
Fixpoint anyLineStart (P : str -> bool) (atStart : bool) (s : str) : bool :=
  (atStart && P s)
  || match s with
     | [] => false
     | c :: r => anyLineStart P (isLineTerminator c) r
     end.

(** [\s*$] under flag [m]: white space up to the end of the input or up to
    (and backtracking to just before) a LineTerminator. *)
Fixpoint wsThenEol (s : str) : bool :=
  match s with
  | [] => true
  | c :: r => isLineTerminator c || (isWhiteSpace c && wsThenEol r)
  end.

End JS.

Import JS.

(* ================================================================== *)
(** * The commit-title grammar *)
(* ================================================================== *)

Module Conventional.

(** A match of [/^(\w+)(?:\(([^)]+)\))?(!)?:\s*(.+)$/]. *)
Record Match := mkMatch {
  m_type : str;
  m_scope : option str;
  m_bang : bool;
  m_subject : str
}.

(** The maximal run of [\w] at the head of [s], and the rest. *)
Fixpoint spanWord (s : str) : str * str :=
  match s with
  | c :: r =>
      if isWordChar c then let (w, t) := spanWord r in (c :: w, t)
      else ([], s)
  | [] => ([], [])
  end.

(** The maximal run of [[^)]] at the head of [s], and the rest. *)
Fixpoint spanNotParen (s : str) : str * str :=
  match s with
  | c :: r =>
      if (c =? 41)%N then ([], s)
      else let (w, t) := spanNotParen r in (c :: w, t)
  | [] => ([], [])
  end.

Definition noLineTerminator (s : str) : bool :=
  forallb (fun c => negb (isLineTerminator c)) s.

(** [\s*(.+)$] on what follows the colon.  [.] takes no LineTerminator and
    must reach the end of the input.  [\s*] is greedy: when a non-blank
    rest exists it is the subject; when only white space follows the colon,
    [\s*] gives back its last code unit to [(.+)]. *)
Definition subjectOf (r : str) : option str :=
  match trimStart r with
  | c :: t => if noLineTerminator (c :: t) then Some (c :: t) else None
  | [] =>
      match rev r with
      | c :: _ => if isLineTerminator c then None else Some [c]
      | [] => None
      end
  end.

(** The regular expression, anchored at both ends, has one way to match:
    [\w+] must take the whole run of word characters (what follows is no
    word character), a [(] must open a scope that a [)] closes, and a [!]
    can only be the bang. *)
Definition exec (s : str) : option Match :=
  let (w, r1) := spanWord s in
  if isEmpty w then None
  else
    let scoped :=
      match r1 with
      | c :: r =>
          if (c =? 40)%N then
            let (sc, r2) := spanNotParen r in
            match sc, r2 with
            | _ :: _, _ :: r3 => Some (Some sc, r3)
            | _, _ => None
            end
          else Some (None, r1)
      | [] => Some (None, r1)
      end in
    match scoped with
    | None => None
    | Some (sc, r2) =>
        let (bang, r3) :=
          match r2 with
          | c :: r => if (c =? 33)%N then (true, r) else (false, r2)
          | [] => (false, r2)
          end in
        match r3 with
        | c :: r4 =>
            if (c =? 58)%N then
              match subjectOf r4 with
              | Some subj => Some (mkMatch w sc bang subj)
              | None => None
              end
            else None
        | [] => None
        end
    end.

End Conventional.

(* ================================================================== *)
(** * changelog.ts *)
(* ================================================================== *)

Module Changelog.

Definition HEADER : str := Eval cbv in
  lit "# Changelog\nAll notable changes to this project will be documented in this file.\n\n## [Unreleased]\n\n".

(** [/^\#\s*Changelog/im] at one line start: [#], white space, then the
    word without regard to case.  The white space run is taken whole, as no
    white space can start the word. *)
Definition titleAt (s : str) : bool :=
  match s with
  | c :: r =>
      (c =? 35)%N
      && match stripPrefixCI (lit "Changelog") (trimStart r) with
         | Some _ => true
         | None => false
         end
  | [] => false
  end.

Definition CHANGELOG_TITLE_RE_test (t : str) : bool :=
  anyLineStart titleAt true t.

(** [UNRELEASED_HEADER_RE = /^##\s*\[?\s*unreleased\s*\]?\s*$/im] at one
    line start.  Before the word, both white space runs are taken whole and
    a [[] between them is the bracket.  After the word the line may end in
    white space alone, or in white space, [] ] and white space. *)
Definition unreleasedAt (s : str) : bool :=
  match stripPrefix (lit "##") s with
  | None => false
  | Some r1 =>
      let r2 := trimStart r1 in
      let r3 :=
        match r2 with
        | c :: r => if (c =? 91)%N then trimStart r else r2
        | [] => r2
        end in
      match stripPrefixCI (lit "unreleased") r3 with
      | None => false
      | Some r4 =>
          wsThenEol r4
          || match trimStart r4 with
             | c :: r => (c =? 93)%N && wsThenEol r
             | [] => false
             end
      end
  end.

Definition UNRELEASED_HEADER_RE_test (t : str) : bool :=
  anyLineStart unreleasedAt true t.

(** [/^##\s+/] (no flag): the line starts with [##] and a white space. *)
Definition sectionHeadingAt (line : str) : bool :=
  match stripPrefix (lit "##") line with
  | Some (c :: _) => isWhiteSpace c
  | _ => false
  end.

(** The first index at which [P] holds, as the source's loops with [break]
    find it. *)
Fixpoint findIndex (A : Type) (P : A -> bool) (l : list A) : option nat :=
  match l with
  | [] => None
  | x :: r => if P x then Some 0 else option_map S (findIndex P r)
  end.

(** [ls.slice(a, b)] *)
Definition slice (A : Type) (a b : nat) (l : list A) : list A :=
  firstn (b - a) (skipn a l).

Record Capture := mkCapture {
  start : nat;
  end_ : nat;
  header : str;
  body : str;
  lines : list str
}.

(** [captureUnreleased]; [None] is the result with [start = -1], whose
    header and body are empty. *)
Definition captureUnreleased (text : str) : option Capture :=
  let lines := splitLines text in
  match findIndex UNRELEASED_HEADER_RE_test lines with
  | None => None
  | Some start =>
      let e :=
        match findIndex sectionHeadingAt (skipn (S start) lines) with
        | Some j => S start + j
        | None => length lines
        end in
      Some (mkCapture start e (nth start lines [])
              (joinLF (slice (S start) e lines)) lines)
  end.

Definition UNRELEASED_BLOCK : str := Eval cbv in lit "\n## [Unreleased]\n\n".

Definition ensureHeaderAndUnreleased (text : str) : str :=
  let t := text in
  let t := if negb (CHANGELOG_TITLE_RE_test t) then HEADER ++ t else t in
  if negb (UNRELEASED_HEADER_RE_test t) then
    match indexOf (lit "\n## ") t with
    | Some idx => sliceTo idx t ++ UNRELEASED_BLOCK ++ sliceFrom idx t
    | None => t ++ UNRELEASED_BLOCK
    end
  else t.

Definition normalizeTitleForBullet (title : str) : str :=
  match Conventional.exec (trim title) with
  | Some m => Conventional.m_subject m
  | None => trim title
  end.

(** [scope ? `[${scope}] ` : ""]: a missing and an empty scope give no
    prefix. *)
Definition scopePrefix (scope : option str) : str :=
  match scope with
  | Some (c :: s) => lit "[" ++ (c :: s) ++ lit "] "
  | _ => []
  end.

Definition formatBullet (title : str) (prNumber : N) (scope : option str)
  : str :=
  lit "- " ++ scopePrefix scope ++ normalizeTitleForBullet title
  ++ lit " (#" ++ ofNumber prNumber ++ lit ")".

(** The category is a string here, so the guard of [catHeader] never
    throws. *)
Definition catHeader (category : str) : str := lit "### " ++ category.

Definition isBlank (line : str) : bool := isEmpty (trim line).

(** The [while] loop that skips blank lines: how many lines it passes. *)
Fixpoint countBlank (ls : list str) : nat :=
  match ls with
  | l :: r => if isBlank l then S (countBlank r) else 0
  | [] => 0
  end.

(** [lines.length === 0 || lines[lines.length - 1] !== ""] *)
Definition needsFinalEmpty (ls : list str) : bool :=
  match rev ls with
  | [] => true
  | l :: _ => negb (isEmpty l)
  end.

Section WithCase.

(** [String.prototype.toLowerCase]; the Unicode case mapping is not part of
    the sources. *)
Variable toLowerCase : str -> str.

Definition isCategoryHeader (categoryHeader line : str) : bool :=
  eqb (toLowerCase (trim line)) (toLowerCase (trim categoryHeader)).

Definition insertIntoUnreleasedCategory
  (unreleasedBody category bullet : str) : str :=
  let categoryHeader := catHeader category in
  let lines := splitLF unreleasedBody in
  match findIndex (isCategoryHeader categoryHeader) lines with
  | None =>
      let trimmed := trimEnd unreleasedBody in
      let suffix := sliceFrom (length trimmed) unreleasedBody in
      let block :=
        (if isEmpty trimmed then [] else trimmed ++ lit "\n\n")
        ++ categoryHeader ++ lit "\n" ++ bullet ++ lit "\n" in
      block ++ suffix
  | Some catStart =>
      let insertAt := S catStart + countBlank (skipn (S catStart) lines) in
      let lines := firstn insertAt lines ++ bullet :: skipn insertAt lines in
      let lines := if needsFinalEmpty lines then lines ++ [[]] else lines in
      joinLF lines
  end.

End WithCase.

Definition replaceUnreleasedSection (fullText : str) (updater : str -> str)
  : str :=
  let t := ensureHeaderAndUnreleased fullText in
  match captureUnreleased t with
  | None => t
  | Some cap =>
      let updatedBody := updater (body cap) in
      let before := joinLF (slice 0 (S (start cap)) (lines cap)) in
      let after := joinLF (skipn (end_ cap) (lines cap)) in
      collapseNewlines (joinLF [before; trimEnd updatedBody; []; after])
  end.

Record Entry := mkEntry {
  prNumber : N;
  title : str;
  category : str;
  scope : option str
}.

(** The text [addUnreleasedEntry] writes back, from the text it read. *)
Definition addEntryText (toLowerCase : str -> str) (base : str) (e : Entry)
  : str :=
  replaceUnreleasedSection (ensureHeaderAndUnreleased base)
    (fun body =>
       insertIntoUnreleasedCategory toLowerCase body (category e)
         (formatBullet (title e) (prNumber e) (scope e))).

(** [tag.replace(/^v/i, "")] *)
Definition stripLeadingV (tag : str) : str :=
  match tag with
  | c :: r => if (foldASCII c =? 118)%N then r else tag
  | [] => []
  end.

(** [(ctx.payload?.release?.tag_name ?? "").replace(/^v/i, "") || "0.0.0"] *)
Definition versionOfTag (tag_name : option str) : str :=
  let tag := match tag_name with Some t => t | None => [] end in
  match stripLeadingV tag with
  | [] => lit "0.0.0"
  | v => v
  end.

(** [String(n).padStart(2, "0")] *)
Definition pad2 (n : N) : str :=
  match ofNumber n with
  | [d] => lit "0" ++ [d]
  | s => s
  end.

(** The date string, from [getFullYear()], [getMonth()] and [getDate()]. *)
Definition dateStrOf (fullYear month date : N) : str :=
  ofNumber fullYear ++ lit "-" ++ pad2 (month + 1) ++ lit "-" ++ pad2 date.

(** The en dash of the version header is code unit U+2013. *)
Definition versionHeader (version dateStr : str) : str :=
  lit "## [" ++ version ++ lit "] " ++ [8211%N] ++ lit " " ++ dateStr
  ++ lit "\n".

Record Cutover := mkCutover {
  next : str;
  unreleasedBody : str
}.

(** The text and the extracted body [releaseUnreleased] computes from the
    file it read; [None] where it returns before writing. *)
Definition cutover (content version dateStr : str) : option Cutover :=
  match captureUnreleased content with
  | None => None
  | Some cap =>
      let unreleasedBody := trim (body cap) in
      if isEmpty unreleasedBody then None
      else
        let before := joinLF (slice 0 (S (start cap)) (lines cap)) in
        let after := joinLF (skipn (end_ cap) (lines cap)) in
        let cleanBody := trimEnd unreleasedBody in
        Some (mkCutover
                (collapseNewlines
                   (joinLF [before; [];
                            versionHeader version dateStr ++ cleanBody
                            ++ lit "\n";
                            after]))
                unreleasedBody)
  end.

(** The remote state [releaseUnreleased] acts on: the changelog file on the
    target branch and the body of the published release. *)
Record Remote := mkRemote {
  changelogFile : option str;
  releaseBody : str
}.

Record ReleaseEvent := mkReleaseEvent {
  tag_name : option str;
  release_id : option N
}.

Definition releaseUnreleased (ev : ReleaseEvent) (fullYear month date : N)
  (r : Remote) : Remote :=
  match changelogFile r with
  | None => r
  | Some content =>
      let version := versionOfTag (tag_name ev) in
      match cutover content version (dateStrOf fullYear month date) with
      | None => r
      | Some c =>
          let body' :=
            match release_id ev with
            | Some (Npos _) => unreleasedBody c ++ lit "\n"
            | _ => releaseBody r
            end in
          mkRemote (Some (next c)) body'
      end
  end.

End Changelog.

(* ================================================================== *)
(** * categorize.ts *)
(* ================================================================== *)

Module Categorize.

(** The two keys of the type [Config] of [config.ts] that [categorize]
    reads.  [categories] lists the entries of the object in the order of
    [Object.keys]; [breakingLabels] may be missing, as the guard
    [cfg.breakingLabels?.length] allows. *)
Record Config := mkConfig {
  categories : list (str * list str);
  breakingLabels : option (list str)
}.

Record CategorizeResult := mkResult {
  category : str;
  breaking : bool;
  scope : option str
}.

Definition BREAKING_TOKENS : list str :=
  [lit "breaking change"; lit "breaking changes"; lit "breaking-change";
   lit "breaking"].

Definition COMMON_LABEL_ALIASES : list (str * str) :=
  [(lit "type: feat", lit "feat"); (lit "type: feature", lit "feat");
   (lit "enhancement", lit "feat"); (lit "feature", lit "feat");
   (lit "feat", lit "feat");
   (lit "type: fix", lit "fix"); (lit "bug", lit "fix");
   (lit "bugfix", lit "fix"); (lit "hotfix", lit "fix");
   (lit "fix", lit "fix");
   (lit "docs", lit "docs"); (lit "documentation", lit "docs");
   (lit "perf", lit "perf"); (lit "performance", lit "perf");
   (lit "refactor", lit "refactor"); (lit "refactoring", lit "refactor");
   (lit "test", lit "test"); (lit "tests", lit "test");
   (lit "chore", lit "chore"); (lit "maintenance", lit "chore")].

(** The properties an object literal inherits from [Object.prototype]:
    looking one of these keys up yields a function or an object. *)
Definition OBJECT_PROTOTYPE_KEYS : list str :=
  [lit "constructor"; lit "__proto__"; lit "toString"; lit "valueOf";
   lit "toLocaleString"; lit "hasOwnProperty"; lit "isPrototypeOf";
   lit "propertyIsEnumerable"; lit "__defineGetter__";
   lit "__defineSetter__"; lit "__lookupGetter__"; lit "__lookupSetter__"].

(** What [normalizeLabel] returns: a string, or the inherited member found
    under a key of [Object.prototype], which equals no string. *)
Inductive LabelValue :=
| LStr (s : str)
| LInherited (key : str).

Definition labelEqb (a b : LabelValue) : bool :=
  match a, b with
  | LStr x, LStr y => eqb x y
  | LInherited x, LInherited y => eqb x y
  | _, _ => false
  end.

(** [arr.includes(v)] for an array of strings. *)
Definition includesStr (v : LabelValue) (arr : list str) : bool :=
  existsb (fun s => labelEqb v (LStr s)) arr.

Fixpoint assoc (A : Type) (k : str) (m : list (str * A)) : option A :=
  match m with
  | [] => None
  | (k', v) :: r => if eqb k' k then Some v else assoc k r
  end.

(** [COMMON_LABEL_ALIASES[key]]; [None] for [undefined]. *)
Definition aliasLookup (key : str) : option LabelValue :=
  match assoc key COMMON_LABEL_ALIASES with
  | Some v => Some (LStr v)
  | None =>
      if existsb (eqb key) OBJECT_PROTOTYPE_KEYS then Some (LInherited key)
      else None
  end.

(** [s.replace(/^type:\s*/, "")] and the same for another prefix. *)
Definition stripLabelPrefix (p s : str) : str :=
  match stripPrefix p s with
  | Some r => trimStart r
  | None => s
  end.

(** [new Set(arr)]: the values in order, each once. *)
Fixpoint setOf (l : list LabelValue) : list LabelValue :=
  match l with
  | [] => []
  | x :: r => x :: filter (fun y => negb (labelEqb x y)) (setOf r)
  end.

(** [Map.prototype.set]: the newest binding of a key shadows the older. *)
Definition mapSet (k v : str) (m : list (str * str)) : list (str * str) :=
  (k, v) :: m.

Definition FALLBACKS : list str :=
  [lit "Features"; lit "Fixes"; lit "Docs"; lit "Performance";
   lit "Refactor"; lit "Tests"; lit "Chores"; lit "Misc"].

Section WithCase.

Variable toLowerCase : str -> str.

Definition norm (s : str) : str := toLowerCase (trim s).

Definition normalizeLabel (l : str) : LabelValue :=
  let n := norm l in
  let stripped :=
    stripLabelPrefix (lit "kind:") (stripLabelPrefix (lit "type:") n) in
  match aliasLookup stripped with
  | Some v => v
  | None =>
      match aliasLookup n with
      | Some v => v
      | None => LStr stripped
      end
  end.

(** The loop that fills [aliasToCategory]. *)
Definition buildAliasToCategory (cats : list (str * list str))
  : list (str * str) :=
  fold_left
    (fun m entry =>
       let cat := fst entry in
       fold_left (fun m' alias => mapSet (norm alias) cat m')
         (snd entry) (mapSet (norm cat) cat m))
    cats [].

(** The loop over [normed] in the breaking determination. *)
Definition breakingLabelPresent (breaks : list str) (labels : list str)
  : bool :=
  existsb
    (fun lab =>
       includesStr lab breaks
       || labelEqb lab (LStr (lit "breaking"))
       || labelEqb lab (LStr (lit "breaking-change")))
    (setOf (map normalizeLabel labels)).

Definition breakingPhrasePresent (title : str) : bool :=
  existsb (fun tok => includes tok (norm title)) BREAKING_TOKENS.

(** Step 1 of the resolution: the first configured category a label
    names, by its own name or by one of its aliases. *)
Fixpoint matchByLabels (normedLabels : list LabelValue)
  (cats : list (str * list str)) : option str :=
  match cats with
  | [] => None
  | (cat, al) :: r =>
      let aliases := map norm al in
      if existsb (fun lab => labelEqb lab (LStr (norm cat))) normedLabels
      then Some cat
      else if existsb (fun lab => includesStr lab aliases) normedLabels
      then Some cat
      else matchByLabels normedLabels r
  end.

Definition categorize (title : str) (labels : list str) (cfg : Config)
  : CategorizeResult :=
  let categoryOrder := map fst (categories cfg) in
  let aliasToCategory := buildAliasToCategory (categories cfg) in
  let m := Conventional.exec title in
  let type := option_map (fun x => norm (Conventional.m_type x)) m in
  let scope :=
    match m with Some x => Conventional.m_scope x | None => None end in
  let bang :=
    match m with Some x => Conventional.m_bang x | None => false end in
  let breaking := bang in
  let breaking :=
    if negb breaking then
      match breakingLabels cfg with
      | Some (b :: bs) =>
          if breakingLabelPresent (map norm (b :: bs)) labels then true
          else breaking
      | _ => breaking
      end
    else breaking in
  let breaking :=
    if negb breaking && breakingPhrasePresent title then true
    else breaking in
  let normedLabels := map normalizeLabel labels in
  match matchByLabels normedLabels (categories cfg) with
  | Some cat => mkResult cat breaking scope
  | None =>
      let byType :=
        match type with
        | Some (c :: t) => assoc (c :: t) aliasToCategory
        | _ => None
        end in
      match byType with
      | Some cat => mkResult cat breaking scope
      | None =>
          let category :=
            match find (fun f => existsb (eqb f) categoryOrder) FALLBACKS with
            | Some f => f
            | None =>
                match categoryOrder with
                | c :: _ => c
                | [] => lit "Changes"
                end
            end in
          mkResult category breaking scope
      end
  end.

End WithCase.

End Categorize.

(* ================================================================== *)
(** * semver.ts *)
(* ================================================================== *)

Module Semver.

Inductive Bump := major | minor | patch | none.

Definition MINOR_CATS : list str :=
  [lit "features"; lit "feature"; lit "enhancements"; lit "adds"; lit "new"].

Definition PATCH_CATS : list str :=
  [lit "fixes"; lit "fix"; lit "bug"; lit "bugs"; lit "docs";
   lit "documentation"; lit "refactor"; lit "tests"; lit "test";
   lit "performance"; lit "perf"; lit "chore"; lit "chores"; lit "misc"].

Definition has (s : list str) (k : str) : bool := existsb (eqb k) s.

Definition bumpEqb (a b : Bump) : bool :=
  match a, b with
  | major, major | minor, minor | patch, patch | none, none => true
  | _, _ => false
  end.

Section WithCase.

Variable toLowerCase : str -> str.

Definition norm (s : str) : str := toLowerCase (trim s).

(** [input] is a category name or a classification. *)
Definition suggestBump (input : str + Categorize.CategorizeResult) : Bump :=
  let res :=
    match input with
    | inl name => Categorize.mkResult name false None
    | inr r => r
    end in
  if Categorize.breaking res then major
  else
    let key := norm (Categorize.category res) in
    if has MINOR_CATS key then minor
    else if has PATCH_CATS key then patch
    else if includes (lit "feature") key then minor
    else if includes (lit "fix") key || includes (lit "bug") key
            || includes (lit "docs") key || includes (lit "refactor") key
            || includes (lit "perf") key || includes (lit "test") key
            || includes (lit "chore") key || includes (lit "misc") key
    then patch
    else none.

End WithCase.

Definition combineBumps (bumps : list Bump) : Bump :=
  if existsb (bumpEqb major) bumps then major
  else if existsb (bumpEqb minor) bumps then minor
  else if existsb (bumpEqb patch) bumps then patch
  else none.

End Semver.

(* ================================================================== *)
(** * Vocabulary of the statements *)
(* ================================================================== *)

Import Changelog Categorize Semver.

(** The bang of the commit grammar, as [categorize] reads it off the
    title. *)
Definition titleBang (title : str) : bool :=
  match Conventional.exec title with
  | Some m => Conventional.m_bang m
  | None => false
  end.

(** Some normalised label is one of the configured breaking-label
    aliases. *)
Definition configuredBreakingLabel (toLowerCase : str -> str)
  (breakingLabels labels : list str) : bool :=
  existsb
    (fun lab =>
       includesStr lab (map (Categorize.norm toLowerCase) breakingLabels))
    (map (normalizeLabel toLowerCase) labels).

(** Some normalised label is one of the two label names the classifier
    always takes as breaking. *)
Definition builtinBreakingLabel (toLowerCase : str -> str)
  (labels : list str) : bool :=
  existsb
    (fun lab =>
       labelEqb lab (LStr (lit "breaking"))
       || labelEqb lab (LStr (lit "breaking-change")))
    (map (normalizeLabel toLowerCase) labels).

(** The configuration of the README: seven categories and three breaking
    labels. *)
Definition README_CONFIG : Config :=
  mkConfig
    [(lit "Features", [lit "feature"; lit "feat"; lit "enhancement"]);
     (lit "Fixes", [lit "fix"; lit "bug"]);
     (lit "Docs", [lit "docs"]);
     (lit "Performance", [lit "perf"]);
     (lit "Refactor", [lit "refactor"]);
     (lit "Tests", [lit "test"]);
     (lit "Chores", [lit "chore"])]
    (Some [lit "breaking"; lit "breaking-change"; lit "major"]).


(** The head of a title in the commit grammar, up to its colon:
    [type], [(scope)] when there is a scope, [!] when there is a bang,
    and [:]. *)
Definition scopeText (scope : option str) : str :=
  match scope with
  | Some s => 40%N :: s ++ [41%N]
  | None => []
  end.

Definition bangText (bang : bool) : str := if bang then [33%N] else [].

Definition headOfTitle (type : str) (scope : option str) (bang : bool) : str :=
  type ++ scopeText scope ++ bangText bang ++ [58%N].

(** The type is a non-empty word and the scope, when present, is
    non-empty and has no closing parenthesis. *)
Definition wellFormedHead (type : str) (scope : option str) : bool :=
  negb (isEmpty type) && forallb isWordChar type
  && match scope with
     | Some s => negb (isEmpty s) && forallb (fun c => negb (c =? 41)%N) s
     | None => true
     end.

(** A string with no line feed: one line of [split("\n")]. *)
Definition noLF (s : str) : bool := forallb (fun c => negb (c =? LF)%N) s.

(** The empty line [insertIntoUnreleasedCategory] pushes when the last
    line is not empty. *)
Definition finalEmpty (ls : list str) : list str :=
  if needsFinalEmpty ls then [[]] else [].

(** The first line of a list, if any, is not blank. *)
Definition headNotBlank (ls : list str) : bool :=
  match ls with
  | l :: _ => negb (isBlank l)
  | [] => true
  end.

(** The first line of a list, if any, is a section heading. *)
Definition headIsSection (ls : list str) : bool :=
  match ls with
  | l :: _ => sectionHeadingAt l
  | [] => true
  end.

(** The staging headers of a text: its lines that
    [UNRELEASED_HEADER_RE] matches. *)
Definition stagingHeaders (text : str) : list str :=
  filter UNRELEASED_HEADER_RE_test (splitLines text).


(** The title line of a version section, without its line feed. *)
Definition versionLine (version dateStr : str) : str :=
  lit "## [" ++ version ++ lit "] " ++ [8211%N] ++ lit " " ++ dateStr.


(** The parts of a text that [captureUnreleased] tells apart: the lines
    before the staging header, the header, the lines of the staging body,
    and the lines from the next section heading on. *)
Record Parts := mkParts {
  p_pre : list str;
  p_header : str;
  p_mid : list str;
  p_post : list str
}.

Definition partsLines (p : Parts) : list str :=
  p_pre p ++ p_header p :: p_mid p ++ p_post p.

Definition partsOk (p : Parts) : Prop :=
  forallb (fun l => negb (UNRELEASED_HEADER_RE_test l)) (p_pre p) = true
  /\ UNRELEASED_HEADER_RE_test (p_header p) = true
  /\ forallb (fun l => negb (sectionHeadingAt l)) (p_mid p) = true
  /\ headIsSection (p_post p) = true.

Definition captureOf (p : Parts) : Capture :=
  mkCapture (length (p_pre p)) (S (length (p_pre p)) + length (p_mid p))
    (p_header p) (joinLF (p_mid p)) (partsLines p).
(* ================================================================== *)
(** * config.ts *)
(* ================================================================== *)

Module ConfigFile.

Record Monorepo := mkMonorepo {
  enabled : bool;
  packages : option (list str);
  detect : option bool
}.

(** [Partial<Config>], what the configuration file holds: [None] is a key
    that is missing (or [null]). *)
Record Partial := mkPartial {
  raw_changelogPath : option str;
  raw_categories : option (list (str * list str));
  raw_breakingLabels : option (list str);
  raw_monorepo : option Monorepo;
  raw_excludePaths : option (list str)
}.

Record Config := mkConfig {
  changelogPath : str;
  categories : list (str * list str);
  breakingLabels : list str;
  monorepo : Monorepo;
  excludePaths : list str;
  language : str
}.

(** [x ?? d] *)
Definition orElse (A : Type) (x : option A) (d : A) : A :=
  match x with Some v => v | None => d end.

Definition applyDefaults (raw : Partial) : Config :=
  mkConfig
    (orElse (raw_changelogPath raw) (lit "CHANGELOG.md"))
    (orElse (raw_categories raw)
       [(lit "Features", [lit "feature"; lit "feat"; lit "enhancement"]);
        (lit "Fixes", [lit "fix"; lit "bug"; lit "bugfix"; lit "hotfix"]);
        (lit "Docs", [lit "docs"; lit "documentation"]);
        (lit "Performance", [lit "perf"; lit "performance"]);
        (lit "Refactor", [lit "refactor"; lit "refactoring"]);
        (lit "Tests", [lit "test"; lit "tests"]);
        (lit "Chores", [lit "chore"; lit "maintenance"])])
    (orElse (raw_breakingLabels raw)
       [lit "breaking"; lit "breaking-change"; lit "major"])
    (orElse (raw_monorepo raw) (mkMonorepo false None (Some true)))
    (orElse (raw_excludePaths raw) [])
    (lit "en").

(** [{}] *)
Definition emptyPartial : Partial := mkPartial None None None None None.

(** [loadConfig], from what reading and parsing the file gave: [None] when
    either threw. *)
Definition loadConfig (parsed : option Partial) : Config :=
  match parsed with
  | Some raw => applyDefaults raw
  | None => applyDefaults emptyPartial
  end.

(** The two keys [categorize] reads. *)
Definition forCategorize (c : Config) : Categorize.Config :=
  Categorize.mkConfig (categories c) (Some (breakingLabels c)).

End ConfigFile.

(* ================================================================== *)
(** * Vocabulary of the further properties *)
(* ================================================================== *)

(** The order of [combineBumps]: major > minor > patch > none. *)
Definition rank (b : Bump) : nat :=
  match b with
  | major => 3
  | minor => 2
  | patch => 1
  | none => 0
  end.

(** The names of the configured categories, in the order of
    [Object.keys]. *)
Definition categoryNames (cfg : Categorize.Config) : list str :=
  map fst (Categorize.categories cfg).

(** The configuration in force when the file gives no categories. *)
Definition DEFAULT_CATEGORIES : list (str * list str) :=
  ConfigFile.categories (ConfigFile.applyDefaults ConfigFile.emptyPartial).

(** [toLowerCase] lowers the strings of [l], which are of Basic Latin, as
    [lowerASCII] does, and they have no white space around them. *)
Definition lowersPlainly (toLowerCase : str -> str) (l : list str) : bool :=
  forallb (fun s => eqb (toLowerCase (trim s)) (lowerASCII s)) l.

(** The category names and the aliases of a configuration. *)
Definition configuredStrings (cats : list (str * list str)) : list str :=
  flat_map (fun e => fst e :: snd e) cats.
(* ================================================================== *)
(** * Regular expressions *)
(* ================================================================== *)

(** A matcher for the regular expressions of the sources, after the
    backtracking semantics of ECMAScript, against which the recognisers
    of the embedding are checked. *)

Module RegExp.

(** The syntax the regular expressions of the sources are written in.
    Repetition is only ever applied to a class of code units there. *)
Inductive re :=
| Eps
| Chr (c : char)                      (* one code unit *)
| Bol                                 (* ^ *)
| Eol                                 (* $ *)
| Seq (a b : re)
| Opt (a : re)                        (* a? *)
| Rep (min : nat) (P : char -> bool)  (* a class, [min] times or more *)
| Cap (i : nat) (a : re).             (* capture group number [i] *)

Record flags := mkFlags { ignoreCase : bool; multiline : bool }.

Definition captures := list (nat * str).

(** A position in the input: the code unit before it ([None] at the start
    of the input), what is left of the input, and the groups captured on
    the way. *)
Record state := mkState {
  prev : option char;
  rest : str;
  caps : captures
}.

(** Flag [i] (without flag [u]) compares the letters of Basic Latin
    without case. *)
Definition chrEq (fl : flags) (c x : char) : bool :=
  if ignoreCase fl then (foldASCII c =? foldASCII x)%N else (c =? x)%N.

Section Matcher.

Variable A : Type.

Definition orElse (x y : option A) : option A :=
  match x with Some _ => x | None => y end.

(** Greedy repetition of a class: one more code unit if that leads to a
    match, else the rest of the expression from here. *)
Fixpoint rep (min : nat) (P : char -> bool) (p : option char) (s : str)
  (cs : captures) (k : state -> option A) : option A :=
  let stop := if (min =? 0)%nat then k (mkState p s cs) else None in
  match s with
  | c :: r =>
      if P c then orElse (rep (pred min) P (Some c) r cs k) stop else stop
  | [] => stop
  end.

(** The backtracking matcher of ECMAScript.  [k] is the rest of the
    expression; the result is the first way to match that [k] accepts. *)
Fixpoint run (fl : flags) (r : re) (st : state) (k : state -> option A)
  : option A :=
  match r with
  | Eps => k st
  | Chr c =>
      match rest st with
      | x :: s' =>
          if chrEq fl c x then k (mkState (Some x) s' (caps st)) else None
      | [] => None
      end
  | Bol =>
      match prev st with
      | None => k st
      | Some c => if multiline fl && isLineTerminator c then k st else None
      end
  | Eol =>
      match rest st with
      | [] => k st
      | c :: _ => if multiline fl && isLineTerminator c then k st else None
      end
  | Seq a b => run fl a st (fun st' => run fl b st' k)
  | Opt a => orElse (run fl a st k) (k st)
  | Rep min P => rep min P (prev st) (rest st) (caps st) k
  | Cap i a =>
      run fl a st
        (fun st' =>
           k (mkState (prev st') (rest st')
                ((i, firstn (length (rest st) - length (rest st')) (rest st))
                   :: caps st')))
  end.

End Matcher.

(** A match: the index it starts at, and the position after it. *)
Record found := mkFound { index : nat; final : state }.

(** The leftmost match at or after the position of [s], which is index
    [i] of the input. *)
Fixpoint execFrom (fl : flags) (r : re) (p : option char) (s : str) (i : nat)
  : option found :=
  match run fl r (mkState p s []) (fun st => Some (mkFound i st)) with
  | Some m => Some m
  | None =>
      match s with
      | [] => None
      | c :: s' => execFrom fl r (Some c) s' (S i)
      end
  end.

(** [re.exec(s)] of an expression without flag [g]. *)
Definition exec (fl : flags) (r : re) (s : str) : option found :=
  execFrom fl r None s 0.

(** [re.test(s)] *)
Definition test (fl : flags) (r : re) (s : str) : bool :=
  match exec fl r s with Some _ => true | None => false end.

(** [m[i]] of a match; [None] is [undefined], the value of a group that
    took no part in the match. *)
Definition group (i : nat) (m : found) : option str :=
  option_map snd (find (fun e => Nat.eqb (fst e) i) (caps (final m))).

(** [s.replace(re, by)] of an expression without flag [g]. *)
Definition replace (fl : flags) (r : re) (by_ : str) (s : str) : str :=
  match exec fl r s with
  | Some m => firstn (index m) s ++ by_ ++ rest (final m)
  | None => s
  end.

(** A literal run of code units. *)
Fixpoint lits (s : str) : re :=
  match s with
  | [] => Eps
  | [c] => Chr c
  | c :: r => Seq (Chr c) (lits r)
  end.

(** A sequence of expressions. *)
Fixpoint seq (l : list re) : re :=
  match l with
  | [] => Eps
  | [r] => r
  | r :: l' => Seq r (seq l')
  end.

(** One character of a pattern. *)
Definition ch (a : ascii) : char := N_of_ascii a.

(** The class [.] (without flag [s]) and the class [[^)]]. *)
Definition dot (c : char) : bool := negb (isLineTerminator c).
Definition notParen (c : char) : bool := negb (c =? ch ")")%N.

(** No flag, flag [i], flags [i] and [m]. *)
Definition flags_ : flags := mkFlags false false.
Definition flags_i : flags := mkFlags true false.
Definition flags_im : flags := mkFlags true true.

End RegExp.

(* ================================================================== *)
(** * The expressions as the sources write them *)
(* ================================================================== *)

Module AsWritten.

Import RegExp.

(** [/^\#\s*Changelog/im] *)
Definition CHANGELOG_TITLE_RE : re :=
  seq [Bol; Chr (ch "#"); Rep 0 isWhiteSpace; lits (lit "Changelog")].

Definition CHANGELOG_TITLE_RE_test (t : str) : bool :=
  test flags_im CHANGELOG_TITLE_RE t.

(** [/^##\s*\[?\s*unreleased\s*\]?\s*$/im] *)
Definition UNRELEASED_HEADER_RE : re :=
  seq [Bol; lits (lit "##"); Rep 0 isWhiteSpace; Opt (Chr (ch "["));
       Rep 0 isWhiteSpace; lits (lit "unreleased"); Rep 0 isWhiteSpace;
       Opt (Chr (ch "]")); Rep 0 isWhiteSpace; Eol].

Definition UNRELEASED_HEADER_RE_test (t : str) : bool :=
  test flags_im UNRELEASED_HEADER_RE t.

(** [/^##\s+/], the test of [captureUnreleased] for the next section. *)
Definition NEXT_SECTION_RE : re :=
  seq [Bol; lits (lit "##"); Rep 1 isWhiteSpace].

Definition NEXT_SECTION_RE_test (line : str) : bool :=
  test flags_ NEXT_SECTION_RE line.

(** [CC_RE = /^(\w+)(?:\(([^)]+)\))?(!)?:\s*(.+)$/i] *)
Definition CC_RE : re :=
  seq [Bol; Cap 1 (Rep 1 isWordChar);
       Opt (seq [Chr (ch "("); Cap 2 (Rep 1 notParen); Chr (ch ")")]);
       Opt (Cap 3 (Chr (ch "!"))); Chr (ch ":"); Rep 0 isWhiteSpace;
       Cap 4 (Rep 1 dot); Eol].

(** [m[i]] of a group that takes part in every match. *)
Definition groupOr (i : nat) (m : found) : str :=
  match group i m with Some x => x | None => [] end.

Definition isSome (A : Type) (o : option A) : bool :=
  match o with Some _ => true | None => false end.

(** [CC_RE.exec(title)], with [m[1]], [m[2]], [!!m[3]] and [m[4]] as the
    fields of a record. *)
Definition CC_RE_exec (title : str) : option Conventional.Match :=
  match exec flags_i CC_RE title with
  | Some m =>
      Some (Conventional.mkMatch (groupOr 1 m) (group 2 m)
              (isSome (group 3 m)) (groupOr 4 m))
  | None => None
  end.

(** [/^(\w+)(?:\([^)]+\))?!?:\s*(.+)$/] of [normalizeTitleForBullet] *)
Definition TITLE_PREFIX_RE : re :=
  seq [Bol; Cap 1 (Rep 1 isWordChar);
       Opt (seq [Chr (ch "("); Rep 1 notParen; Chr (ch ")")]);
       Opt (Chr (ch "!")); Chr (ch ":"); Rep 0 isWhiteSpace;
       Cap 2 (Rep 1 dot); Eol].

Definition normalizeTitleForBullet (title : str) : str :=
  match exec flags_ TITLE_PREFIX_RE (trim title) with
  | Some m => groupOr 2 m
  | None => trim title
  end.

(** [tag.replace(/^v/i, "")] *)
Definition stripLeadingV (tag : str) : str :=
  replace flags_i (seq [Bol; Chr (ch "v")]) [] tag.

(** [n.replace(/^type:\s*/, "")], and the same for [kind:]. *)
Definition stripLabelPrefix (p s : str) : str :=
  replace flags_ (seq [Bol; lits p; Rep 0 isWhiteSpace]) [] s.

(** [unreleasedBody.replace(/\s+$/s, "")]; flag [s] bears on [.] alone. *)
Definition stripTrailingSpace (s : str) : str :=
  replace flags_ (seq [Rep 1 isWhiteSpace; Eol]) [] s.

End AsWritten.

(* ================================================================== *)
(** * Vocabulary of the matcher's properties *)
(* ================================================================== *)

Module RegExpSpec.

Import RegExp.

(** What an expression without [^] accepts, when [kf] says what the rest
    of the expression accepts. *)
Fixpoint repB (min : nat) (P : char -> bool) (kf : str -> bool) (s : str)
  : bool :=
  match s with
  | c :: r => (P c && repB (pred min) P kf r) || ((min =? 0)%nat && kf s)
  | [] => (min =? 0)%nat && kf []
  end.

Fixpoint accepts (fl : flags) (r : re) (kf : str -> bool) (s : str) : bool :=
  match r with
  | Eps => kf s
  | Chr c =>
      match s with
      | x :: s' => chrEq fl c x && kf s'
      | [] => false
      end
  | Bol => false
  | Eol =>
      match s with
      | [] => kf []
      | c :: _ => multiline fl && isLineTerminator c && kf s
      end
  | Seq a b => accepts fl a (accepts fl b kf) s
  | Opt a => accepts fl a kf s || kf s
  | Rep min P => repB min P kf s
  | Cap _ a => accepts fl a kf s
  end.

Fixpoint noBol (r : re) : bool :=
  match r with
  | Bol => false
  | Seq a b => noBol a && noBol b
  | Opt a | Cap _ a => noBol a
  | _ => true
  end.

Definition anything (s : str) : bool := true.

(** [kf] says which inputs the continuation [k] accepts, whatever came
    before them. *)
Definition decides (A : Type) (k : state -> option A) (kf : str -> bool)
  : Prop :=
  forall p s cs, AsWritten.isSome (k (mkState p s cs)) = kf s.

(** A continuation that does not look behind the position. *)
Definition prevIndep (A : Type) (k : state -> option A) : Prop :=
  forall p p' s cs, k (mkState p s cs) = k (mkState p' s cs).

(** [^] holds at a position. *)
Definition atLineStart (fl : flags) (p : option char) : bool :=
  match p with
  | None => true
  | Some c => multiline fl && isLineTerminator c
  end.

Definition isLetter (c : char) : bool :=
  ((65 <=? c) && (c <=? 90))%N || ((97 <=? c) && (c <=? 122))%N.

(** The end of an expression: every match is one, and [f] reads its
    groups. *)
Definition finish (A : Type) (f : captures -> A) (st : state) : option A :=
  Some (f (caps st)).

(** The maximal run of a class at the head of [s], and the rest. *)
Fixpoint span (P : char -> bool) (s : str) : str * str :=
  match s with
  | c :: r => if P c then let (w, t) := span P r in (c :: w, t) else ([], s)
  | [] => ([], [])
  end.

(** The two title expressions have one shape and differ in the groups
    they capture: [o1] to [o4] number the groups of the type, the scope,
    the bang and the subject, when they are captured. *)
Definition wrap (o : option nat) (r : re) : re :=
  match o with Some i => Cap i r | None => r end.

Definition capOf (o : option nat) (x : str) : captures :=
  match o with Some i => [(i, x)] | None => [] end.

Definition tailSubject (o4 : option nat) : re :=
  Seq (wrap o4 (Rep 1 dot)) Eol.

Definition tailBlank (o4 : option nat) : re :=
  Seq (Rep 0 isWhiteSpace) (tailSubject o4).

Definition tailColon (o4 : option nat) : re :=
  Seq (Chr 58%N) (tailBlank o4).

Definition tailBang (o3 o4 : option nat) : re :=
  Seq (Opt (wrap o3 (Chr 33%N))) (tailColon o4).

Definition tailScope (o2 o3 o4 : option nat) : re :=
  Seq (Opt (Seq (Chr 40%N) (Seq (wrap o2 (Rep 1 notParen)) (Chr 41%N))))
    (tailBang o3 o4).

Definition titleShape (o1 o2 o3 o4 : option nat) : re :=
  Seq (wrap o1 (Rep 1 isWordChar)) (tailScope o2 o3 o4).

Definition capsOfMatch (o1 o2 o3 o4 : option nat) (m : Conventional.Match)
  : captures :=
  capOf o4 (Conventional.m_subject m)
  ++ (if Conventional.m_bang m then capOf o3 [33%N] else [])
  ++ match Conventional.m_scope m with
     | Some sc => capOf o2 sc
     | None => []
     end
  ++ capOf o1 (Conventional.m_type m).

End RegExpSpec.

(* ================================================================== *)
(** * The changelog file in the repository *)
(* ================================================================== *)

(** [ensureChangelog] and [addUnreleasedEntry] act on the repository
    through [getFile] and [putFile].  The repository is modelled as a
    store that returns what was put: the file at each path and branch,
    and the commits made, newest first.  The [sha] of a file is its blob
    identifier, which git computes from the content. *)
Module Repository.

Record File := mkFile { sha : str; content : str }.

Record FileData := mkFileData {
  fd_sha : str;
  fd_content : str;
  fd_branch : str
}.

Record Commit := mkCommit {
  c_path : str;
  c_branch : str;
  c_content : str;
  c_message : str;
  c_sha : option str
}.

Record Store := mkStore {
  files : list ((str * str) * File);
  commits : list Commit
}.

(** The parts of the event payload the editor reads:
    [pull_request.base.ref] and [release.target_commitish]. *)
Record Context := mkContext {
  prBaseRef : option str;
  releaseTarget : option str
}.

(** [a || b] for a string that may be missing: the empty string is
    falsy. *)
Definition orFalsy (a : option str) (b : str) : str :=
  match a with
  | Some (c :: s) => c :: s
  | _ => b
  end.

Definition resolveTargetBranch (ctx : Context) (fallback : str) : str :=
  orFalsy (prBaseRef ctx) (orFalsy (releaseTarget ctx) fallback).

Definition keyEqb (a b : str * str) : bool :=
  eqb (fst a) (fst b) && eqb (snd a) (snd b).

Fixpoint lookup (k : str * str) (m : list ((str * str) * File))
  : option File :=
  match m with
  | [] => None
  | (k', f) :: r => if keyEqb k' k then Some f else lookup k r
  end.

Section WithSha.

Variable blobSha : str -> str.

(** [getFile]: [None] for the 404 that the source turns into [null]. *)
Definition getFile (st : Store) (path branch : str) : option File :=
  lookup (path, branch) (files st).

Definition putFile (st : Store) (path branch content message : str)
  (sha : option str) : Store :=
  mkStore (((path, branch), mkFile (blobSha content) content) :: files st)
    (mkCommit path branch content message sha :: commits st).

(** [cfg.changelogPath ?? "CHANGELOG.md"] *)
Definition pathOf (changelogPath : option str) : str :=
  match changelogPath with Some p => p | None => lit "CHANGELOG.md" end.

(** [ensureChangelog]; [inl] is the message of the error it throws. *)
Definition ensureChangelog (ctx : Context) (defaultBranch : str)
  (changelogPath : option str) (st : Store) : Store * (str + FileData) :=
  let branch := resolveTargetBranch ctx defaultBranch in
  let path := pathOf changelogPath in
  match getFile st path branch with
  | None =>
      let st := putFile st path branch HEADER
                  (lit "chore(relnote): initialize CHANGELOG.md") None in
      match getFile st path branch with
      | None => (st, inl (lit "Failed to create CHANGELOG.md"))
      | Some fresh =>
          (st, inr (mkFileData (sha fresh) (content fresh) branch))
      end
  | Some existing =>
      let ensured := ensureHeaderAndUnreleased (content existing) in
      if negb (eqb ensured (content existing)) then
        let st := putFile st path branch ensured
                    (lit "chore(relnote): ensure Unreleased section")
                    (Some (sha existing)) in
        match getFile st path branch with
        | None => (st, inl (lit "Failed to update CHANGELOG.md"))
        | Some updated =>
            (st, inr (mkFileData (sha updated) (content updated) branch))
        end
      else (st, inr (mkFileData (sha existing) (content existing) branch))
  end.

Definition addUnreleasedEntry (toLowerCase : str -> str) (ctx : Context)
  (defaultBranch : str) (changelogPath : option str) (entry : Entry)
  (st : Store) : Store :=
  let path := pathOf changelogPath in
  let branch := resolveTargetBranch ctx defaultBranch in
  let file := getFile st path branch in
  let base := match file with Some f => content f | None => HEADER end in
  let next := addEntryText toLowerCase base entry in
  putFile st path branch next
    (lit "chore(relnote): add PR #" ++ ofNumber (prNumber entry)
     ++ lit " to Unreleased")
    (option_map sha file).

End WithSha.

End Repository.

(* ================================================================== *)
(** * monorepo.ts *)
(* ================================================================== *)

Module Monorepo.

Record PackageMeta := mkPackageMeta {
  dir : str;
  name : option str
}.

(** [p === pkg.dir || p.startsWith(pkg.dir + "/")] *)
Definition inPackage (p : str) (pkg : PackageMeta) : bool :=
  eqb p (dir pkg) || startsWith (dir pkg ++ lit "/") p.

(** [arr.sort((a, b) => b.dir.length - a.dir.length)]: the sort is
    stable, so packages with directories of one length keep their
    order. *)
Fixpoint insertByDirLength (x : PackageMeta) (l : list PackageMeta)
  : list PackageMeta :=
  match l with
  | [] => [x]
  | y :: r =>
      if length (dir x) <? length (dir y) then y :: insertByDirLength x r
      else x :: l
  end.

Fixpoint sortByDirLength (l : list PackageMeta) : list PackageMeta :=
  match l with
  | [] => []
  | x :: r => insertByDirLength x (sortByDirLength r)
  end.

(** The [hit] of a changed path. *)
Definition hitOf (packages : list PackageMeta) (p : str)
  : option PackageMeta :=
  hd_error (sortByDirLength (filter (inPackage p) packages)).

(** One turn of the loop over the changed paths. *)
Definition touch (packages : list PackageMeta) (touched : list PackageMeta)
  (p : str) : list PackageMeta :=
  match hitOf packages p with
  | Some hit =>
      if existsb (fun t => eqb (dir t) (dir hit)) touched then touched
      else touched ++ [hit]
  | None => touched
  end.

(** [s.split(sep)] for a separator of one code unit. *)
Fixpoint splitOn (sep : char) (s : str) : list str :=
  match s with
  | [] => [[]]
  | c :: r =>
      if (c =? sep)%N then [] :: splitOn sep r
      else match splitOn sep r with
           | l :: ls => (c :: l) :: ls
           | [] => [[c]]
           end
  end.

(** [only.name || only.dir.split("/").pop()] *)
Definition scopeName (only : PackageMeta) : str :=
  match name only with
  | Some (c :: n) => c :: n
  | _ => last (splitOn 47%N (dir only)) []
  end.

Definition inferScopeFromPaths (changedPaths : list str)
  (packages : list PackageMeta) : option str :=
  match changedPaths, packages with
  | [], _ | _, [] => None
  | _, _ =>
      match fold_left (touch packages) changedPaths [] with
      | [only] => Some (scopeName only)
      | _ => None
      end
  end.

(** [set.add(x)] on the elements of a [Set], in insertion order. *)
Definition setAdd (x : str) (set : list str) : list str :=
  if existsb (eqb x) set then set else set ++ [x].

(** [g.replace(/^\.\//, "")] *)
Definition stripDotSlash (g : str) : str :=
  match stripPrefix (lit "./") g with
  | Some r => r
  | None => g
  end.

(** [normalizeGlobs]; a missing list is the empty list. *)
Definition normalizeGlobs (globs : option (list str)) : list str :=
  fold_left
    (fun set g =>
       if isEmpty (trim g) then set else setAdd (stripDotSlash (trim g)) set)
    (match globs with Some l => l | None => [] end)
    [].

End Monorepo.

(** The hits of the changed paths, in the order of the paths. *)
Definition hitsOf (packages : list Monorepo.PackageMeta) (paths : list str)
  : list Monorepo.PackageMeta :=
  flat_map
    (fun p =>
       match Monorepo.hitOf packages p with
       | Some h => [h]
       | None => []
       end)
    paths.

Definition sameDir (a b : Monorepo.PackageMeta) : bool :=
  eqb (Monorepo.dir a) (Monorepo.dir b).

(** The hits that the loop of [inferScopeFromPaths] keeps: the first of
    each directory. *)
Fixpoint firstOfEachDir (seen l : list Monorepo.PackageMeta)
  : list Monorepo.PackageMeta :=
  match l with
  | [] => seen
  | h :: r =>
      firstOfEachDir
        (if existsb (fun t => sameDir t h) seen then seen else seen ++ [h])
        r
  end.

(* ================================================================== *)
(** * github.ts *)
(* ================================================================== *)

Module GitHub.

(** An entry of a page of [pulls.listFiles], and of the result. *)
Record PrFile := mkPrFile {
  filename : str;
  previous_filename : option str;
  status : str
}.

(** The status [changed] is reported as [modified]. *)
Definition recordOf (f : PrFile) : PrFile :=
  mkPrFile (filename f) (previous_filename f)
    (if eqb (status f) (lit "changed") || eqb (status f) (lit "modified")
     then lit "modified"
     else status f).

(** The loop of [listPrFiles] over the pages that [listFiles] serves,
    [page] being the number of the next page and [files] what was
    collected.  The loop ends at the first page with fewer than 100
    entries; [fuel] bounds the number of pages read, and [None] is a run
    that has not ended within it. *)
Fixpoint listFrom (listFiles : nat -> list PrFile) (fuel page : nat)
  (files : list PrFile) : option (list PrFile) :=
  match fuel with
  | 0 => None
  | S fuel' =>
      let data := listFiles page in
      let files := files ++ map recordOf data in
      if length data <? 100 then Some files
      else listFrom listFiles fuel' (S page) files
  end.

Definition listPrFiles (listFiles : nat -> list PrFile) (fuel : nat)
  : option (list PrFile) :=
  listFrom listFiles fuel 1 [].

End GitHub.

(** The pages [first], ..., [first + n - 1]. *)
Fixpoint pagesFrom (listFiles : nat -> list GitHub.PrFile) (first n : nat)
  : list GitHub.PrFile :=
  match n with
  | 0 => []
  | S n' => listFiles first ++ pagesFrom listFiles (S first) n'
  end.

(** The pages [first], ..., [first + n - 1] are full. *)
Fixpoint fullPages (listFiles : nat -> list GitHub.PrFile) (first n : nat)
  : bool :=
  match n with
  | 0 => true
  | S n' =>
      negb (length (listFiles first) <? 100)
      && fullPages listFiles (S first) n'
  end.
(* ================================================================== *)
(** * Tactics *)
(* ================================================================== *)

(** Evaluates the string literals of the goal. *)
Ltac eval_lits :=
  repeat match goal with
         | |- context [lit ?s] =>
             let v := eval vm_compute in (lit s) in
             change (lit s) with v
         end.

Ltac bool_to_prop :=
  repeat match goal with
         | H : _ || _ = true |- _ => apply orb_true_iff in H; destruct H as [H|H]
         | H : _ && _ = true |- _ => apply andb_true_iff in H; destruct H as [? H]
         | H : (_ =? _)%N = true |- _ => apply N.eqb_eq in H
         | H : (_ <=? _)%N = true |- _ => apply N.leb_le in H
         | H : _ || _ = false |- _ => apply orb_false_iff in H; destruct H as [? H]
         | H : (_ =? _)%N = false |- _ => apply N.eqb_neq in H
         end.

(* ================================================================== *)
(** * Worked runs of the embedding *)
(* ================================================================== *)

Example lit_reads_escapes : lit "a\nb" = [97; 10; 98]%N.
Proof. reflexivity. Qed.

Example splitLines_crlf :
  splitLines (lit "a\r\nb\n\r\r\nc\r") = [lit "a"; lit "b"; lit "\r"; lit "c\r"].
Proof. reflexivity. Qed.

Example collapse_runs :
  collapseNewlines (lit "a\n\n\n\nb\n\nc\n\n\n") = lit "a\n\nb\n\nc\n\n".
Proof. reflexivity. Qed.

Example exec_scoped_bang :
  Conventional.exec (lit "feat(core)!: drop v1 api")
  = Some (Conventional.mkMatch (lit "feat") (Some (lit "core")) true
            (lit "drop v1 api")).
Proof. reflexivity. Qed.

Example ensure_empty : ensureHeaderAndUnreleased [] = HEADER.
Proof. reflexivity. Qed.

Example dateStr_pads : dateStrOf 2024 0 1 = lit "2024-01-01".
Proof. reflexivity. Qed.

(* ================================================================== *)
(** * Facts about the recognisers *)
(* ================================================================== *)

Lemma anyLineStart_app_found (P : str -> bool) (a : str) :
  forall (flag : bool) (c : char) (y : str),
    isLineTerminator c = true -> P y = true ->
    anyLineStart P flag (a ++ c :: y) = true.
Proof.
  induction a as [|d a IH]; intros flag c y Hc Hy.
  - cbn [app anyLineStart]. rewrite Hc.
    destruct y; cbn [anyLineStart]; rewrite Hy; cbn;
      now rewrite orb_true_r.
  - cbn [app anyLineStart]. rewrite (IH _ c y Hc Hy). apply orb_true_r.
Qed.

(** The inserted block is recognised wherever it is put. *)
Lemma unreleased_test_block (a rest : str) (flag : bool) :
  anyLineStart unreleasedAt flag (a ++ UNRELEASED_BLOCK ++ rest) = true.
Proof.
  unfold UNRELEASED_BLOCK. cbn [app].
  apply anyLineStart_app_found; [reflexivity | cbv; reflexivity].
Qed.

Lemma stripPrefixCI_cut (p : str) :
  (forall x, In x p -> foldASCII x <> LF) ->
  forall q y z,
    stripPrefixCI p (q ++ LF :: y) <> None ->
    stripPrefixCI p (q ++ LF :: z) <> None.
Proof.
  induction p as [|x p IH]; intros Hp q y z H.
  - discriminate.
  - destruct q as [|d q]; cbn [app stripPrefixCI] in *.
    + assert (E : (foldASCII x =? foldASCII LF)%N = false).
      { apply N.eqb_neq. apply Hp. now left. }
      now rewrite E in H.
    + destruct (foldASCII x =? foldASCII d)%N; [|assumption].
      apply (IH (fun x' Hx => Hp x' (or_intror Hx)) q y z H).
Qed.

Lemma changelog_word_no_LF :
  forall x, In x (lit "Changelog") -> foldASCII x <> LF.
Proof.
  intros x Hx. cbn in Hx.
  repeat (destruct Hx as [<-|Hx]; [discriminate|]). contradiction.
Qed.

(** A title match never runs over a line that starts with [#]. *)
Lemma titleAt_cut (p y z : str) :
  titleAt (p ++ LF :: 35%N :: y) = true ->
  titleAt (p ++ LF :: 35%N :: z) = true.
Proof.
  destruct p as [|c p]; [discriminate|].
  cbn [app titleAt].
  destruct (c =? 35)%N; [cbn [andb]|discriminate].
  induction p as [|d p IH]; cbn [app trimStart].
  - discriminate.
  - destruct (isWhiteSpace d); [exact IH|].
    intros H.
    pose proof (@stripPrefixCI_cut (lit "Changelog") changelog_word_no_LF
                  (d :: p) (35%N :: y) (35%N :: z)) as K.
    cbn [app] in K.
    destruct (stripPrefixCI (lit "Changelog") (d :: p ++ LF :: 35%N :: y));
      [|discriminate].
    destruct (stripPrefixCI (lit "Changelog") (d :: p ++ LF :: 35%N :: z));
      [reflexivity|].
    exfalso. now apply K.
Qed.

Lemma title_test_insert (a b' : str) :
  forall flag,
    anyLineStart titleAt flag (a ++ LF :: 35%N :: b') = true ->
    anyLineStart titleAt flag (a ++ UNRELEASED_BLOCK ++ LF :: 35%N :: b')
    = true.
Proof.
  induction a as [|c a IH]; intros flag H.
  - cbn in H. cbn. rewrite andb_false_r in *. cbn in *. exact H.
  - cbn [app anyLineStart] in *.
    apply orb_true_iff in H. apply orb_true_iff.
    destruct H as [H|H]; [left|right; now apply IH].
    apply andb_true_iff in H. destruct H as [-> H]. cbn [andb].
    unfold UNRELEASED_BLOCK. cbn [app].
    now apply (titleAt_cut (c :: a)) with (y := b').
Qed.

Lemma stripPrefixCI_app (p s x : str) :
  stripPrefixCI p s <> None -> stripPrefixCI p (s ++ x) <> None.
Proof.
  revert s. induction p as [|c p IH]; intros s H; [discriminate|].
  destruct s as [|d s]; cbn [app stripPrefixCI] in *; [contradiction|].
  destruct (foldASCII c =? foldASCII d)%N; [now apply IH|assumption].
Qed.

Lemma titleAt_app (s x : str) : titleAt s = true -> titleAt (s ++ x) = true.
Proof.
  destruct s as [|c s]; [discriminate|].
  cbn [app titleAt]. destruct (c =? 35)%N; [cbn [andb]|discriminate].
  induction s as [|d s IH]; cbn [app trimStart]; [discriminate|].
  destruct (isWhiteSpace d); [exact IH|].
  intros H.
  pose proof (@stripPrefixCI_app (lit "Changelog") (d :: s) x) as K.
  cbn [app] in K.
  destruct (stripPrefixCI (lit "Changelog") (d :: s)); [|discriminate].
  destruct (stripPrefixCI (lit "Changelog") (d :: s ++ x)); [reflexivity|].
  exfalso. now apply K.
Qed.

Lemma title_test_app (s x : str) :
  forall flag,
    anyLineStart titleAt flag s = true ->
    anyLineStart titleAt flag (s ++ x) = true.
Proof.
  induction s as [|c s IH]; intros flag H.
  - cbn in H. rewrite orb_false_r in H.
    apply andb_true_iff in H. destruct H as [-> H]. discriminate.
  - cbn [app anyLineStart] in *.
    apply orb_true_iff in H. apply orb_true_iff.
    destruct H as [H|H]; [left|right; now apply IH].
    apply andb_true_iff in H. destruct H as [-> H].
    cbn [andb]. now apply (titleAt_app (c :: s)).
Qed.

Lemma stripPrefix_app (p s r : str) :
  stripPrefix p s = Some r -> s = p ++ r.
Proof.
  revert s. induction p as [|c p IH]; intros s H; cbn in *.
  - now injection H as <-.
  - destruct s as [|d s]; [discriminate|].
    destruct (N.eqb_spec c d) as [->|]; [|discriminate].
    f_equal. now apply IH.
Qed.

Lemma indexOf_Some (p s : str) (i : nat) :
  indexOf p s = Some i -> exists r, skipn i s = p ++ r.
Proof.
  revert i. induction s as [|c s IH]; intros i H.
  - cbn in H. unfold startsWith in H.
    destruct (stripPrefix p []) as [l|] eqn:E; [|discriminate].
    injection H as <-. exists l. now apply stripPrefix_app.
  - cbn [indexOf] in H. unfold startsWith in H.
    destruct (stripPrefix p (c :: s)) as [l|] eqn:E.
    + injection H as <-. exists l. now apply stripPrefix_app.
    + destruct (indexOf p s) as [j|]; [|discriminate].
      injection H as <-. cbn [skipn]. now apply IH.
Qed.

Lemma title_test_HEADER (x : str) :
  CHANGELOG_TITLE_RE_test (HEADER ++ x) = true.
Proof. cbv. reflexivity. Qed.

Lemma unreleased_test_HEADER (x : str) :
  UNRELEASED_HEADER_RE_test (HEADER ++ x) = true.
Proof.
  replace (HEADER ++ x)
    with (firstn 81 HEADER ++ UNRELEASED_BLOCK ++ x) by reflexivity.
  apply unreleased_test_block.
Qed.

(** What [ensureHeaderAndUnreleased] returns passes both of its tests. *)
Lemma ensure_tests (text : str) :
  CHANGELOG_TITLE_RE_test (ensureHeaderAndUnreleased text) = true
  /\ UNRELEASED_HEADER_RE_test (ensureHeaderAndUnreleased text) = true.
Proof.
  unfold ensureHeaderAndUnreleased.
  destruct (CHANGELOG_TITLE_RE_test text) eqn:T1; cbn [negb].
  2:{ rewrite unreleased_test_HEADER. cbn [negb].
      split; [apply title_test_HEADER | apply unreleased_test_HEADER]. }
  destruct (UNRELEASED_HEADER_RE_test text) eqn:T2; cbn [negb];
    [now split|].
  destruct (indexOf (lit "\n## ") text) as [idx|] eqn:I.
  - destruct (indexOf_Some _ _ I) as [r Hr].
    unfold sliceTo, sliceFrom. rewrite Hr. split.
    + unfold CHANGELOG_TITLE_RE_test in *.
      rewrite <- (firstn_skipn idx text) in T1. rewrite Hr in T1.
      apply (title_test_insert (firstn idx text) (35%N :: 32%N :: r) true T1).
    + apply unreleased_test_block.
  - split.
    + now apply title_test_app.
    + unfold UNRELEASED_HEADER_RE_test.
      rewrite <- (app_nil_r UNRELEASED_BLOCK). apply unreleased_test_block.
Qed.

(* ================================================================== *)
(** * Normalisation *)
(* ================================================================== *)

(** C1.  Normalising twice is normalising once, for every input text:
    [ensureHeaderAndUnreleased] leaves its own output unchanged. *)
Theorem ensureHeaderAndUnreleased_idempotent (x : str) :
  ensureHeaderAndUnreleased (ensureHeaderAndUnreleased x)
  = ensureHeaderAndUnreleased x.
Proof.
  destruct (ensure_tests x) as [T1 T2].
  remember (ensureHeaderAndUnreleased x) as t.
  unfold ensureHeaderAndUnreleased. rewrite T1. cbn [negb].
  now rewrite T2.
Qed.

(* ================================================================== *)
(** * Classification and bump *)
(* ================================================================== *)

Lemma eqb_spec (a b : str) : reflect (a = b) (eqb a b).
Proof.
  revert b. induction a as [|x a IH]; intros [|y b]; cbn;
    try (constructor; congruence).
  destruct (N.eqb_spec x y) as [->|N]; cbn.
  - destruct (IH b) as [->|N]; constructor; congruence.
  - constructor. congruence.
Qed.


Lemma labelEqb_eq (a b : LabelValue) : labelEqb a b = true -> a = b.
Proof.
  destruct a, b; cbn; try discriminate;
    intros H; destruct (eqb_spec s s0) || destruct (eqb_spec key key0);
    congruence.
Qed.

Lemma existsb_filter_other (f : LabelValue -> bool) (x : LabelValue)
  (s : list LabelValue) :
  f x = false ->
  existsb f (filter (fun y => negb (labelEqb x y)) s) = existsb f s.
Proof.
  intros Fx. induction s as [|y s IHs]; [reflexivity|].
  cbn [filter existsb].
  destruct (labelEqb x y) eqn:E; cbn [negb existsb].
  - apply labelEqb_eq in E. subst y. now rewrite Fx.
  - now rewrite IHs.
Qed.

(** Iterating a [Set] built from an array finds what iterating the array
    finds. *)
Lemma existsb_setOf (f : LabelValue -> bool) (l : list LabelValue) :
  existsb f (setOf l) = existsb f l.
Proof.
  induction l as [|x l IH]; [reflexivity|].
  cbn [setOf existsb]. rewrite <- IH.
  destruct (f x) eqn:Fx; [reflexivity|]. cbn [orb].
  now apply existsb_filter_other.
Qed.

Lemma categorize_breaking (lower : str -> str) (title : str)
  (labels : list str) (cfg : Config) :
  breaking (categorize lower title labels cfg)
  = titleBang title
    || match breakingLabels cfg with
       | Some (b :: bs) =>
           breakingLabelPresent lower
             (map (Categorize.norm lower) (b :: bs)) labels
       | _ => false
       end
    || breakingPhrasePresent lower title.
Proof.
  unfold categorize, titleBang. cbv zeta.
  destruct (Conventional.exec title) as [m|]; cbn [option_map];
    (destruct (matchByLabels _ _ _);
     [|try match goal with
           | |- breaking (match ?x with _ => _ end) = _ => destruct x
           end]);
    cbn [breaking];
    try destruct (Conventional.m_bang m); cbn [negb andb orb];
    try reflexivity;
    (destruct (breakingLabels cfg) as [[|b bs]|]; cbn [negb andb orb];
     try destruct (breakingLabelPresent lower _ labels);
     cbn [negb andb orb];
     now destruct (breakingPhrasePresent lower title)).
Qed.

Lemma breakingLabelPresent_split (lower : str -> str)
  (breaks labels : list str) :
  breakingLabelPresent lower (map (Categorize.norm lower) breaks) labels
  = configuredBreakingLabel lower breaks labels
    || builtinBreakingLabel lower labels.
Proof.
  unfold breakingLabelPresent, configuredBreakingLabel,
    builtinBreakingLabel.
  rewrite existsb_setOf.
  induction (map (normalizeLabel lower) labels) as [|x l IH];
    [reflexivity|].
  cbn [existsb]. rewrite IH.
  destruct (includesStr x _), (labelEqb x (LStr (lit "breaking"))),
    (labelEqb x (LStr (lit "breaking-change"))),
    (existsb _ l); cbn; try reflexivity;
    repeat rewrite ?orb_true_r, ?orb_false_r; cbn; reflexivity.
Qed.

(** C4, as the specification states it, fails: with [major] as the only
    configured breaking label, the title [fix: x] and the label
    [breaking] show none of the three signals (no bang, no configured
    alias among the labels, no breaking phrase in the title), and the
    classification is breaking all the same. *)
Lemma breaking_without_the_three_signals :
  let cfg := mkConfig (categories README_CONFIG) (Some [lit "major"]) in
  let title := lit "fix: x" in
  let labels := [lit "breaking"] in
  breaking (categorize lowerASCII title labels cfg) = true
  /\ titleBang title = false
  /\ configuredBreakingLabel lowerASCII [lit "major"] labels = false
  /\ breakingPhrasePresent lowerASCII title = false.
Proof. vm_compute. repeat split. Qed.

(** C4, amended.  Under a configuration with a non-empty list of
    breaking-label aliases, the classification is breaking exactly when
    the title has the bang of the commit grammar, or some normalised label
    is a configured breaking alias or one of the built-in names [breaking]
    and [breaking-change], or the lower-cased title contains one of the
    fixed breaking phrases. *)
Theorem categorize_breaking_iff (toLowerCase : str -> str) (title : str)
  (labels : list str) (cats : list (str * list str)) (b : str)
  (bs : list str) :
  breaking (categorize toLowerCase title labels (mkConfig cats (Some (b :: bs))))
  = titleBang title
    || (configuredBreakingLabel toLowerCase (b :: bs) labels
        || builtinBreakingLabel toLowerCase labels)
    || breakingPhrasePresent toLowerCase title.
Proof.
  rewrite categorize_breaking. cbn [breakingLabels].
  now rewrite breakingLabelPresent_split.
Qed.

(** C8.  A breaking classification is bumped to [major] whatever its
    category is; in particular the classification of a fix that carries
    the label [breaking] has category [Fixes] and bump [major], where the
    category alone gives [patch]. *)
Theorem suggestBump_breaking_major :
  (forall (toLowerCase : str -> str) (cat : str) (sc : option str),
      suggestBump toLowerCase (inr (mkResult cat true sc)) = major)
  /\ (let r := categorize lowerASCII
                 (lit "fix: clamp invalid question number")
                 [lit "breaking"] README_CONFIG in
      category r = lit "Fixes"
      /\ breaking r = true
      /\ suggestBump lowerASCII (inr r) = major
      /\ suggestBump lowerASCII (inl (lit "Fixes")) = patch).
Proof.
  split; [reflexivity|]. vm_compute. repeat split.
Qed.

(* ================================================================== *)
(** * The version of a release *)
(* ================================================================== *)

(** C9, as stated, fails at the tag [v]: the tag is neither missing nor
    empty, stripping its leading [v] leaves the empty string, and the
    version is [0.0.0]. *)
Lemma versionOfTag_bare_v :
  Some (lit "v") <> None
  /\ Some (lit "v") <> Some []
  /\ stripLeadingV (lit "v") = []
  /\ versionOfTag (Some (lit "v")) = lit "0.0.0"
  /\ versionOfTag (Some (lit "v")) <> stripLeadingV (lit "v").
Proof. vm_compute. repeat split; discriminate. Qed.

(** C9, amended.  The version is [0.0.0] when the tag name is missing,
    empty, or only the letter [v] or [V]; otherwise it is the tag without
    its first code unit when that is [v] or [V], and the tag itself when
    it is not.  The header of the new section is
    [## [<version>] – <YYYY-MM-DD>] and a line feed. *)
Theorem versionOfTag_cases (tag_name : option str) (fullYear month date : N) :
  versionOfTag tag_name
  = match tag_name with
    | None | Some [] => lit "0.0.0"
    | Some (c :: r) =>
        if (c =? 118)%N || (c =? 86)%N
        then match r with [] => lit "0.0.0" | _ => r end
        else c :: r
    end
  /\ versionHeader (versionOfTag tag_name) (dateStrOf fullYear month date)
     = lit "## [" ++ versionOfTag tag_name ++ lit "] " ++ [8211%N]
       ++ lit " " ++ ofNumber fullYear ++ lit "-" ++ pad2 (month + 1)
       ++ lit "-" ++ pad2 date ++ lit "\n"
  /\ versionHeader (versionOfTag (Some (lit "v0.1.0"))) (dateStrOf 2024 0 1)
     = lit "## [0.1.0] " ++ [8211%N] ++ lit " 2024-01-01\n".
Proof.
  split; [|split].
  - destruct tag_name as [[|c r]|]; try reflexivity.
    unfold versionOfTag, stripLeadingV, foldASCII.
    destruct (N.eqb_spec c 118) as [->|N1]; [now destruct r|].
    destruct (N.eqb_spec c 86) as [->|N2]; [now destruct r|].
    cbn [orb].
    destruct ((65 <=? c) && (c <=? 90))%N eqn:U.
    + destruct (N.eqb_spec (c + 32) 118) as [E|_]; [lia|reflexivity].
    + destruct (N.eqb_spec c 118) as [E|_]; [contradiction|reflexivity].
  - unfold versionHeader, dateStrOf. now rewrite <- !app_assoc.
  - vm_compute. reflexivity.
Qed.

(* ================================================================== *)
(** * Titles with an empty subject *)
(* ================================================================== *)

Lemma wordChar_not_ws (c : char) : isWordChar c = true -> isWhiteSpace c = false.
Proof.
  intros W. destruct (isWhiteSpace c) eqn:S; [exfalso|reflexivity].
  unfold isWordChar in W. unfold isWhiteSpace in S.
  bool_to_prop; lia.
Qed.

Lemma spanWord_app (w x : str) :
  forallb isWordChar w = true ->
  match x with c :: _ => isWordChar c = false | [] => True end ->
  Conventional.spanWord (w ++ x) = (w, x).
Proof.
  intros W X. induction w as [|c w IH]; cbn [app].
  - destruct x as [|d x]; [reflexivity|]. cbn. now rewrite X.
  - cbn in W. apply andb_true_iff in W. destruct W as [Wc W].
    cbn. rewrite Wc, (IH W). reflexivity.
Qed.

Lemma spanNotParen_app (s x : str) :
  forallb (fun c => negb (c =? 41)%N) s = true ->
  Conventional.spanNotParen (s ++ 41%N :: x) = (s, 41%N :: x).
Proof.
  intros S. induction s as [|c s IH]; cbn [app]; [reflexivity|].
  cbn in S. apply andb_true_iff in S. destruct S as [Sc S].
  cbn. destruct (c =? 41)%N; [discriminate|]. now rewrite (IH S).
Qed.

(** What the grammar makes of a well-formed head followed by [r]. *)
Lemma exec_head (ty : str) (sc : option str) (bang : bool) (r : str) :
  wellFormedHead ty sc = true ->
  Conventional.exec (headOfTitle ty sc bang ++ r)
  = match Conventional.subjectOf r with
    | Some subj => Some (Conventional.mkMatch ty sc bang subj)
    | None => None
    end.
Proof.
  unfold wellFormedHead. intros W.
  apply andb_true_iff in W. destruct W as [W S].
  apply andb_true_iff in W. destruct W as [NE W].
  unfold Conventional.exec, headOfTitle.
  rewrite <- !app_assoc.
  rewrite spanWord_app; [|exact W|].
  2:{ destruct sc as [s|]; [reflexivity|]. now destruct bang. }
  destruct ty as [|t0 ty]; [discriminate|]. cbn [isEmpty].
  destruct sc as [s|]; cbn [scopeText app].
  - apply andb_true_iff in S. destruct S as [SN S].
    cbn [N.eqb Pos.eqb]. rewrite <- !app_assoc. cbn [app].
    rewrite spanNotParen_app by exact S.
    destruct s as [|s0 s]; [discriminate|].
    destruct bang; cbn; reflexivity.
  - destruct bang; cbn; reflexivity.
Qed.

Lemma trimStart_all_ws (b : str) :
  forallb isWhiteSpace b = true -> trimStart b = [].
Proof.
  induction b as [|c b IH]; [reflexivity|]. cbn.
  intros H. apply andb_true_iff in H. destruct H as [-> H]. now apply IH.
Qed.

Lemma trimEnd_all_ws (b : str) :
  forallb isWhiteSpace b = true -> trimEnd b = [].
Proof.
  induction b as [|c b IH]; [reflexivity|]. cbn.
  intros H. apply andb_true_iff in H. destruct H as [-> H].
  now rewrite (IH H).
Qed.

Lemma trimEnd_app_ws (a b : str) :
  forallb isWhiteSpace b = true -> trimEnd (a ++ b) = trimEnd a.
Proof.
  intros B. induction a as [|c a IH]; cbn [app].
  - now rewrite trimEnd_all_ws.
  - cbn [trimEnd]. now rewrite IH.
Qed.

Lemma trimEnd_snoc (a : str) (c : char) :
  isWhiteSpace c = false -> trimEnd (a ++ [c]) = a ++ [c].
Proof.
  intros C. induction a as [|d a IH]; cbn [app trimEnd].
  - now rewrite C.
  - rewrite IH. now destruct (a ++ [c]) eqn:E; [destruct a; discriminate|].
Qed.

Lemma headOfTitle_snoc (ty : str) (sc : option str) (bang : bool) :
  headOfTitle ty sc bang = (ty ++ scopeText sc ++ bangText bang) ++ [58%N].
Proof. unfold headOfTitle. now rewrite <- !app_assoc. Qed.

Lemma trim_head (ty : str) (sc : option str) (bang : bool) (blank : str) :
  wellFormedHead ty sc = true ->
  forallb isWhiteSpace blank = true ->
  trim (headOfTitle ty sc bang ++ blank) = headOfTitle ty sc bang.
Proof.
  intros W B. unfold trim.
  assert (S : trimStart (headOfTitle ty sc bang ++ blank)
              = headOfTitle ty sc bang ++ blank).
  { unfold wellFormedHead in W.
    apply andb_true_iff in W. destruct W as [W _].
    apply andb_true_iff in W. destruct W as [NE W].
    destruct ty as [|c ty]; [discriminate|].
    cbn in W. apply andb_true_iff in W. destruct W as [Wc _].
    unfold headOfTitle. cbn [app trimStart].
    now rewrite (wordChar_not_ws _ Wc). }
  rewrite S, trimEnd_app_ws by exact B.
  rewrite headOfTitle_snoc. now apply trimEnd_snoc.
Qed.

Lemma categorize_scope (lower : str -> str) (title : str)
  (labels : list str) (cfg : Config) :
  Categorize.scope (categorize lower title labels cfg)
  = match Conventional.exec title with
    | Some m => Conventional.m_scope m
    | None => None
    end.
Proof.
  unfold categorize. cbv zeta.
  destruct (Conventional.exec title) as [m|]; cbn [option_map];
    (destruct (matchByLabels _ _ _);
     [|try match goal with
           | |- Categorize.scope (match ?x with _ => _ end) = _ => destruct x
           end]);
    reflexivity.
Qed.

(** C10, as stated, fails for a title whose colon is followed by a
    blank: [feat(core)!: ] has a well-formed head and only white space
    after the colon, yet the grammar of the classifier matches it, with
    the blank as subject, and the classification takes the scope [core]
    and the bang from it. *)
Lemma blank_subject_is_classified :
  let title := headOfTitle (lit "feat") (Some (lit "core")) true ++ lit " " in
  title = lit "feat(core)!: "
  /\ wellFormedHead (lit "feat") (Some (lit "core")) = true
  /\ forallb isWhiteSpace (lit " ") = true
  /\ Conventional.exec title
     = Some (Conventional.mkMatch (lit "feat") (Some (lit "core")) true
               (lit " "))
  /\ Categorize.scope (categorize lowerASCII title [] README_CONFIG)
     = Some (lit "core")
  /\ breaking (categorize lowerASCII title [] README_CONFIG) = true
  /\ breakingPhrasePresent lowerASCII title = false.
Proof. vm_compute. repeat split. Qed.

(** C10, amended.  For a title that is a well-formed head
    [type(scope)!:] followed by white space only: the bullet shows the
    trimmed title, which is the head; the grammar of the classifier
    matches the title only when that white space ends in a code unit that
    is no line terminator, which then is the subject; with nothing after
    the colon there is no match, and the classification has no scope and
    no bang from the title. *)
Theorem empty_subject_title (ty : str) (sc : option str) (bang : bool)
  (blank : str) :
  wellFormedHead ty sc = true ->
  forallb isWhiteSpace blank = true ->
  normalizeTitleForBullet (headOfTitle ty sc bang ++ blank)
  = headOfTitle ty sc bang
  /\ Conventional.exec (headOfTitle ty sc bang ++ blank)
     = match rev blank with
       | c :: _ =>
           if isLineTerminator c then None
           else Some (Conventional.mkMatch ty sc bang [c])
       | [] => None
       end
  /\ Conventional.exec (headOfTitle ty sc bang) = None
  /\ titleBang (headOfTitle ty sc bang) = false
  /\ forall toLowerCase labels cfg,
      Categorize.scope
        (categorize toLowerCase (headOfTitle ty sc bang) labels cfg)
      = None.
Proof.
  intros W B.
  assert (E0 : Conventional.exec (headOfTitle ty sc bang) = None).
  { rewrite <- (app_nil_r (headOfTitle ty sc bang)).
    now rewrite exec_head. }
  repeat split.
  - unfold normalizeTitleForBullet. rewrite trim_head by assumption.
    now rewrite E0.
  - rewrite exec_head by exact W. unfold Conventional.subjectOf.
    rewrite trimStart_all_ws by exact B.
    destruct (rev blank) as [|c r]; [reflexivity|].
    now destruct (isLineTerminator c).
  - exact E0.
  - unfold titleBang. now rewrite E0.
  - intros lower labels cfg. rewrite categorize_scope. now rewrite E0.
Qed.

(** The amended statement applies to [fix:] followed by two blanks. *)
Lemma empty_subject_title_witness :
  normalizeTitleForBullet (headOfTitle (lit "fix") None false ++ lit "  ")
  = headOfTitle (lit "fix") None false
  /\ Conventional.exec (headOfTitle (lit "fix") None false ++ lit "  ")
     = match rev (lit "  ") with
       | c :: _ =>
           if isLineTerminator c then None
           else Some (Conventional.mkMatch (lit "fix") None false [c])
       | [] => None
       end
  /\ Conventional.exec (headOfTitle (lit "fix") None false) = None
  /\ titleBang (headOfTitle (lit "fix") None false) = false
  /\ forall toLowerCase labels cfg,
      Categorize.scope
        (categorize toLowerCase (headOfTitle (lit "fix") None false)
           labels cfg)
      = None.
Proof.
  apply (@empty_subject_title (lit "fix") None false (lit "  "));
    reflexivity.
Defined.

(* ================================================================== *)
(** * Lines *)
(* ================================================================== *)

Lemma splitLF_nonempty (s : str) : splitLF s <> [].
Proof.
  destruct s as [|c s]; cbn; [discriminate|].
  destruct (c =? LF)%N; [discriminate|]. now destruct (splitLF s).
Qed.

Lemma splitLF_noLF (s : str) : forallb noLF (splitLF s) = true.
Proof.
  induction s as [|c s IH]; [reflexivity|]. cbn [splitLF].
  destruct (c =? LF)%N eqn:E; [exact IH|].
  destruct (splitLF s) as [|l ls]; cbn in *; rewrite E; cbn;
    [reflexivity|exact IH].
Qed.

Lemma splitLF_app_noLF (l r : str) (ls : list str) :
  noLF l = true -> splitLF r = ls -> splitLF (l ++ LF :: r) = l :: ls.
Proof.
  intros L <-. induction l as [|c l IH]; cbn [app splitLF].
  - reflexivity.
  - cbn in L. apply andb_true_iff in L. destruct L as [Lc L].
    destruct (c =? LF)%N; [discriminate|]. now rewrite (IH L).
Qed.

Lemma splitLF_one (l : str) : noLF l = true -> splitLF l = [l].
Proof.
  induction l as [|c l IH]; [reflexivity|]. cbn. intros L.
  apply andb_true_iff in L. destruct L as [Lc L].
  destruct (c =? LF)%N; [discriminate|]. now rewrite (IH L).
Qed.

(** Splitting what [join] made of lines gives the lines back. *)
Lemma splitLF_joinLF (ls : list str) :
  ls <> [] -> forallb noLF ls = true -> splitLF (joinLF ls) = ls.
Proof.
  induction ls as [|l ls IH]; [congruence|]. intros _ H.
  cbn in H. apply andb_true_iff in H. destruct H as [L H].
  destruct ls as [|l' ls].
  - now apply splitLF_one.
  - change (joinLF (l :: l' :: ls)) with (l ++ LF :: joinLF (l' :: ls)).
    apply splitLF_app_noLF; [exact L|]. apply IH; [discriminate|exact H].
Qed.

Lemma joinLF_splitLF (s : str) : joinLF (splitLF s) = s.
Proof.
  induction s as [|c s IH]; [reflexivity|]. cbn [splitLF].
  pose proof (splitLF_nonempty s) as NE.
  destruct (c =? LF)%N eqn:E.
  - apply N.eqb_eq in E. subst c.
    destruct (splitLF s) as [|l ls]; [contradiction|].
    cbn [joinLF app]. now rewrite <- IH.
  - destruct (splitLF s) as [|l ls]; [contradiction|].
    rewrite <- IH. now destruct ls.
Qed.

Lemma findIndex_Some (A : Type) (P : A -> bool) (l : list A) (i : nat) :
  findIndex P l = Some i ->
  exists pre x post,
    l = pre ++ x :: post /\ length pre = i /\ P x = true
    /\ forallb (fun y => negb (P y)) pre = true.
Proof.
  revert i. induction l as [|y l IH]; intros i H; [discriminate|].
  cbn in H. destruct (P y) eqn:Py.
  - injection H as <-. now exists [], y, l.
  - destruct (findIndex P l) as [j|]; [|discriminate].
    injection H as <-.
    destruct (IH j eq_refl) as (pre & x & post & -> & <- & Px & N).
    exists (y :: pre), x, post. cbn. rewrite Py. now repeat split.
Qed.

Lemma findIndex_first (A : Type) (P : A -> bool) (pre : list A) (x : A)
  (post : list A) :
  forallb (fun y => negb (P y)) pre = true -> P x = true ->
  findIndex P (pre ++ x :: post) = Some (length pre).
Proof.
  intros N Px. induction pre as [|y pre IH]; cbn.
  - now rewrite Px.
  - cbn in N. apply andb_true_iff in N. destruct N as [Ny N].
    destruct (P y); [discriminate|]. now rewrite (IH N).
Qed.

Lemma countBlank_split (ls : list str) :
  exists blanks post,
    ls = blanks ++ post /\ length blanks = countBlank ls
    /\ forallb isBlank blanks = true /\ headNotBlank post = true.
Proof.
  induction ls as [|l ls (blanks & post & E & Len & B & H)].
  - now exists [], [].
  - cbn [countBlank]. destruct (isBlank l) eqn:Bl.
    + exists (l :: blanks), post. cbn. rewrite Bl, Len, <- E.
      now repeat split.
    + exists [], (l :: ls). cbn. rewrite Bl. now repeat split.
Qed.

Lemma countBlank_app (blanks post : list str) :
  forallb isBlank blanks = true -> headNotBlank post = true ->
  countBlank (blanks ++ post) = length blanks.
Proof.
  intros B H. induction blanks as [|l blanks IH]; cbn [app length].
  - destruct post as [|p post]; [reflexivity|].
    cbn [headNotBlank countBlank] in *. now destruct (isBlank p).
  - cbn [forallb] in B. apply andb_true_iff in B. destruct B as [Bl B].
    cbn [countBlank]. now rewrite Bl, (IH B).
Qed.

Lemma skipn_exact (A : Type) (a b : list A) : skipn (length a) (a ++ b) = b.
Proof. induction a; [reflexivity|exact IHa]. Qed.

Lemma firstn_exact (A : Type) (a b : list A) : firstn (length a) (a ++ b) = a.
Proof. induction a; [reflexivity|]. cbn. now rewrite IHa. Qed.

Lemma needsFinalEmpty_app (a b : list str) :
  b <> [] -> needsFinalEmpty (a ++ b) = needsFinalEmpty b.
Proof.
  intros NE. unfold needsFinalEmpty. rewrite rev_app_distr.
  destruct (rev b) as [|x r] eqn:E; [|reflexivity].
  apply (f_equal (@rev str)) in E. rewrite rev_involutive in E.
  contradiction.
Qed.

Lemma needsFinalEmpty_final (ls : list str) :
  needsFinalEmpty (ls ++ finalEmpty ls) = false.
Proof.
  unfold finalEmpty. destruct (needsFinalEmpty ls) eqn:E.
  - unfold needsFinalEmpty. now rewrite rev_app_distr.
  - now rewrite app_nil_r.
Qed.

(* ================================================================== *)
(** * Insertion under an existing category *)
(* ================================================================== *)

Section Insertion.

Variable toLowerCase : str -> str.

Lemma insert_decomposed (body category bullet : str)
  (pre : list str) (hdr : str) (blanks post : list str) :
  splitLF body = pre ++ hdr :: blanks ++ post ->
  forallb (fun l => negb (isCategoryHeader toLowerCase (catHeader category) l))
    pre = true ->
  isCategoryHeader toLowerCase (catHeader category) hdr = true ->
  forallb isBlank blanks = true ->
  headNotBlank post = true ->
  insertIntoUnreleasedCategory toLowerCase body category bullet
  = joinLF ((pre ++ hdr :: blanks ++ bullet :: post)
            ++ finalEmpty (pre ++ hdr :: blanks ++ bullet :: post)).
Proof.
  intros E N H B P. unfold insertIntoUnreleasedCategory. cbv zeta.
  rewrite E, (findIndex_first _ pre hdr (blanks ++ post) N H).
  replace (skipn (S (length pre)) (pre ++ hdr :: blanks ++ post))
    with (blanks ++ post).
  2:{ replace (pre ++ hdr :: blanks ++ post)
        with ((pre ++ [hdr]) ++ blanks ++ post)
        by (now rewrite <- app_assoc).
      replace (S (length pre)) with (length (pre ++ [hdr]))
        by (rewrite length_app; cbn; lia).
      now rewrite skipn_exact. }
  rewrite (countBlank_app _ _ B P).
  replace (pre ++ hdr :: blanks ++ post)
    with ((pre ++ hdr :: blanks) ++ post)
    by (now rewrite <- app_assoc).
  replace (S (length pre) + length blanks) with (length (pre ++ hdr :: blanks))
    by (rewrite length_app; cbn; lia).
  rewrite firstn_exact, skipn_exact.
  replace ((pre ++ hdr :: blanks) ++ bullet :: post)
    with (pre ++ hdr :: blanks ++ bullet :: post)
    by (now rewrite <- app_assoc).
  unfold finalEmpty.
  destruct (needsFinalEmpty (pre ++ hdr :: blanks ++ bullet :: post));
    [reflexivity|now rewrite app_nil_r].
Qed.

End Insertion.

Lemma insert_twice (toLowerCase : str -> str) (body category b1 b2 : str)
  (pre : list str) (hdr : str) (blanks post : list str) :
  splitLF body = pre ++ hdr :: blanks ++ post ->
  forallb (fun l => negb (isCategoryHeader toLowerCase (catHeader category) l))
    pre = true ->
  isCategoryHeader toLowerCase (catHeader category) hdr = true ->
  forallb isBlank blanks = true ->
  headNotBlank post = true ->
  noLF b1 = true -> isBlank b1 = false ->
  insertIntoUnreleasedCategory toLowerCase
    (insertIntoUnreleasedCategory toLowerCase body category b1) category b2
  = joinLF (pre ++ hdr :: blanks ++ b2 :: b1 :: post
            ++ finalEmpty (pre ++ hdr :: blanks ++ b1 :: post)).
Proof.
  intros E N H B P L1 NB.
  rewrite (insert_decomposed toLowerCase body category b1 pre hdr blanks
             post E N H B P).
  set (F := finalEmpty (pre ++ hdr :: blanks ++ b1 :: post)).
  assert (E1 : (pre ++ hdr :: blanks ++ b1 :: post) ++ F
               = pre ++ hdr :: blanks ++ (b1 :: post ++ F)).
  { rewrite <- !app_assoc. cbn [app]. now rewrite <- !app_assoc. }
  assert (LF1 : forallb noLF (pre ++ hdr :: blanks ++ (b1 :: post ++ F))
                = true).
  { pose proof (splitLF_noLF body) as K. rewrite E in K.
    repeat (rewrite ?forallb_app in K; cbn [forallb] in K).
    repeat (rewrite ?forallb_app; cbn [forallb]).
    apply andb_true_iff in K. destruct K as [K1 K].
    apply andb_true_iff in K. destruct K as [K2 K].
    apply andb_true_iff in K. destruct K as [K3 K4].
    rewrite K1, K2, K3, K4, L1. cbn [andb].
    subst F. unfold finalEmpty. now destruct (needsFinalEmpty _). }
  rewrite E1.
  rewrite (insert_decomposed toLowerCase _ category b2 pre hdr blanks
             (b1 :: post ++ F)); try assumption.
  - replace (finalEmpty (pre ++ hdr :: blanks ++ b2 :: b1 :: post ++ F))
      with (@nil str); [now rewrite app_nil_r|].
    unfold finalEmpty at 1.
    replace (pre ++ hdr :: blanks ++ b2 :: b1 :: post ++ F)
      with ((pre ++ hdr :: blanks ++ [b2]) ++ (b1 :: post ++ F))
      by (rewrite <- !app_assoc; cbn [app]; now rewrite <- !app_assoc).
    rewrite needsFinalEmpty_app by discriminate.
    rewrite <- (needsFinalEmpty_app (pre ++ hdr :: blanks)) by discriminate.
    replace ((pre ++ hdr :: blanks) ++ b1 :: post ++ F)
      with ((pre ++ hdr :: blanks ++ b1 :: post) ++ F)
      by (rewrite <- !app_assoc; cbn [app]; now rewrite <- !app_assoc).
    subst F. now rewrite needsFinalEmpty_final.
  - apply splitLF_joinLF; [now destruct pre|exact LF1].
  - cbn [headNotBlank]. now rewrite NB.
Qed.

(** C6.  When a line of the staging body is the header of the category
    (compared trimmed and without case), the new entry goes after the
    first such header and after the blank lines that follow it, ahead of
    every other line of the block; a second entry put under the same
    category lands immediately before the first.  Entries 55 and then 56
    put under [Fixes] leave the entry of 56 listed before that of 55. *)
Theorem insert_into_existing_category :
  (forall (toLowerCase : str -> str) (body category bullet : str) (i : nat),
      findIndex (isCategoryHeader toLowerCase (catHeader category))
        (splitLF body) = Some i ->
      exists pre hdr blanks post,
        splitLF body = pre ++ hdr :: blanks ++ post
        /\ length pre = i
        /\ isCategoryHeader toLowerCase (catHeader category) hdr = true
        /\ forallb isBlank blanks = true
        /\ headNotBlank post = true
        /\ insertIntoUnreleasedCategory toLowerCase body category bullet
           = joinLF ((pre ++ hdr :: blanks ++ bullet :: post)
                     ++ finalEmpty (pre ++ hdr :: blanks ++ bullet :: post))
        /\ forall bullet2,
            noLF bullet = true -> isBlank bullet = false ->
            insertIntoUnreleasedCategory toLowerCase
              (insertIntoUnreleasedCategory toLowerCase body category bullet)
              category bullet2
            = joinLF (pre ++ hdr :: blanks ++ bullet2 :: bullet :: post
                      ++ finalEmpty (pre ++ hdr :: blanks ++ bullet :: post)))
  /\ (let b55 := formatBullet (lit "fix: clamp invalid question number") 55 None in
      let b56 := formatBullet (lit "fix: reject negative scores") 56 None in
      insertIntoUnreleasedCategory lowerASCII
        (insertIntoUnreleasedCategory lowerASCII [] (lit "Fixes") b55)
        (lit "fixes") b56
      = lit "### Fixes\n- reject negative scores (#56)\n- clamp invalid question number (#55)\n").
Proof.
  split; [|vm_compute; reflexivity].
  intros lower body category bullet i F.
  destruct (findIndex_Some _ _ F) as (pre & hdr & rest & E & Len & H & N).
  destruct (countBlank_split rest) as (blanks & post & -> & _ & B & P).
  exists pre, hdr, blanks, post.
  repeat split; try assumption.
  - now apply insert_decomposed.
  - intros b2 L NB. now apply insert_twice.
Qed.

(** The statement applies to a body whose [### fixes] header is followed
    by a blank line and an entry. *)
Lemma insert_into_existing_category_witness :
  exists pre hdr blanks post,
    splitLF (lit "### Features\n- a (#1)\n\n### fixes\n\n- b (#2)\n")
    = pre ++ hdr :: blanks ++ post
    /\ length pre = 3
    /\ isCategoryHeader lowerASCII (catHeader (lit "Fixes")) hdr = true
    /\ forallb isBlank blanks = true
    /\ headNotBlank post = true
    /\ insertIntoUnreleasedCategory lowerASCII
         (lit "### Features\n- a (#1)\n\n### fixes\n\n- b (#2)\n")
         (lit "Fixes") (lit "- c (#3)")
       = joinLF ((pre ++ hdr :: blanks ++ lit "- c (#3)" :: post)
                 ++ finalEmpty (pre ++ hdr :: blanks ++ lit "- c (#3)" :: post))
    /\ forall bullet2,
        noLF (lit "- c (#3)") = true -> isBlank (lit "- c (#3)") = false ->
        insertIntoUnreleasedCategory lowerASCII
          (insertIntoUnreleasedCategory lowerASCII
             (lit "### Features\n- a (#1)\n\n### fixes\n\n- b (#2)\n")
             (lit "Fixes") (lit "- c (#3)"))
          (lit "Fixes") bullet2
        = joinLF (pre ++ hdr :: blanks ++ bullet2 :: lit "- c (#3)" :: post
                  ++ finalEmpty (pre ++ hdr :: blanks ++ lit "- c (#3)" :: post)).
Proof.
  apply (proj1 insert_into_existing_category lowerASCII
           (lit "### Features\n- a (#1)\n\n### fixes\n\n- b (#2)\n")
           (lit "Fixes") (lit "- c (#3)") 3).
  vm_compute. reflexivity.
Defined.

(* ================================================================== *)
(** * The first entry of an empty staging section *)
(* ================================================================== *)

(** C7, as stated, fails: the entry keeps the subject of the title as it
    is written, with a small [c]; nothing capitalises it. *)
Lemma first_entry_is_not_capitalised :
  insertIntoUnreleasedCategory lowerASCII [] (lit "Fixes")
    (formatBullet (lit "fix: clamp invalid question number") 55 None)
  <> lit "### Fixes\n- Clamp invalid question number (#55)\n".
Proof. vm_compute. discriminate. Qed.

(** C7, amended.  Inserting into an empty staging body the entry with
    title [fix: clamp invalid question number], category [Fixes] and
    number 55 makes the body
    [### Fixes\n- clamp invalid question number (#55)\n]: the grammar
    prefix is stripped by parsing the title again and the subject is kept
    as written.  An entry renders as [- [<scope>] <text> (#<number>)],
    without the bracket when the scope is missing or empty, and a title
    outside the grammar is shown trimmed and otherwise verbatim. *)
Theorem first_entry_of_empty_section :
  insertIntoUnreleasedCategory lowerASCII [] (lit "Fixes")
    (formatBullet (lit "fix: clamp invalid question number") 55 None)
  = lit "### Fixes\n- clamp invalid question number (#55)\n"
  /\ normalizeTitleForBullet (lit "fix: clamp invalid question number")
     = lit "clamp invalid question number"
  /\ normalizeTitleForBullet (lit "feat(api)!: drop v1 routes")
     = lit "drop v1 routes"
  /\ normalizeTitleForBullet (lit " Clamp invalid question number ")
     = lit "Clamp invalid question number"
  /\ (forall title n,
         formatBullet title n None
         = lit "- " ++ normalizeTitleForBullet title ++ lit " (#"
           ++ ofNumber n ++ lit ")")
  /\ (forall title n,
         formatBullet title n (Some [])
         = lit "- " ++ normalizeTitleForBullet title ++ lit " (#"
           ++ ofNumber n ++ lit ")")
  /\ (forall title n c s,
         formatBullet title n (Some (c :: s))
         = lit "- [" ++ (c :: s) ++ lit "] " ++ normalizeTitleForBullet title
           ++ lit " (#" ++ ofNumber n ++ lit ")")
  /\ formatBullet (lit "feat(api): add rate limiting") 123 (Some (lit "api"))
     = lit "- [api] add rate limiting (#123)".
Proof.
  repeat split; try (vm_compute; reflexivity).
  intros title n c s. unfold formatBullet, scopePrefix.
  eval_lits. cbn [app]. now rewrite <- !app_assoc.
Qed.

(* ================================================================== *)
(** * The staging section of a text *)
(* ================================================================== *)

Lemma findIndex_None (A : Type) (P : A -> bool) (l : list A) :
  findIndex P l = None -> forallb (fun y => negb (P y)) l = true.
Proof.
  induction l as [|y l IH]; [reflexivity|]. cbn.
  destruct (P y); [discriminate|]. cbn.
  destruct (findIndex P l); [discriminate|]. intros _. now apply IH.
Qed.

Lemma findIndex_none_of (A : Type) (P : A -> bool) (l : list A) :
  forallb (fun y => negb (P y)) l = true -> findIndex P l = None.
Proof.
  induction l as [|y l IH]; [reflexivity|]. cbn.
  destruct (P y); [discriminate|]. cbn. intros H. now rewrite (IH H).
Qed.

Lemma skipn_past (A : Type) (pre : list A) (x : A) (rest : list A) :
  skipn (S (length pre)) (pre ++ x :: rest) = rest.
Proof. induction pre; [reflexivity|exact IHpre]. Qed.

Lemma firstn_past (A : Type) (pre : list A) (x : A) (rest : list A) :
  firstn (S (length pre)) (pre ++ x :: rest) = pre ++ [x].
Proof.
  induction pre; [reflexivity|].
  cbn [length app]. rewrite firstn_cons. now rewrite IHpre.
Qed.


Lemma nth_past (A : Type) (pre : list A) (x d : A) (rest : list A) :
  nth (length pre) (pre ++ x :: rest) d = x.
Proof. induction pre; [reflexivity|exact IHpre]. Qed.

Lemma capture_of_parts (text : str) (p : Parts) :
  splitLines text = partsLines p -> partsOk p ->
  captureUnreleased text = Some (captureOf p).
Proof.
  destruct p as [pre h mid post]. unfold captureOf, partsLines, partsOk.
  cbn [p_pre p_header p_mid p_post]. intros E (N & H & M & P).
  unfold captureUnreleased. cbv zeta. rewrite E.
  rewrite (findIndex_first _ pre h (mid ++ post) N H).
  rewrite skipn_past, nth_past.
  assert (F : findIndex sectionHeadingAt (mid ++ post)
              = match post with
                | [] => None
                | _ :: _ => Some (length mid)
                end).
  { destruct post as [|x post].
    - rewrite app_nil_r. now apply findIndex_none_of.
    - now apply findIndex_first. }
  rewrite F. unfold slice.
  rewrite skipn_past.
  destruct post as [|x post].
  - rewrite app_nil_r.
    replace (length (pre ++ h :: mid)) with (S (length pre) + length mid)
      by (rewrite length_app; cbn; lia).
    replace (S (length pre) + length mid - S (length pre)) with (length mid)
      by lia.
    now rewrite firstn_all.
  - replace (S (length pre) + length mid - S (length pre)) with (length mid)
      by lia.
    now rewrite firstn_exact.
Qed.

Lemma parts_of_capture (text : str) (cap : Capture) :
  captureUnreleased text = Some cap ->
  exists p, splitLines text = partsLines p /\ partsOk p /\ cap = captureOf p.
Proof.
  unfold captureUnreleased. cbv zeta.
  destruct (findIndex UNRELEASED_HEADER_RE_test (splitLines text))
    as [start|] eqn:F; [|discriminate].
  destruct (findIndex_Some _ _ F) as (pre & h & rest & E & Len & H & N).
  assert (R : exists mid post,
             rest = mid ++ post
             /\ forallb (fun l => negb (sectionHeadingAt l)) mid = true
             /\ headIsSection post = true).
  { destruct (findIndex sectionHeadingAt rest) as [j|] eqn:G.
    - destruct (findIndex_Some _ _ G) as (mid & x & post & -> & _ & X & M).
      now exists mid, (x :: post).
    - exists rest, []. rewrite app_nil_r.
      repeat split. now apply findIndex_None. }
  destruct R as (mid & post & -> & M & P).
  intros C. exists (mkParts pre h mid post).
  assert (OK : partsOk (mkParts pre h mid post)) by now repeat split.
  repeat split; try assumption.
  pose proof (@capture_of_parts text (mkParts pre h mid post) E OK) as K.
  unfold captureUnreleased in K. cbv zeta in K. rewrite F in K.
  congruence.
Qed.

Lemma before_of_parts (p : Parts) :
  joinLF (slice 0 (S (start (captureOf p))) (lines (captureOf p)))
  = joinLF (p_pre p ++ [p_header p]).
Proof.
  unfold slice, captureOf, partsLines. cbn [start lines skipn].
  now rewrite Nat.sub_0_r, firstn_past.
Qed.

Lemma after_of_parts (p : Parts) :
  joinLF (skipn (end_ (captureOf p)) (lines (captureOf p)))
  = joinLF (p_post p).
Proof.
  unfold captureOf, partsLines. cbn [end_ lines].
  replace (p_pre p ++ p_header p :: p_mid p ++ p_post p)
    with ((p_pre p ++ p_header p :: p_mid p) ++ p_post p)
    by (now rewrite <- app_assoc).
  replace (S (length (p_pre p)) + length (p_mid p))
    with (length (p_pre p ++ p_header p :: p_mid p))
    by (rewrite length_app; cbn; lia).
  now rewrite skipn_exact.
Qed.

(* ================================================================== *)
(** * Lines and the staging marker *)
(* ================================================================== *)

Lemma splitLF_app_LF (a b : str) :
  splitLF (a ++ LF :: b) = splitLF a ++ splitLF b.
Proof.
  induction a as [|c a IH]; [reflexivity|]. cbn [app splitLF].
  destruct (c =? LF)%N; rewrite IH; [reflexivity|].
  pose proof (splitLF_nonempty a) as NE.
  now destruct (splitLF a).
Qed.

Lemma chompAllButLast_app (x y : list str) :
  y <> [] -> chompAllButLast (x ++ y) = map chompCR x ++ chompAllButLast y.
Proof.
  intros NE. induction x as [|l x IH]; [reflexivity|].
  cbn [app map]. rewrite <- IH.
  destruct (x ++ y) eqn:E; [|reflexivity].
  apply app_eq_nil in E. now destruct E.
Qed.


Lemma splitLines_app_LF (a b : str) :
  splitLines (a ++ LF :: b) = map chompCR (splitLF a) ++ splitLines b.
Proof.
  unfold splitLines. rewrite splitLF_app_LF.
  apply chompAllButLast_app, splitLF_nonempty.
Qed.

Lemma chompCR_spec (l : str) : chompCR l = l \/ l = chompCR l ++ [CR].
Proof.
  induction l as [|c l IH]; [now left|].
  destruct l as [|d l].
  - cbn. destruct (N.eqb_spec c CR) as [->|]; [now right|now left].
  - change (chompCR (c :: d :: l)) with (c :: chompCR (d :: l)).
    destruct IH as [->|E]; [now left|right].
    cbn [app]. now rewrite <- E.
Qed.

Lemma chompCR_noLF (l : str) : noLF l = true -> noLF (chompCR l) = true.
Proof.
  intros H. destruct (chompCR_spec l) as [->|E]; [exact H|].
  rewrite E in H. unfold noLF in *. rewrite forallb_app in H.
  now apply andb_true_iff in H.
Qed.

Lemma wsThenEol_snoc (r : str) (c : char) :
  isLineTerminator c = true -> wsThenEol (r ++ [c]) = wsThenEol r.
Proof.
  intros C. induction r as [|d r IH]; cbn [app wsThenEol].
  - now rewrite C.
  - now rewrite IH.
Qed.


Lemma trimStart_app (r x : str) :
  trimStart r <> [] -> trimStart (r ++ x) = trimStart r ++ x.
Proof.
  induction r as [|d r IH]; cbn [app trimStart]; [congruence|].
  destruct (isWhiteSpace d); [exact IH|reflexivity].
Qed.

Lemma trimStart_ws_app (r x : str) :
  trimStart r = [] -> trimStart (r ++ x) = trimStart x.
Proof.
  induction r as [|d r IH]; cbn [app trimStart]; [reflexivity|].
  destruct (isWhiteSpace d); [exact IH|discriminate].
Qed.

Lemma lineTerminator_ws (c : char) :
  isLineTerminator c = true -> isWhiteSpace c = true.
Proof.
  unfold isLineTerminator, isWhiteSpace. intros H.
  bool_to_prop; subst c; reflexivity.
Qed.

Lemma stripPrefix_snoc (p s : str) (c : char) :
  forallb (fun x => negb (x =? c)%N) p = true ->
  stripPrefix p (s ++ [c]) = option_map (fun r => r ++ [c]) (stripPrefix p s).
Proof.
  revert s. induction p as [|x p IH]; intros s H; [reflexivity|].
  cbn in H. apply andb_true_iff in H. destruct H as [Hx H].
  destruct s as [|y s]; cbn [app stripPrefix].
  - now destruct (x =? c)%N.
  - destruct (x =? y)%N; [now apply IH|reflexivity].
Qed.

Lemma stripPrefixCI_snoc (p s : str) (c : char) :
  forallb (fun x => negb (foldASCII x =? foldASCII c)%N) p = true ->
  stripPrefixCI p (s ++ [c])
  = option_map (fun r => r ++ [c]) (stripPrefixCI p s).
Proof.
  revert s. induction p as [|x p IH]; intros s H; [reflexivity|].
  cbn in H. apply andb_true_iff in H. destruct H as [Hx H].
  destruct s as [|y s]; cbn [app stripPrefixCI].
  - now destruct (foldASCII x =? foldASCII c)%N.
  - destruct (foldASCII x =? foldASCII y)%N; [now apply IH|reflexivity].
Qed.




Lemma trimStart_snoc (r : str) (c : char) :
  isWhiteSpace c = true ->
  trimStart (r ++ [c])
  = match trimStart r with [] => [] | t => t ++ [c] end.
Proof.
  intros C. destruct (trimStart r) as [|d t] eqn:E.
  - rewrite trimStart_ws_app by exact E. cbn. now rewrite C.
  - rewrite trimStart_app by (rewrite E; discriminate). now rewrite E.
Qed.

(** A line terminator at the very end of a text neither makes nor breaks
    a staging marker. *)
Lemma unreleasedAt_snoc (s : str) (c : char) :
  isLineTerminator c = true -> unreleasedAt (s ++ [c]) = unreleasedAt s.
Proof.
  intros C. pose proof (lineTerminator_ws _ C) as W.
  assert (C1 : forallb (fun x => negb (x =? c)%N) (lit "##") = true).
  { unfold isLineTerminator in C. bool_to_prop; subst c; reflexivity. }
  assert (C2 : forallb (fun x => negb (foldASCII x =? foldASCII c)%N)
                 (lit "unreleased") = true).
  { unfold isLineTerminator in C. bool_to_prop; subst c; reflexivity. }
  assert (C3 : (c =? 91)%N = false /\ (c =? 93)%N = false).
  { unfold isLineTerminator in C. bool_to_prop; subst c; now split. }
  unfold unreleasedAt. rewrite (@stripPrefix_snoc _ s _ C1).
  destruct (stripPrefix (lit "##") s) as [r1|]; [|reflexivity].
  cbn [option_map]. rewrite (@trimStart_snoc r1 _ W).
  destruct (trimStart r1) as [|d r2]; [reflexivity|]. cbn [app].
  set (r3 := if (d =? 91)%N then trimStart r2 else d :: r2).
  assert (K : (if (d =? 91)%N then trimStart (r2 ++ [c])
               else d :: r2 ++ [c])
              = match r3 with [] => [] | t => t ++ [c] end).
  { subst r3. destruct (d =? 91)%N; [|reflexivity].
    rewrite (@trimStart_snoc r2 _ W). now destruct (trimStart r2). }
  rewrite K. destruct r3 as [|e r3]; [reflexivity|].
  rewrite (@stripPrefixCI_snoc _ (e :: r3) _ C2).
  destruct (stripPrefixCI (lit "unreleased") (e :: r3)) as [r4|];
    [|reflexivity].
  cbn [option_map]. rewrite (@wsThenEol_snoc r4 _ C), (@trimStart_snoc r4 _ W).
  destruct (trimStart r4) as [|f r5]; [reflexivity|]. cbn [app].
  now rewrite (@wsThenEol_snoc r5 _ C).
Qed.

Lemma anyLineStart_snoc (P : str -> bool) (c : char) :
  P [] = false -> (forall s, P (s ++ [c]) = P s) ->
  forall s flag, anyLineStart P flag (s ++ [c]) = anyLineStart P flag s.
Proof.
  intros P0 Pc. induction s as [|d s IH]; intros flag.
  - pose proof (Pc []) as E. cbn [app] in E.
    cbn [app anyLineStart]. rewrite E, P0. now rewrite !andb_false_r.
  - cbn [app anyLineStart]. rewrite IH.
    change (d :: s ++ [c]) with ((d :: s) ++ [c]). now rewrite Pc.
Qed.

Lemma unreleased_test_snoc (l : str) (c : char) :
  isLineTerminator c = true ->
  UNRELEASED_HEADER_RE_test (l ++ [c]) = UNRELEASED_HEADER_RE_test l.
Proof.
  intros C. apply anyLineStart_snoc; [reflexivity|].
  intros s. now apply unreleasedAt_snoc.
Qed.

(** The staging marker does not depend on the CR that a line break
    takes. *)
Lemma unreleased_test_chompCR (l : str) :
  UNRELEASED_HEADER_RE_test (chompCR l) = UNRELEASED_HEADER_RE_test l.
Proof.
  destruct (chompCR_spec l) as [->|E]; [reflexivity|].
  rewrite E at 2. symmetry. now apply unreleased_test_snoc.
Qed.



Lemma joinLF_app (x y : list str) :
  x <> [] -> y <> [] -> joinLF (x ++ y) = joinLF x ++ LF :: joinLF y.
Proof.
  intros X Y. induction x as [|l x IH]; [congruence|].
  destruct x as [|l' x].
  - cbn [app]. destruct y; [congruence|reflexivity].
  - change (joinLF ((l :: l' :: x) ++ y))
      with (l ++ LF :: joinLF ((l' :: x) ++ y)).
    rewrite IH by discriminate.
    change (joinLF (l :: l' :: x)) with (l ++ LF :: joinLF (l' :: x)).
    now rewrite <- app_assoc.
Qed.



(* ================================================================== *)
(** * Collapsing runs of line feeds *)
(* ================================================================== *)

Lemma collapse_split (a : str) (c : char) (r : str) :
  (c =? LF)%N = false ->
  forall k,
    collapseFrom k (a ++ c :: r) = collapseFrom k a ++ c :: collapseFrom 0 r.
Proof.
  intros C. induction a as [|d a IH]; intros k; cbn [app collapseFrom].
  - now rewrite C.
  - destruct (d =? LF)%N; [destruct (k <? 2)|]; cbn [app]; now rewrite IH.
Qed.


(** A non-empty stretch without line feeds is kept, and what follows it
    is collapsed afresh. *)
Lemma collapse_around (a h r : str) (k : nat) :
  noLF h = true -> h <> [] ->
  collapseFrom k (a ++ h ++ r) = collapseFrom k a ++ h ++ collapseFrom 0 r.
Proof.
  intros H NE. destruct h as [|c h]; [congruence|].
  cbn in H. apply andb_true_iff in H. destruct H as [C H].
  apply negb_true_iff in C. cbn [app].
  rewrite (@collapse_split a c (h ++ r) C). f_equal. f_equal.
  clear a C NE. induction h as [|d h IH]; [reflexivity|].
  cbn in H. apply andb_true_iff in H. destruct H as [D H].
  cbn [app collapseFrom]. destruct (d =? LF)%N; [discriminate|].
  now rewrite IH.
Qed.

Lemma collapse_snoc_LF (s : str) :
  forall k,
    (exists y, collapseFrom k (s ++ [LF]) = y ++ [LF])
    \/ (2 <= k /\ collapseFrom k (s ++ [LF]) = []).
Proof.
  induction s as [|c s IH]; intros k; cbn [app collapseFrom].
  - change (LF =? LF)%N with true. cbv iota.
    destruct (Nat.ltb_spec k 2); [left; now exists []|right; now split].
  - destruct (N.eqb_spec c LF) as [->|NE].
    + destruct (Nat.ltb_spec k 2) as [L|L].
      * left. destruct (IH (S k)) as [[y ->]|[_ ->]];
          [now exists (LF :: y)|now exists []].
      * exact (IH k).
    + left. destruct (IH 0) as [[y ->]|[L _]]; [now exists (c :: y)|lia].
Qed.

Lemma splitLF_cons (c : char) (x : str) :
  (c =? LF)%N = false ->
  splitLF (c :: x) = (c :: hd [] (splitLF x)) :: tl (splitLF x).
Proof.
  intros C. cbn [splitLF]. rewrite C.
  pose proof (splitLF_nonempty x). now destruct (splitLF x).
Qed.

Lemma splitLF_hd_tl (x : str) :
  splitLF x = hd [] (splitLF x) :: tl (splitLF x).
Proof. pose proof (splitLF_nonempty x). now destruct (splitLF x). Qed.

Lemma collapse_head_line (s : str) :
  forall k, k < 2 ->
    hd [] (splitLF (collapseFrom k s)) = hd [] (splitLF s).
Proof.
  induction s as [|c s IH]; intros k K; [reflexivity|].
  cbn [collapseFrom]. destruct (c =? LF)%N eqn:C.
  - apply Nat.ltb_lt in K. rewrite K. cbn [splitLF]. now rewrite C.
  - rewrite !splitLF_cons by exact C. cbn [hd]. now rewrite IH by lia.
Qed.

Lemma collapse_head_in (s : str) :
  forall k, In (hd [] (splitLF (collapseFrom k s))) (splitLF s).
Proof.
  induction s as [|c s IH]; intros k; [now left|].
  cbn [collapseFrom]. destruct (c =? LF)%N eqn:C.
  - cbn [splitLF]. rewrite C. destruct (k <? 2).
    + cbn [splitLF]. rewrite C. now left.
    + right. apply IH.
  - rewrite !splitLF_cons by exact C. left. cbn [hd].
    now rewrite collapse_head_line by lia.
Qed.

Lemma collapse_tail_in (s : str) :
  forall k l,
    In l (tl (splitLF (collapseFrom k s))) -> l = [] \/ In l (tl (splitLF s)).
Proof.
  induction s as [|c s IH]; intros k l H; [contradiction|].
  cbn [collapseFrom] in H. destruct (c =? LF)%N eqn:C.
  - cbn [splitLF]. rewrite C. cbn [tl]. destruct (k <? 2).
    + cbn [splitLF] in H. rewrite C in H. cbn [tl] in H.
      rewrite splitLF_hd_tl in H. destruct H as [<-|H].
      * right. apply collapse_head_in.
      * destruct (IH _ _ H) as [->|H']; [now left|right].
        rewrite splitLF_hd_tl. now right.
    + destruct (IH _ _ H) as [->|H']; [now left|right].
      rewrite splitLF_hd_tl. now right.
  - rewrite splitLF_cons in H by exact C. cbn [tl] in H.
    rewrite splitLF_cons by exact C. cbn [tl]. now apply (IH 0).
Qed.

(** Collapsing makes no new line: a line of the collapsed text is empty
    or a line of the text. *)
Lemma collapse_lines (s : str) (k : nat) (l : str) :
  In l (splitLF (collapseFrom k s)) -> l = [] \/ In l (splitLF s).
Proof.
  rewrite splitLF_hd_tl. intros [<-|H].
  - right. apply collapse_head_in.
  - destruct (collapse_tail_in _ _ _ H) as [->|H']; [now left|right].
    rewrite splitLF_hd_tl. now right.
Qed.

Lemma chompCR_id (s : str) :
  forallb (fun c => negb (c =? CR)%N) s = true -> chompCR s = s.
Proof.
  induction s as [|c s IH]; [reflexivity|]. intros H.
  cbn in H. apply andb_true_iff in H. destruct H as [C H].
  destruct s as [|d s].
  - cbn. now destruct (c =? CR)%N.
  - change (chompCR (c :: d :: s)) with (c :: chompCR (d :: s)).
    now rewrite IH.
Qed.

Lemma splitLines_noLF (t : str) : forallb noLF (splitLines t) = true.
Proof.
  unfold splitLines. pose proof (splitLF_noLF t) as H.
  induction (splitLF t) as [|l ls IH]; [reflexivity|].
  cbn in H. apply andb_true_iff in H. destruct H as [L H].
  destruct ls as [|l' ls]; cbn [chompAllButLast forallb].
  - now rewrite L.
  - rewrite (chompCR_noLF _ L). cbn [andb]. now apply IH.
Qed.

Lemma noLineTerminator_noLF (s : str) :
  Conventional.noLineTerminator s = true -> noLF s = true.
Proof.
  unfold Conventional.noLineTerminator, noLF.
  induction s as [|c s IH]; [reflexivity|]. cbn. intros H.
  apply andb_true_iff in H. destruct H as [C H]. rewrite (IH H).
  unfold isLineTerminator in C. apply negb_true_iff in C.
  bool_to_prop. unfold LF. now rewrite (proj2 (N.eqb_neq c 10)).
Qed.

Lemma noLineTerminator_noCR (s : str) :
  Conventional.noLineTerminator s = true ->
  forallb (fun c => negb (c =? CR)%N) s = true.
Proof.
  unfold Conventional.noLineTerminator.
  induction s as [|c s IH]; [reflexivity|]. cbn. intros H.
  apply andb_true_iff in H. destruct H as [C H]. rewrite (IH H).
  unfold isLineTerminator in C. apply negb_true_iff in C.
  bool_to_prop. unfold CR. now rewrite (proj2 (N.eqb_neq c 13)).
Qed.

Lemma versionLine_single (version dateStr : str) :
  Conventional.noLineTerminator version = true ->
  Conventional.noLineTerminator dateStr = true ->
  noLF (versionLine version dateStr) = true
  /\ chompCR (versionLine version dateStr) = versionLine version dateStr
  /\ sectionHeadingAt (versionLine version dateStr) = true
  /\ versionLine version dateStr <> []
  /\ versionHeader version dateStr = versionLine version dateStr ++ [LF].
Proof.
  intros V D.
  assert (T : Conventional.noLineTerminator (versionLine version dateStr)
              = true).
  { unfold versionLine, Conventional.noLineTerminator in *.
    rewrite !forallb_app. now rewrite V, D. }
  split; [|split; [|split; [|split]]].
  - now apply noLineTerminator_noLF.
  - now apply chompCR_id, noLineTerminator_noCR.
  - unfold versionLine. eval_lits. reflexivity.
  - unfold versionLine. eval_lits. cbn [app]. discriminate.
  - unfold versionHeader, versionLine. eval_lits.
    now rewrite <- !app_assoc.
Qed.

(* ================================================================== *)
(** * Lines up to blank lines and trailing white space *)
(* ================================================================== *)







(** The lines of [a ++ b]: those of [a], the last of them continued by
    the first line of [b], and the other lines of [b]. *)
Lemma splitLF_app_ex (a : str) :
  exists I L,
    splitLF a = I ++ [L]
    /\ forall b,
        splitLF (a ++ b) = I ++ (L ++ hd [] (splitLF b)) :: tl (splitLF b).
Proof.
  induction a as [|c a (I & L & E & H)].
  - exists [], []. split; [reflexivity|]. intros b. apply splitLF_hd_tl.
  - destruct (c =? LF)%N eqn:C.
    + exists ([] :: I), L. cbn [app splitLF]. rewrite C, E.
      split; [reflexivity|]. intros b. now rewrite H.
    + destruct I as [|i I].
      * exists [], (c :: L). cbn [app splitLF]. rewrite C, E.
        split; [reflexivity|]. intros b. now rewrite H.
      * exists ((c :: i) :: I), L. cbn [app splitLF]. rewrite C, E.
        split; [reflexivity|]. intros b. now rewrite H.
Qed.

Lemma splitLF_all_ws (w : str) :
  forallb isWhiteSpace w = true ->
  forallb (forallb isWhiteSpace) (splitLF w) = true.
Proof.
  induction w as [|c w IH]; [reflexivity|]. cbn [forallb splitLF].
  intros H. apply andb_true_iff in H. destruct H as [C H].
  specialize (IH H). destruct (c =? LF)%N; [exact IH|].
  destruct (splitLF w) as [|l ls]; cbn in *; rewrite C; [reflexivity|].
  exact IH.
Qed.



Lemma trimEnd_split (s : str) :
  exists w, s = trimEnd s ++ w /\ forallb isWhiteSpace w = true.
Proof.
  induction s as [|c s (w & E & W)]; [now exists []|].
  cbn [trimEnd]. destruct (trimEnd s) as [|d r].
  - cbn [app] in E. subst w. destruct (isWhiteSpace c) eqn:C.
    + exists (c :: s). cbn. now rewrite C.
    + now exists s.
  - exists w. split; [|exact W]. cbn [app] in *. now rewrite <- E.
Qed.



Lemma splitLF_joinLF_flat (ls : list str) :
  ls <> [] -> splitLF (joinLF ls) = flat_map splitLF ls.
Proof.
  induction ls as [|l ls IH]; [congruence|]. intros _.
  destruct ls as [|l' ls].
  - cbn. now rewrite app_nil_r.
  - change (joinLF (l :: l' :: ls)) with (l ++ LF :: joinLF (l' :: ls)).
    rewrite splitLF_app_LF, IH by discriminate. reflexivity.
Qed.

Lemma flat_map_splitLF_noLF (ls : list str) :
  forallb noLF ls = true -> flat_map splitLF ls = ls.
Proof.
  induction ls as [|l ls IH]; [reflexivity|]. cbn [forallb flat_map].
  intros H. apply andb_true_iff in H. destruct H as [L H].
  now rewrite (splitLF_one _ L), (IH H).
Qed.

(* ================================================================== *)
(** * Release cutover *)
(* ================================================================== *)

Lemma splitLines_line (l rest : str) :
  noLF l = true -> splitLines (l ++ LF :: rest) = chompCR l :: splitLines rest.
Proof.
  intros L. rewrite splitLines_app_LF. now rewrite (splitLF_one _ L).
Qed.

Lemma unreleased_test_nonempty (h : str) :
  UNRELEASED_HEADER_RE_test h = true -> h <> [].
Proof. intros H ->. discriminate. Qed.

(** The text before and including the staging header, once collapsed. *)
Lemma collapse_before (pre : list str) (h X : str) :
  forallb noLF pre = true -> noLF h = true -> h <> [] ->
  exists P,
    collapseNewlines (joinLF (pre ++ [h]) ++ X) = P ++ h ++ collapseFrom 0 X
    /\ (P = []
        \/ exists P', P = P' ++ [LF]
                      /\ forall l, In l (splitLF P') -> l = [] \/ In l pre).
Proof.
  intros Lp Lh NE. unfold collapseNewlines.
  destruct pre as [|l0 pre].
  - exists []. split; [|now left].
    exact (@collapse_around [] h X 0 Lh NE).
  - rewrite joinLF_app by discriminate. change (joinLF [h]) with h.
    rewrite <- app_assoc. cbn [app].
    replace (joinLF (l0 :: pre) ++ LF :: h ++ X)
      with ((joinLF (l0 :: pre) ++ [LF]) ++ h ++ X)
      by (now rewrite <- app_assoc).
    rewrite (@collapse_around _ h X 0 Lh NE).
    destruct (collapse_snoc_LF (joinLF (l0 :: pre)) 0) as [[P' E]|[K _]];
      [|lia].
    exists (collapseFrom 0 (joinLF (l0 :: pre) ++ [LF])). split;
      [reflexivity|right].
    exists P'. split; [exact E|]. intros l Hl.
    assert (Hl' : In l (splitLF (collapseFrom 0 (joinLF (l0 :: pre) ++ [LF])))).
    { rewrite E, splitLF_app_LF. apply in_or_app. now left. }
    apply collapse_lines in Hl'. destruct Hl' as [->|Hl']; [now left|].
    rewrite splitLF_app_LF, splitLF_joinLF in Hl' by (discriminate || exact Lp).
    apply in_app_or in Hl'. destruct Hl' as [Hl'|[<-|[]]]; [now right|now left].
Qed.

Lemma trim_nonempty_LF (s : str) (k : nat) :
  isEmpty (trim s) = false ->
  exists c r, trimEnd (trim s) = c :: r /\ (c =? LF)%N = false.
Proof.
  unfold trim. intros H.
  destruct (trimStart s) as [|c r] eqn:E; [discriminate|].
  assert (W : isWhiteSpace c = false).
  { clear H. induction s as [|d s IH]; [discriminate|].
    cbn in E. destruct (isWhiteSpace d) eqn:D; [now apply IH|].
    now injection E as <- _. }
  assert (T : exists r', trimEnd (c :: r) = c :: r').
  { cbn [trimEnd]. destruct (trimEnd r); [rewrite W|]; eauto. }
  destruct T as [r' T]. rewrite T.
  assert (T2 : exists r'', trimEnd (c :: r') = c :: r'').
  { cbn [trimEnd]. destruct (trimEnd r'); [rewrite W|]; eauto. }
  destruct T2 as [r'' ->]. exists c, r''. split; [reflexivity|].
  destruct (N.eqb_spec c LF) as [->|]; [discriminate|reflexivity].
Qed.

Lemma in_map_chompCR_test (ls : list str) :
  (forall l, In l ls -> UNRELEASED_HEADER_RE_test l = false) ->
  forallb (fun l => negb (UNRELEASED_HEADER_RE_test l)) (map chompCR ls)
  = true.
Proof.
  intros H. induction ls as [|l ls IH]; [reflexivity|].
  cbn [map forallb]. rewrite unreleased_test_chompCR.
  rewrite (H l (or_introl eq_refl)). cbn [negb andb].
  apply IH. intros l' Hl'. apply H. now right.
Qed.

Lemma forallb_negb_In (A : Type) (P : A -> bool) (ls : list A) (l : A) :
  forallb (fun x => negb (P x)) ls = true -> In l ls -> P l = false.
Proof.
  intros H I. rewrite forallb_forall in H. apply H in I.
  now apply negb_true_iff in I.
Qed.



(** Where [cutover] gives nothing, [releaseUnreleased] leaves the remote
    state as it is; where it gives a text, that text is written and the
    release body becomes the extracted body and a line feed. *)
Lemma releaseUnreleased_cutover (ev : ReleaseEvent) (fullYear month date : N)
  (r : Remote) (content : str) :
  changelogFile r = Some content ->
  match cutover content (versionOfTag (tag_name ev))
          (dateStrOf fullYear month date) with
  | None => releaseUnreleased ev fullYear month date r = r
  | Some c =>
      changelogFile (releaseUnreleased ev fullYear month date r)
      = Some (next c)
      /\ forall p,
          release_id ev = Some (Npos p) ->
          releaseBody (releaseUnreleased ev fullYear month date r)
          = unreleasedBody c ++ [LF]
  end.
Proof.
  intros F. unfold releaseUnreleased. rewrite F.
  destruct (cutover content _ _) as [c|]; [|reflexivity].
  split; [reflexivity|]. intros p ->. reflexivity.
Qed.

(** Scenario C: a release tagged [v0.1.0] on 2024-01-01. *)
Example release_scenario :
  let content :=
    lit "# Changelog\nAll notable changes to this project will be documented in this file.\n\n## [Unreleased]\n### Fixes\n- b (#56)\n- a (#55)\n\n" in
  option_map (fun c => (next c, unreleasedBody c))
    (cutover content (versionOfTag (Some (lit "v0.1.0")))
       (dateStrOf 2024 0 1))
  = Some (lit "# Changelog\nAll notable changes to this project will be documented in this file.\n\n## [Unreleased]\n\n## [0.1.0] "
          ++ [8211%N]
          ++ lit " 2024-01-01\n### Fixes\n- b (#56)\n- a (#55)\n\n",
          lit "### Fixes\n- b (#56)\n- a (#55)").
Proof. vm_compute. reflexivity. Qed.

(** Scenario D: a release with an empty staging section. *)
Example release_of_nothing :
  cutover HEADER (lit "0.1.0") (lit "2024-01-01") = None.
Proof. vm_compute. reflexivity. Qed.

(* ================================================================== *)
(** * What normalisation guarantees *)
(* ================================================================== *)








(** A text with a staging section and no title line: the header that
    is put in front brings a staging header of its own. *)
Example header_before_staging_section :
  ensureHeaderAndUnreleased (lit "## [Unreleased]\n- x\n")
  = HEADER ++ lit "## [Unreleased]\n- x\n"
  /\ stagingHeaders (ensureHeaderAndUnreleased (lit "## [Unreleased]\n- x\n"))
     = [lit "## [Unreleased]"; lit "## [Unreleased]"].
Proof. vm_compute. split; reflexivity. Qed.




(* ================================================================== *)
(** * What an insertion leaves alone *)
(* ================================================================== *)

Lemma existsb_findIndex (A : Type) (P : A -> bool) (l : list A) :
  existsb P l = true -> exists i, findIndex P l = Some i.
Proof.
  induction l as [|x l IH]; [discriminate|]. cbn [existsb findIndex].
  destruct (P x); [now exists 0|]. cbn [orb]. intros H.
  destruct (IH H) as [i ->]. now exists (S i).
Qed.

Lemma joinLF_snoc_empty (ls : list str) :
  ls <> [] -> joinLF (ls ++ [[]]) = joinLF ls ++ [LF].
Proof.
  induction ls as [|l ls IH]; [congruence|]. intros _.
  destruct ls as [|l' ls]; [reflexivity|].
  change (joinLF ((l :: l' :: ls) ++ [[]]))
    with (l ++ LF :: joinLF ((l' :: ls) ++ [[]])).
  rewrite IH by discriminate.
  change (joinLF (l :: l' :: ls)) with (l ++ LF :: joinLF (l' :: ls)).
  now rewrite <- app_assoc.
Qed.

(** The white space that [insertIntoUnreleasedCategory] leaves at the end
    of a body is dropped by [trimEnd]: the empty last line it pushes. *)
Lemma trimEnd_finalEmpty (ls : list str) :
  ls <> [] -> trimEnd (joinLF (ls ++ finalEmpty ls)) = trimEnd (joinLF ls).
Proof.
  intros N. unfold finalEmpty. destruct (needsFinalEmpty ls).
  - rewrite (joinLF_snoc_empty N). now apply trimEnd_app_ws.
  - now rewrite app_nil_r.
Qed.

(** C2, as stated, fails: the run of three line feeds inside a version
    section is collapsed, and the trailing blanks of the last entry of
    another category block are removed; neither text is found in the
    result character for character. *)
Lemma insertion_changes_other_text :
  let add text :=
    replaceUnreleasedSection text
      (fun body =>
         insertIntoUnreleasedCategory lowerASCII body (lit "Fixes")
           (lit "- b (#2)")) in
  let text1 :=
    lit "# Changelog\n\n## [Unreleased]\n\n## [1.0.0]\n- x\n\n\n- y\n" in
  let section := lit "## [1.0.0]\n- x\n\n\n- y\n" in
  let text2 :=
    lit "# Changelog\n\n## [Unreleased]\n### Features\n- a (#1)  \n\n## [1.0.0]\n- x\n" in
  let block := lit "### Features\n- a (#1)  \n" in
  includes section text1 = true
  /\ includes section (add text1) = false
  /\ add text1
     = lit "# Changelog\n\n## [Unreleased]\n### Fixes\n- b (#2)\n\n## [1.0.0]\n- x\n\n- y\n"
  /\ includes block text2 = true
  /\ includes block (add text2) = false
  /\ add text2
     = lit "# Changelog\n\n## [Unreleased]\n### Features\n- a (#1)\n\n### Fixes\n- b (#2)\n\n## [1.0.0]\n- x\n".
Proof. vm_compute. repeat split. Qed.

(** C2, amended.  For a document whose normalised text has a line that
    is a staging header, the result of inserting one entry is given
    character for character.  With the lines of the normalised text
    (split at LF, a CR before the LF dropped) being the lines before the
    first staging header, that header, the lines of the staging body, and
    the lines from the next section heading on, the result is: the lines
    up to the header joined by LF, the new body without the white space
    at its end, one empty line, and the lines from the next section
    heading on joined by LF; and in this text every run of three or more
    line feeds is made two.  The new body is the old one with the entry
    put in at one place: as a line of its own below the heading of its
    category and the blank lines that follow the heading; or, when the
    body has no such heading, the old body without the white space at
    its end, an empty line, the heading and the entry.  So every other
    category block and every version section is kept, in order and
    character for character, but for the CR before a LF, the white space
    at the end of the staging body and the runs of three or more line
    feeds. *)
Theorem insertion_preserves_lines (toLowerCase : str -> str)
  (text category bullet : str) :
  existsb UNRELEASED_HEADER_RE_test
    (splitLines (ensureHeaderAndUnreleased text)) = true ->
  exists p newBody,
    splitLines (ensureHeaderAndUnreleased text) = partsLines p
    /\ partsOk p
    /\ (p_mid p = [] \/ splitLF (joinLF (p_mid p)) = p_mid p)
    /\ replaceUnreleasedSection text
         (fun body =>
            insertIntoUnreleasedCategory toLowerCase body category bullet)
       = collapseNewlines
           (joinLF (p_pre p ++ [p_header p]) ++ LF :: trimEnd newBody
            ++ LF :: LF :: joinLF (p_post p))
    /\ ((exists A h blanks B,
           splitLF (joinLF (p_mid p)) = A ++ h :: blanks ++ B
           /\ forallb
                (fun l =>
                   negb (isCategoryHeader toLowerCase (catHeader category) l))
                A = true
           /\ isCategoryHeader toLowerCase (catHeader category) h = true
           /\ forallb isBlank blanks = true
           /\ headNotBlank B = true
           /\ newBody = joinLF (A ++ h :: blanks ++ bullet :: B))
        \/ (forallb
              (fun l =>
                 negb (isCategoryHeader toLowerCase (catHeader category) l))
              (splitLF (joinLF (p_mid p))) = true
            /\ newBody
               = (if isEmpty (trimEnd (joinLF (p_mid p))) then []
                  else trimEnd (joinLF (p_mid p)) ++ [LF; LF])
                 ++ catHeader category ++ LF :: bullet)).
Proof.
  intros H. apply existsb_findIndex in H. destruct H as [i F].
  assert (C : exists cap,
             captureUnreleased (ensureHeaderAndUnreleased text) = Some cap).
  { unfold captureUnreleased. cbv zeta. rewrite F. now eexists. }
  destruct C as [cap C].
  destruct (@parts_of_capture _ _ C) as (p & E & OK & ->).
  unfold replaceUnreleasedSection. cbv zeta. rewrite C.
  rewrite before_of_parts, after_of_parts.
  change (body (captureOf p)) with (joinLF (p_mid p)).
  set (b := joinLF (p_mid p)).
  assert (M : p_mid p = [] \/ splitLF b = p_mid p).
  { destruct (p_mid p) as [|m mid] eqn:Em; [now left|right].
    pose proof (splitLines_noLF (ensureHeaderAndUnreleased text)) as NL.
    rewrite E in NL. unfold partsLines in NL. rewrite Em in NL.
    rewrite forallb_app in NL. apply andb_true_iff in NL.
    destruct NL as [_ NL]. cbn [forallb] in NL.
    apply andb_true_iff in NL. destruct NL as [_ NL].
    rewrite forallb_app in NL. apply andb_true_iff in NL.
    destruct NL as [NL _]. unfold b.
    apply splitLF_joinLF; [discriminate|exact NL]. }
  assert (J : forall x,
             joinLF [joinLF (p_pre p ++ [p_header p]); x; [];
                     joinLF (p_post p)]
             = joinLF (p_pre p ++ [p_header p]) ++ LF :: x
               ++ LF :: LF :: joinLF (p_post p)).
  { intros x. reflexivity. }
  rewrite J.
  destruct (findIndex (isCategoryHeader toLowerCase (catHeader category))
              (splitLF b)) as [k|] eqn:G.
  - destruct (findIndex_Some _ _ G) as (A & h & rest & EA & _ & Hh & NA).
    destruct (countBlank_split rest) as (blanks & B & -> & _ & Bl & HB).
    exists p, (joinLF (A ++ h :: blanks ++ bullet :: B)).
    split; [exact E|]. split; [exact OK|]. split; [exact M|]. split.
    + rewrite (@insert_decomposed toLowerCase b category bullet A h blanks B
                 EA NA Hh Bl HB).
      rewrite trimEnd_finalEmpty; [reflexivity|]. now destruct A.
    + left. exists A, h, blanks, B. now repeat split.
  - exists p,
      ((if isEmpty (trimEnd b) then [] else trimEnd b ++ [LF; LF])
       ++ catHeader category ++ LF :: bullet).
    split; [exact E|]. split; [exact OK|]. split; [exact M|]. split.
    + unfold insertIntoUnreleasedCategory. cbv zeta. rewrite G.
      destruct (trimEnd_split b) as (w & Eb & W).
      replace (sliceFrom (length (trimEnd b)) b) with w.
      2:{ unfold sliceFrom. rewrite Eb at 2. now rewrite skipn_exact. }
      set (x := if isEmpty (trimEnd b) then [] else trimEnd b ++ lit "\n\n").
      change (lit "\n\n") with [LF; LF]. change (lit "\n") with [LF].
      assert (R : (x ++ catHeader category ++ [LF] ++ bullet ++ [LF]) ++ w
                  = (x ++ catHeader category ++ LF :: bullet) ++ LF :: w).
      { rewrite <- !app_assoc. cbn [app]. now rewrite <- ?app_assoc. }
      rewrite R, trimEnd_app_ws by (cbn [forallb]; now rewrite W).
      reflexivity.
    + right. split; [|reflexivity]. now apply findIndex_None.
Qed.

(** The amended statement applies to a changelog with a CR LF line
    break, white space at the end of a category block and a run of three
    line feeds in a released section. *)
Lemma insertion_preserves_lines_witness :
  let text :=
    lit "# Changelog\r\n\n## [Unreleased]\n### Features\n- a (#1)  \n\n## [1.0.0]\n- x\n\n\n- y\n" in
  existsb UNRELEASED_HEADER_RE_test
    (splitLines (ensureHeaderAndUnreleased text)) = true
  /\ exists p newBody,
      splitLines (ensureHeaderAndUnreleased text) = partsLines p
      /\ partsOk p
      /\ (p_mid p = [] \/ splitLF (joinLF (p_mid p)) = p_mid p)
      /\ replaceUnreleasedSection text
           (fun body =>
              insertIntoUnreleasedCategory lowerASCII body (lit "Fixes")
                (lit "- b (#2)"))
         = collapseNewlines
             (joinLF (p_pre p ++ [p_header p]) ++ LF :: trimEnd newBody
              ++ LF :: LF :: joinLF (p_post p))
      /\ ((exists A h blanks B,
             splitLF (joinLF (p_mid p)) = A ++ h :: blanks ++ B
             /\ forallb
                  (fun l =>
                     negb (isCategoryHeader lowerASCII
                             (catHeader (lit "Fixes")) l))
                  A = true
             /\ isCategoryHeader lowerASCII (catHeader (lit "Fixes")) h = true
             /\ forallb isBlank blanks = true
             /\ headNotBlank B = true
             /\ newBody = joinLF (A ++ h :: blanks ++ lit "- b (#2)" :: B))
          \/ (forallb
                (fun l =>
                   negb (isCategoryHeader lowerASCII
                           (catHeader (lit "Fixes")) l))
                (splitLF (joinLF (p_mid p))) = true
              /\ newBody
                 = (if isEmpty (trimEnd (joinLF (p_mid p))) then []
                    else trimEnd (joinLF (p_mid p)) ++ [LF; LF])
                   ++ catHeader (lit "Fixes") ++ LF :: lit "- b (#2)")).
Proof.
  split; [reflexivity|].
  apply (@insertion_preserves_lines lowerASCII
           (lit "# Changelog\r\n\n## [Unreleased]\n### Features\n- a (#1)  \n\n## [1.0.0]\n- x\n\n\n- y\n")
           (lit "Fixes") (lit "- b (#2)")).
  reflexivity.
Defined.

(** The text that results for that changelog. *)
Example insertion_preserves_lines_run :
  replaceUnreleasedSection
    (lit "# Changelog\r\n\n## [Unreleased]\n### Features\n- a (#1)  \n\n## [1.0.0]\n- x\n\n\n- y\n")
    (fun body =>
       insertIntoUnreleasedCategory lowerASCII body (lit "Fixes")
         (lit "- b (#2)"))
  = lit "# Changelog\n\n## [Unreleased]\n### Features\n- a (#1)\n\n### Fixes\n- b (#2)\n\n## [1.0.0]\n- x\n\n- y\n".
Proof. vm_compute. reflexivity. Qed.

(** A marker spread over two lines passes the test of the whole text,
    while no line is a staging header: the text is then returned as it
    is. *)
Example marker_over_two_lines :
  let text := lit "# Changelog\n##\n[Unreleased]\n" in
  UNRELEASED_HEADER_RE_test text = true
  /\ existsb UNRELEASED_HEADER_RE_test
       (splitLines (ensureHeaderAndUnreleased text)) = false
  /\ replaceUnreleasedSection text
       (fun body =>
          insertIntoUnreleasedCategory lowerASCII body (lit "Fixes")
            (lit "- b (#2)"))
     = text.
Proof. vm_compute. repeat split. Qed.
(* ================================================================== *)
(** * Version bumps *)
(* ================================================================== *)

(** X1.  [suggestBump] answers [major] for a breaking classification and
    for nothing else: a category name alone, and a classification that is
    not breaking, never give [major], whatever the category is. *)
Theorem suggestBump_major_iff (toLowerCase : str -> str)
  (input : str + CategorizeResult) :
  suggestBump toLowerCase input = major
  <-> exists r, input = inr r /\ breaking r = true.
Proof.
  split.
  - unfold suggestBump. destruct input as [name|r]; cbn [breaking].
    + repeat match goal with
             | |- context [if ?b then _ else _] => destruct b
             end; discriminate.
    + destruct (breaking r) eqn:B.
      * intros _. now exists r.
      * repeat match goal with
               | |- context [if ?b then _ else _] => destruct b
               end; discriminate.
  - intros [r [-> B]]. unfold suggestBump. now rewrite B.
Qed.

Lemma rank_inj (a b : Bump) : rank a = rank b -> a = b.
Proof. destruct a, b; cbn; congruence. Qed.

Lemma existsb_bumpEqb (b : Bump) (l : list Bump) :
  existsb (bumpEqb b) l = true <-> In b l.
Proof.
  rewrite existsb_exists. split.
  - intros [x [I E]]. destruct b, x; try discriminate; exact I.
  - intros I. exists b. split; [exact I|now destruct b].
Qed.

Lemma existsb_bumpEqb_false (b : Bump) (l : list Bump) :
  existsb (bumpEqb b) l = false <-> ~ In b l.
Proof.
  rewrite <- existsb_bumpEqb. destruct (existsb _ l); split; congruence.
Qed.

(** X2.  [combineBumps] returns the greatest bump of the list in the order
    major > minor > patch > none: it is an element of a non-empty list, no
    element is above it, and it is [none] for the empty list. *)
Theorem combineBumps_greatest (bumps : list Bump) :
  (forall b, In b bumps -> rank b <= rank (combineBumps bumps))
  /\ (In (combineBumps bumps) bumps
      \/ (bumps = [] /\ combineBumps bumps = none)).
Proof.
  unfold combineBumps.
  destruct (existsb (bumpEqb major) bumps) eqn:E3.
  { split; [intros b _; destruct b; cbn; lia|].
    left. now apply existsb_bumpEqb. }
  destruct (existsb (bumpEqb minor) bumps) eqn:E2.
  { split.
    - intros b I. destruct b; cbn; try lia.
      apply existsb_bumpEqb_false in E3. contradiction.
    - left. now apply existsb_bumpEqb. }
  destruct (existsb (bumpEqb patch) bumps) eqn:E1.
  { split.
    - intros b I. destruct b; cbn; try lia.
      + apply existsb_bumpEqb_false in E3. contradiction.
      + apply existsb_bumpEqb_false in E2. contradiction.
    - left. now apply existsb_bumpEqb. }
  apply existsb_bumpEqb_false in E3, E2, E1. split.
  - intros b I. destruct b; cbn; try lia; contradiction.
  - destruct bumps as [|b r]; [now right|]. left.
    destruct b; cbn; auto; exfalso; [apply E3|apply E2|apply E1]; now left.
Qed.

Lemma combineBumps_rank_max (bumps : list Bump) :
  rank (combineBumps bumps) = fold_right Nat.max 0 (map rank bumps).
Proof.
  induction bumps as [|b r IH]; [reflexivity|].
  cbn [map fold_right]. rewrite <- IH. clear IH.
  unfold combineBumps. cbn [existsb].
  destruct b; cbn [bumpEqb orb rank];
    destruct (existsb (bumpEqb major) r); cbn [rank]; try lia;
    destruct (existsb (bumpEqb minor) r); cbn [rank]; try lia;
    destruct (existsb (bumpEqb patch) r); cbn [rank]; lia.
Qed.

(** X3.  Suggestions can be combined in parts and in any order: combining
    two lists at once is combining their two results, and a rearranged
    list combines to the same bump. *)
Theorem combineBumps_parts (a b : list Bump) :
  combineBumps (a ++ b) = combineBumps [combineBumps a; combineBumps b]
  /\ combineBumps (a ++ b) = combineBumps (b ++ a)
  /\ combineBumps (rev a) = combineBumps a.
Proof.
  assert (M : forall l1 l2,
             fold_right Nat.max 0 (map rank (l1 ++ l2))
             = Nat.max (fold_right Nat.max 0 (map rank l1))
                 (fold_right Nat.max 0 (map rank l2))).
  { intros l1 l2. induction l1 as [|x l1 IH]; [reflexivity|].
    cbn [app map fold_right]. rewrite IH. lia. }
  split; [|split]; apply rank_inj; rewrite !combineBumps_rank_max.
  - rewrite M. cbn [map fold_right]. rewrite !combineBumps_rank_max. lia.
  - rewrite !M. lia.
  - induction a as [|x a IH]; [reflexivity|].
    cbn [rev]. rewrite M, IH. cbn [map fold_right]. lia.
Qed.

(* ================================================================== *)
(** * Classification *)
(* ================================================================== *)

Lemma matchByLabels_In (lower : str -> str) (ls : list LabelValue)
  (cats : list (str * list str)) (cat : str) :
  matchByLabels lower ls cats = Some cat -> In cat (map fst cats).
Proof.
  induction cats as [|[c al] r IH]; [discriminate|].
  cbn [matchByLabels map fst].
  destruct (existsb _ ls); [intros E; injection E as ->; now left|].
  destruct (existsb _ ls); [intros E; injection E as ->; now left|].
  intros E. right. now apply IH.
Qed.

Lemma assoc_In (A : Type) (k : str) (m : list (str * A)) (v : A) :
  assoc k m = Some v -> In v (map snd m).
Proof.
  induction m as [|[k' v'] r IH]; [discriminate|]. cbn [assoc map snd].
  destruct (eqb k' k); [intros E; injection E as ->; now left|].
  intros E. right. now apply IH.
Qed.

Lemma aliases_values (lower : str -> str) (cat : str) (al : list str)
  (m : list (str * str)) (S : str -> Prop) :
  S cat -> (forall v, In v (map snd m) -> S v) ->
  forall v,
    In v (map snd
            (fold_left (fun m' alias => mapSet (Categorize.norm lower alias) cat m')
               al m)) ->
    S v.
Proof.
  intros Sc. revert m. induction al as [|a al IH]; intros m Sm v; cbn [fold_left].
  - apply Sm.
  - apply IH. intros w [<-|I]; [exact Sc|now apply Sm].
Qed.

Lemma buildAliasToCategory_values (lower : str -> str)
  (cats : list (str * list str)) (v : str) :
  In v (map snd (buildAliasToCategory lower cats)) -> In v (map fst cats).
Proof.
  unfold buildAliasToCategory.
  assert (G : forall (m : list (str * str)) (S : str -> Prop),
             (forall c, In c (map fst cats) -> S c) ->
             (forall w, In w (map snd m) -> S w) ->
             forall w,
               In w (map snd
                       (fold_left
                          (fun m entry =>
                             let cat := fst entry in
                             fold_left
                               (fun m' alias =>
                                  mapSet (Categorize.norm lower alias) cat m')
                               (snd entry)
                               (mapSet (Categorize.norm lower cat) cat m))
                          cats m)) ->
               S w).
  { induction cats as [|[c al] r IH]; intros m S Sc Sm w; cbn [fold_left].
    - apply Sm.
    - apply IH.
      + intros c' I. apply Sc. now right.
      + cbn [fst snd]. apply aliases_values.
        * apply Sc. now left.
        * intros x [<-|I]; [apply Sc; now left|now apply Sm]. }
  apply (G [] (fun c => In c (map fst cats))); [auto|intros w []].
Qed.

Lemma categorize_category_In (lower : str -> str) (title : str)
  (labels : list str) (cfg : Categorize.Config) :
  In (category (categorize lower title labels cfg)) (categoryNames cfg)
  \/ (categoryNames cfg = []
      /\ category (categorize lower title labels cfg) = lit "Changes").
Proof.
  unfold categorize, categoryNames. cbv zeta.
  destruct (matchByLabels _ _ _) as [cat|] eqn:ML.
  { cbn [category]. left. exact (matchByLabels_In _ _ _ ML). }
  match goal with
  | |- context [match ?x with Some cat => mkResult cat _ _ | None => _ end] =>
      destruct x as [cat|] eqn:BT
  end.
  { cbn [category]. left.
    destruct (option_map _ _) as [[|c t]|]; try discriminate.
    apply buildAliasToCategory_values with (lower := lower).
    exact (assoc_In _ _ BT). }
  cbn [category].
  destruct (find _ FALLBACKS) as [f|] eqn:F.
  { left. apply find_some in F. destruct F as [_ F].
    apply existsb_exists in F. destruct F as [x [I E]].
    destruct (eqb_spec f x); [now subst|discriminate]. }
  destruct (map fst (Categorize.categories cfg)) as [|c r].
  - right. now split.
  - left. now left.
Qed.

(** X4.  The category of a classification is always one of the configured
    category names; only when no category is configured at all is it the
    name [Changes].  No title and no label makes [categorize] invent a
    category. *)
Theorem categorize_category_configured (toLowerCase : str -> str)
  (title : str) (labels : list str) (cfg : Categorize.Config) :
  let c := category (categorize toLowerCase title labels cfg) in
  In c (categoryNames cfg)
  \/ (categoryNames cfg = [] /\ c = lit "Changes").
Proof. cbv zeta. apply categorize_category_In. Qed.

(** X5.  Without configured breaking labels, whether the list is missing
    or empty, labels play no part in the breaking determination, not even
    the built-in names [breaking] and [breaking-change]: the
    classification is breaking exactly when the title has the bang or
    contains a breaking phrase. *)
Theorem categorize_breaking_unconfigured (toLowerCase : str -> str)
  (title : str) (labels : list str) (cats : list (str * list str)) :
  breaking (categorize toLowerCase title labels (Categorize.mkConfig cats None))
  = titleBang title || breakingPhrasePresent toLowerCase title
  /\ breaking
       (categorize toLowerCase title labels (Categorize.mkConfig cats (Some [])))
     = titleBang title || breakingPhrasePresent toLowerCase title.
Proof.
  rewrite !categorize_breaking. cbn [Categorize.breakingLabels].
  now rewrite orb_false_r.
Qed.

(* ================================================================== *)
(** * The default configuration *)
(* ================================================================== *)

Lemma lowersPlainly_In (lower : str -> str) (l : list str) (s : str) :
  lowersPlainly lower l = true -> In s l -> lower (trim s) = lowerASCII s.
Proof.
  unfold lowersPlainly. rewrite forallb_forall. intros H I.
  specialize (H s I). now destruct (eqb_spec (lower (trim s)) (lowerASCII s)).
Qed.

(** X6.  With the default categories (a configuration file that gives
    none), every merged pull request gets a bump: [major] when the
    classification is breaking, [minor] for the category [Features],
    [patch] for every other category; never [none]. *)
Theorem default_categories_always_bump (toLowerCase : str -> str)
  (title : str) (labels : list str) (raw : ConfigFile.Partial) :
  ConfigFile.raw_categories raw = None ->
  lowersPlainly toLowerCase (map fst DEFAULT_CATEGORIES) = true ->
  let res :=
    categorize toLowerCase title labels
      (ConfigFile.forCategorize (ConfigFile.applyDefaults raw)) in
  suggestBump toLowerCase (inr res)
  = if breaking res then major
    else if eqb (category res) (lit "Features") then minor
    else patch.
Proof.
  intros R L. cbv zeta.
  pose proof (categorize_category_In toLowerCase title labels
                (ConfigFile.forCategorize (ConfigFile.applyDefaults raw)))
    as I.
  set (res := categorize toLowerCase title labels _) in *.
  unfold categoryNames, ConfigFile.forCategorize, ConfigFile.applyDefaults in I.
  cbn [Categorize.categories ConfigFile.categories] in I. rewrite R in I.
  cbn [ConfigFile.orElse map fst] in I.
  unfold suggestBump. destruct (breaking res); [reflexivity|].
  unfold Semver.norm.
  destruct I as [I|[I _]]; [|discriminate I].
  repeat (destruct I as [I|I];
          [rewrite <- I;
           rewrite (@lowersPlainly_In toLowerCase _ _ L)
             by (vm_compute; tauto);
           vm_compute; reflexivity|]).
  destruct I.
Qed.

Lemma default_categories_always_bump_witness :
  let title := lit "docs: describe the release flow" in
  let res :=
    categorize lowerASCII title []
      (ConfigFile.forCategorize
         (ConfigFile.applyDefaults ConfigFile.emptyPartial)) in
  category res = lit "Docs"
  /\ suggestBump lowerASCII (inr res)
     = if breaking res then major
       else if eqb (category res) (lit "Features") then minor
       else patch.
Proof.
  split; [vm_compute; reflexivity|].
  apply (@default_categories_always_bump lowerASCII
           (lit "docs: describe the release flow") []
           ConfigFile.emptyPartial);
    vm_compute; reflexivity.
Defined.

Lemma categorize_by_label (lower : str -> str) (title : str)
  (labels : list str) (cfg : Categorize.Config) (cat : str) :
  matchByLabels lower (map (normalizeLabel lower) labels)
    (Categorize.categories cfg) = Some cat ->
  category (categorize lower title labels cfg) = cat.
Proof.
  intros M. unfold categorize. cbv zeta. now rewrite M.
Qed.

(** X7.  The default configuration and the table of common label aliases
    agree: a label that is, up to letter case and surrounding white
    space, one of the aliases the default configuration lists under a
    category puts the pull request into that category, whatever the title
    says. *)
Theorem default_alias_selects_category (toLowerCase : str -> str)
  (title label cat alias : str) (aliases : list str) :
  lowersPlainly toLowerCase (configuredStrings DEFAULT_CATEGORIES) = true ->
  In (cat, aliases) DEFAULT_CATEGORIES -> In alias aliases ->
  Categorize.norm toLowerCase label = alias ->
  category
    (categorize toLowerCase title [label]
       (ConfigFile.forCategorize
          (ConfigFile.applyDefaults ConfigFile.emptyPartial)))
  = cat.
Proof.
  intros L IC IA N. apply categorize_by_label.
  cbn [map]. unfold normalizeLabel. cbv zeta. rewrite N. clear N.
  assert (F : forall s, In s (configuredStrings DEFAULT_CATEGORIES) ->
                        Categorize.norm toLowerCase s = lowerASCII s).
  { intros s I. exact (lowersPlainly_In _ _ _ L I). }
  vm_compute in IC.
  repeat (destruct IC as [IC|IC];
          [injection IC as <- <-;
           vm_compute in IA;
           repeat (destruct IA as [IA|IA];
                   [rewrite <- IA; clear IA|]);
           try contradiction|]);
    try contradiction;
    cbn [ConfigFile.forCategorize ConfigFile.applyDefaults
         ConfigFile.emptyPartial ConfigFile.raw_categories
         ConfigFile.orElse ConfigFile.categories
         Categorize.categories matchByLabels map];
    repeat match goal with
           | |- context [Categorize.norm toLowerCase ?s] =>
               rewrite (F s) by (vm_compute; tauto)
           end;
    vm_compute; reflexivity.
Qed.

Lemma default_alias_selects_category_witness :
  category
    (categorize lowerASCII (lit "chore: tidy the build") [lit " Bug "]
       (ConfigFile.forCategorize
          (ConfigFile.applyDefaults ConfigFile.emptyPartial)))
  = lit "Fixes".
Proof.
  apply (@default_alias_selects_category lowerASCII
           (lit "chore: tidy the build") (lit " Bug ") (lit "Fixes")
           (lit "bug")
           [lit "fix"; lit "bug"; lit "bugfix"; lit "hotfix"]).
  - vm_compute. reflexivity.
  - vm_compute. tauto.
  - vm_compute. tauto.
  - vm_compute. reflexivity.
Defined.

(* ================================================================== *)
(** * Labels named like inherited members *)
(* ================================================================== *)

Lemma existsb_skip (A : Type) (f : A -> bool) (a b : list A) (x : A) :
  f x = false -> existsb f (a ++ x :: b) = existsb f (a ++ b).
Proof.
  intros F. rewrite !existsb_app. cbn [existsb]. now rewrite F.
Qed.

Lemma matchByLabels_skip (lower : str -> str) (a b : list LabelValue)
  (k : str) (cats : list (str * list str)) :
  matchByLabels lower (a ++ LInherited k :: b) cats
  = matchByLabels lower (a ++ b) cats.
Proof.
  induction cats as [|[c al] r IH]; [reflexivity|].
  cbn [matchByLabels]. rewrite IH.
  rewrite !(@existsb_skip _ _ a b (LInherited k)); [reflexivity| |].
  - unfold includesStr. now induction (map (Categorize.norm lower) al).
  - reflexivity.
Qed.

Lemma categorize_labels (lower : str -> str) (title : str)
  (l1 l2 : list str) (cfg : Categorize.Config) :
  (forall breaks,
      breakingLabelPresent lower breaks l1
      = breakingLabelPresent lower breaks l2) ->
  (forall cats,
      matchByLabels lower (map (normalizeLabel lower) l1) cats
      = matchByLabels lower (map (normalizeLabel lower) l2) cats) ->
  categorize lower title l1 cfg = categorize lower title l2 cfg.
Proof.
  intros B M. unfold categorize. cbv zeta. rewrite M.
  destruct (Categorize.breakingLabels cfg) as [[|b bs]|]; try reflexivity.
  now rewrite B.
Qed.

(** X8.  A label that is, up to letter case and surrounding white space,
    the name of a member every object literal inherits ([constructor],
    [__proto__], ...) finds that member in the alias table instead of a
    string.  Such a label is ignored: the classification is the one the
    other labels give, even when the configuration lists the name as an
    alias or as a breaking label. *)
Theorem inherited_label_ignored (toLowerCase : str -> str)
  (title label : str) (before after : list str) (cfg : Categorize.Config) :
  existsb (eqb (Categorize.norm toLowerCase label)) OBJECT_PROTOTYPE_KEYS
  = true ->
  categorize toLowerCase title (before ++ label :: after) cfg
  = categorize toLowerCase title (before ++ after) cfg.
Proof.
  intros K.
  assert (N : normalizeLabel toLowerCase label
              = LInherited (Categorize.norm toLowerCase label)).
  { unfold normalizeLabel. cbv zeta.
    apply existsb_exists in K. destruct K as [k [I E]].
    destruct (eqb_spec (Categorize.norm toLowerCase label) k) as [->|];
      [clear E|discriminate].
    vm_compute in I.
    repeat (destruct I as [I|I]; [rewrite <- I; vm_compute; reflexivity|]).
    destruct I. }
  apply categorize_labels.
  - intros breaks. unfold breakingLabelPresent. rewrite !existsb_setOf.
    rewrite !map_app. cbn [map]. rewrite N.
    apply existsb_skip. cbn [labelEqb orb].
    unfold includesStr. now induction breaks.
  - intros cats. rewrite !map_app. cbn [map]. rewrite N.
    apply matchByLabels_skip.
Qed.

Lemma inherited_label_ignored_witness :
  let cfg :=
    Categorize.mkConfig
      [(lit "Features", [lit "feat"]); (lit "Core", [lit "constructor"])]
      (Some [lit "constructor"]) in
  categorize lowerASCII (lit "feat: add a parser")
    ([lit "docs"] ++ lit "Constructor" :: [])
    cfg
  = categorize lowerASCII (lit "feat: add a parser") ([lit "docs"] ++ []) cfg.
Proof.
  apply (@inherited_label_ignored lowerASCII (lit "feat: add a parser")
           (lit "Constructor") [lit "docs"] []).
  vm_compute. reflexivity.
Defined.

(* ================================================================== *)
(** * The staging section that is captured *)
(* ================================================================== *)

Lemma slice_of_parts (p : Parts) :
  slice (S (start (captureOf p))) (end_ (captureOf p)) (lines (captureOf p))
  = p_mid p.
Proof.
  unfold slice, captureOf, partsLines. cbn [start end_ lines].
  rewrite skipn_past.
  replace (S (length (p_pre p)) + length (p_mid p) - S (length (p_pre p)))
    with (length (p_mid p)) by lia.
  apply firstn_exact.
Qed.

Lemma rest_of_parts (p : Parts) :
  skipn (end_ (captureOf p)) (lines (captureOf p)) = p_post p.
Proof.
  unfold captureOf, partsLines. cbn [end_ lines].
  replace (p_pre p ++ p_header p :: p_mid p ++ p_post p)
    with ((p_pre p ++ p_header p :: p_mid p) ++ p_post p)
    by (now rewrite <- app_assoc).
  replace (S (length (p_pre p)) + length (p_mid p))
    with (length (p_pre p ++ p_header p :: p_mid p))
    by (rewrite length_app; cbn; lia).
  apply skipn_exact.
Qed.

(** X9.  What [captureUnreleased] returns.  When no line of the text is a
    staging header it finds nothing.  Otherwise [start] is the index of
    the first staging header line and [header] is that line; [end] lies
    after [start] and within the lines; the body is the lines strictly
    between them, none of which is a [##] heading; and [end] is the index
    of a [##] heading or the number of lines. *)
Theorem captureUnreleased_bounds (text : str) :
  match captureUnreleased text with
  | None =>
      forallb (fun l => negb (UNRELEASED_HEADER_RE_test l)) (splitLines text)
      = true
  | Some cap =>
      lines cap = splitLines text
      /\ start cap < end_ cap <= length (lines cap)
      /\ header cap = nth (start cap) (lines cap) []
      /\ UNRELEASED_HEADER_RE_test (header cap) = true
      /\ forallb (fun l => negb (UNRELEASED_HEADER_RE_test l))
           (firstn (start cap) (lines cap)) = true
      /\ body cap = joinLF (slice (S (start cap)) (end_ cap) (lines cap))
      /\ forallb (fun l => negb (sectionHeadingAt l))
           (slice (S (start cap)) (end_ cap) (lines cap)) = true
      /\ headIsSection (skipn (end_ cap) (lines cap)) = true
  end.
Proof.
  destruct (captureUnreleased text) as [cap|] eqn:C.
  - destruct (parts_of_capture _ C) as (p & E & (N & H & M & P) & ->).
    rewrite slice_of_parts, rest_of_parts.
    unfold captureOf, partsLines. cbn [lines start end_ header body].
    rewrite firstn_exact, nth_past.
    split; [now rewrite E|].
    split; [rewrite length_app; cbn [length]; rewrite length_app; lia|].
    now repeat split.
  - unfold captureUnreleased in C. cbv zeta in C.
    destruct (findIndex UNRELEASED_HEADER_RE_test (splitLines text)) eqn:F;
      [discriminate|].
    now apply findIndex_None.
Qed.

(* ================================================================== *)
(** * The bullet of an entry *)
(* ================================================================== *)

Lemma trimEnd_keep (a s : str) :
  s <> [] -> trimEnd s = s -> trimEnd (a ++ s) = a ++ s.
Proof.
  intros NE T. induction a as [|c a IH]; [exact T|].
  cbn [app trimEnd]. rewrite IH.
  destruct (a ++ s) eqn:E; [|reflexivity].
  destruct a; [cbn in E; congruence|discriminate].
Qed.

Lemma trimStart_head (ty : str) (sc : option str) (bang : bool) (r : str) :
  wellFormedHead ty sc = true ->
  trimStart (headOfTitle ty sc bang ++ r) = headOfTitle ty sc bang ++ r.
Proof.
  unfold wellFormedHead. intros W.
  apply andb_true_iff in W. destruct W as [W _].
  apply andb_true_iff in W. destruct W as [NE W].
  destruct ty as [|c ty]; [discriminate|].
  cbn in W. apply andb_true_iff in W. destruct W as [Wc _].
  unfold headOfTitle. cbn [app trimStart].
  now rewrite (wordChar_not_ws _ Wc).
Qed.

(** X10.  The bullet of a title in the commit grammar shows the subject
    alone.  For a title made of a well-formed head [type(scope)!:], any
    white space, and a subject of one line that neither starts nor ends
    with white space, with any white space around the whole,
    [normalizeTitleForBullet] returns the subject, and the bullet is
    [- ], the scope in brackets when one is given, the subject, and the
    pull request number in [(#...)]. *)
Theorem bullet_shows_subject (ty : str) (sc : option str) (bang : bool)
  (lead gap subject trail : str) (prNumber : N) (scope : option str) :
  wellFormedHead ty sc = true ->
  forallb isWhiteSpace lead = true ->
  forallb isWhiteSpace gap = true ->
  forallb isWhiteSpace trail = true ->
  isEmpty subject = false ->
  Conventional.noLineTerminator subject = true ->
  trimStart subject = subject ->
  trimEnd subject = subject ->
  let title := lead ++ headOfTitle ty sc bang ++ gap ++ subject ++ trail in
  normalizeTitleForBullet title = subject
  /\ formatBullet title prNumber scope
     = lit "- " ++ scopePrefix scope ++ subject
       ++ lit " (#" ++ ofNumber prNumber ++ lit ")".
Proof.
  intros W Ll Lg Lt NE NL TS TE. cbv zeta.
  assert (S0 : subject <> []) by (destruct subject; [discriminate|congruence]).
  assert (N : normalizeTitleForBullet
                (lead ++ headOfTitle ty sc bang ++ gap ++ subject ++ trail)
              = subject).
  { unfold normalizeTitleForBullet, trim.
    rewrite trimStart_ws_app by (now apply trimStart_all_ws).
    rewrite trimStart_head by exact W.
    replace (headOfTitle ty sc bang ++ gap ++ subject ++ trail)
      with ((headOfTitle ty sc bang ++ gap ++ subject) ++ trail)
      by (now rewrite <- !app_assoc).
    rewrite trimEnd_app_ws by exact Lt.
    replace (headOfTitle ty sc bang ++ gap ++ subject)
      with ((headOfTitle ty sc bang ++ gap) ++ subject)
      by (now rewrite <- !app_assoc).
    rewrite trimEnd_keep by assumption. rewrite <- app_assoc.
    rewrite exec_head by exact W. unfold Conventional.subjectOf.
    rewrite trimStart_ws_app by (now apply trimStart_all_ws). rewrite TS.
    destruct subject as [|c t]; [discriminate|]. now rewrite NL. }
  split; [exact N|]. unfold formatBullet. now rewrite N.
Qed.

Lemma bullet_shows_subject_witness :
  formatBullet (lit " fix(quiz)!:   clamp invalid question number ") 55
    (Some (lit "quiz"))
  = lit "- [quiz] clamp invalid question number (#55)".
Proof.
  apply (@bullet_shows_subject (lit "fix") (Some (lit "quiz")) true
           (lit " ") (lit "   ") (lit "clamp invalid question number")
           (lit " ") 55 (Some (lit "quiz")));
    vm_compute; reflexivity.
Defined.

(* ================================================================== *)
(** * The first entry of a repository without a changelog *)
(* ================================================================== *)

Lemma noLF_app (a b : str) : noLF (a ++ b) = noLF a && noLF b.
Proof. unfold noLF. apply forallb_app. Qed.

Lemma formatBullet_end (title : str) (prNumber : N) (scope : option str) :
  exists x, formatBullet title prNumber scope = x ++ [41%N].
Proof.
  unfold formatBullet.
  exists (lit "- " ++ scopePrefix scope ++ normalizeTitleForBullet title
          ++ lit " (#" ++ ofNumber prNumber).
  rewrite <- !app_assoc. reflexivity.
Qed.

(** X11.  When the repository has no changelog, [addUnreleasedEntry]
    starts from [HEADER], and the text it writes is the title and the
    introduction, the staging header, the heading of the entry's category
    and the bullet, in this order and with nothing else.  The category
    and the bullet are single lines. *)
Theorem first_entry_without_changelog (toLowerCase : str -> str)
  (e : Entry) :
  eqb (toLowerCase []) (toLowerCase (trim (catHeader (Changelog.category e)))) = false ->
  noLF (Changelog.category e) = true ->
  noLF (formatBullet (title e) (prNumber e) (Changelog.scope e)) = true ->
  addEntryText toLowerCase HEADER e
  = lit "# Changelog\nAll notable changes to this project will be documented in this file.\n\n## [Unreleased]\n"
    ++ catHeader (Changelog.category e) ++ LF
       :: formatBullet (title e) (prNumber e) (Changelog.scope e)
    ++ lit "\n\n".
Proof.
  intros H Lc Lb.
  unfold addEntryText, replaceUnreleasedSection. cbv zeta.
  assert (E : ensureHeaderAndUnreleased HEADER = HEADER)
    by (vm_compute; reflexivity).
  rewrite !E.
  destruct (captureUnreleased HEADER) as [cap|] eqn:C;
    vm_compute in C; [|discriminate].
  injection C as <-. cbn [body start end_ lines]. cbv beta.
  repeat match goal with
         | |- context [joinLF (slice 0 4 ?l)] =>
             let v := eval vm_compute in (joinLF (slice 0 4 l)) in
             change (joinLF (slice 0 4 l)) with v
         | |- context [joinLF (skipn 6 ?l)] =>
             let v := eval vm_compute in (joinLF (skipn 6 l)) in
             change (joinLF (skipn 6 l)) with v
         end.
  set (cat := Changelog.category e) in *.
  set (b := formatBullet (title e) (prNumber e) (Changelog.scope e)) in *.
  match goal with
  | |- context [trimEnd ?t] =>
      assert (I : t = (catHeader cat ++ LF :: b) ++ [LF; LF])
  end.
  { unfold insertIntoUnreleasedCategory. cbv zeta.
    change (splitLF [10%N]) with [@nil char; @nil char].
    cbn [findIndex]. unfold isCategoryHeader.
    change (trim []) with (@nil char). rewrite H. cbn [option_map].
    change (trimEnd [10%N]) with (@nil char).
    cbn [isEmpty length sliceFrom skipn app].
    eval_lits. rewrite <- !app_assoc. reflexivity. }
  rewrite I. clear I.
  destruct (formatBullet_end (title e) (prNumber e) (Changelog.scope e))
    as [x X]. fold b in X.
  assert (T : trimEnd ((catHeader cat ++ LF :: b) ++ [LF; LF])
              = catHeader cat ++ LF :: b).
  { rewrite trimEnd_app_ws by reflexivity. rewrite X.
    replace (catHeader cat ++ LF :: x ++ [41%N])
      with ((catHeader cat ++ LF :: x) ++ [41%N])
      by (now rewrite <- app_assoc).
    now apply trimEnd_snoc. }
  rewrite T. clear T.
  assert (Nb : b <> []) by (rewrite X; now destruct x).
  assert (Nh : noLF (catHeader cat) = true).
  { unfold catHeader. rewrite noLF_app, Lc. reflexivity. }
  assert (Hh : catHeader cat <> []) by (unfold catHeader; discriminate).
  cbn [joinLF]. unfold collapseNewlines.
  match goal with
  | |- collapseFrom 0 (?P ++ LF :: (?h ++ LF :: b) ++ ?r) = _ =>
      replace (P ++ LF :: (h ++ LF :: b) ++ r)
        with ((P ++ [LF]) ++ h ++ ([LF] ++ b ++ r))
        by (now rewrite <- !app_assoc);
      rewrite (@collapse_around (P ++ [LF]) h ([LF] ++ b ++ r) 0 Nh Hh);
      rewrite (@collapse_around [LF] b r 0 Lb Nb)
  end.
  repeat match goal with
         | |- context [collapseFrom 0 ?x] =>
             let v := eval vm_compute in (collapseFrom 0 x) in
             replace (collapseFrom 0 x) with v by (vm_compute; reflexivity)
         end.
  eval_lits. rewrite <- ?app_assoc. cbn [app]. reflexivity.
Qed.

Lemma first_entry_without_changelog_witness :
  addEntryText lowerASCII HEADER
    (mkEntry 55 (lit "fix(quiz): clamp invalid question number")
       (lit "Fixes") (Some (lit "quiz")))
  = lit "# Changelog\nAll notable changes to this project will be documented in this file.\n\n## [Unreleased]\n### Fixes\n- [quiz] clamp invalid question number (#55)\n\n".
Proof.
  apply (@first_entry_without_changelog lowerASCII
           (mkEntry 55 (lit "fix(quiz): clamp invalid question number")
              (lit "Fixes") (Some (lit "quiz"))));
    vm_compute; reflexivity.
Defined.

(* ================================================================== *)
(** * A release after a release *)
(* ================================================================== *)

(** The staging section of the text a cutover writes is empty. *)
Lemma cutover_empties_staging (content version dateStr : str) (c : Cutover) :
  Conventional.noLineTerminator version = true ->
  Conventional.noLineTerminator dateStr = true ->
  cutover content version dateStr = Some c ->
  exists cap', captureUnreleased (next c) = Some cap' /\ body cap' = [].
Proof.
  intros V D EC.
  destruct (captureUnreleased content) as [cap|] eqn:C.
  2:{ unfold cutover in EC. now rewrite C in EC. }
  destruct (isEmpty (trim (body cap))) eqn:B.
  { unfold cutover in EC. now rewrite C, B in EC. }
  destruct (@parts_of_capture _ _ C) as (p & E & (N & H & M & Ps) & ->).
  destruct (@versionLine_single _ _ V D) as (VL & VC & VS & VN & VH).
  pose proof (splitLines_noLF content) as NL. rewrite E in NL.
  unfold partsLines in NL. rewrite forallb_app in NL. cbn [forallb] in NL.
  apply andb_true_iff in NL. destruct NL as [Lp NL].
  apply andb_true_iff in NL. destruct NL as [Lh _].
  pose proof (@unreleased_test_nonempty _ H) as NE.
  destruct (@trim_nonempty_LF (body (captureOf p)) 0 B) as (c0 & cl & Ecl & C0).
  set (afterT := joinLF (p_post p)).
  set (X := LF :: LF :: versionLine version dateStr
               ++ LF :: (c0 :: cl) ++ LF :: LF :: afterT).
  assert (J : joinLF
                [joinLF (slice 0 (S (start (captureOf p))) (lines (captureOf p)));
                 [];
                 versionHeader version dateStr
                 ++ trimEnd (trim (body (captureOf p))) ++ lit "\n";
                 joinLF (skipn (end_ (captureOf p)) (lines (captureOf p)))]
              = joinLF (p_pre p ++ [p_header p]) ++ X).
  { rewrite before_of_parts, after_of_parts, VH, Ecl. subst X afterT.
    eval_lits. cbn [joinLF app]. rewrite <- !app_assoc. cbn [app].
    rewrite <- !app_assoc. reflexivity. }
  destruct (@collapse_before (p_pre p) _ X Lp Lh NE) as (P & EP & HP).
  set (Q := collapseFrom 1 ((c0 :: cl) ++ LF :: LF :: afterT)).
  assert (EX : collapseFrom 0 X
               = LF :: LF :: versionLine version dateStr ++ LF :: Q).
  { pose proof (@collapse_around [] (versionLine version dateStr)
                  (LF :: (c0 :: cl) ++ LF :: LF :: afterT) 2 VL VN) as K.
    cbn [app collapseFrom] in K. change (LF =? LF)%N with true in K.
    cbn [Nat.ltb Nat.leb] in K.
    subst X Q. cbn [app collapseFrom]. change (LF =? LF)%N with true.
    cbn [Nat.ltb Nat.leb]. now rewrite K. }
  set (nextT := P ++ p_header p ++ LF :: LF
                  :: versionLine version dateStr ++ LF :: Q).
  assert (EN : next c = nextT).
  { unfold cutover in EC. rewrite C, B in EC. cbv zeta in EC.
    rewrite J, EP, EX in EC. injection EC as <-. reflexivity. }
  set (pre' := match P with
               | [] => []
               | _ => map chompCR (splitLF (removelast P))
               end).
  set (p' := mkParts pre' (chompCR (p_header p)) [[]]
               (versionLine version dateStr :: splitLines Q)).
  assert (EL : splitLines nextT = partsLines p').
  { assert (T : splitLines (p_header p ++ LF :: LF
                              :: versionLine version dateStr ++ LF :: Q)
                = chompCR (p_header p) :: []
                  :: versionLine version dateStr :: splitLines Q).
    { rewrite (@splitLines_line _ _ Lh).
      change (LF :: versionLine version dateStr ++ LF :: Q)
        with ([] ++ LF :: versionLine version dateStr ++ LF :: Q).
      rewrite (@splitLines_line [] _ eq_refl).
      now rewrite (@splitLines_line _ _ VL), VC. }
    subst nextT p' pre'. unfold partsLines. cbn [p_pre p_header p_mid p_post].
    destruct HP as [->|(P' & -> & _)].
    - cbn [app]. exact T.
    - rewrite removelast_last.
      destruct (P' ++ [LF]) eqn:EP'; [now destruct P'|]. rewrite <- EP'.
      rewrite <- app_assoc. cbn [app].
      rewrite splitLines_app_LF. now rewrite T. }
  assert (OK : partsOk p').
  { subst p' pre'. unfold partsOk. cbn [p_pre p_header p_mid p_post].
    split; [|split; [|split]].
    - destruct HP as [->|(P' & -> & HP')]; [reflexivity|].
      rewrite removelast_last.
      destruct (P' ++ [LF]) eqn:EP'; [now destruct P'|].
      apply in_map_chompCR_test. intros ln Hl.
      destruct (HP' ln Hl) as [->|Hl']; [reflexivity|].
      now apply (@forallb_negb_In _ _ _ ln N).
    - now rewrite unreleased_test_chompCR.
    - reflexivity.
    - exact VS. }
  exists (captureOf p'). rewrite EN.
  split; [exact (@capture_of_parts _ _ EL OK)|reflexivity].
Qed.

Lemma cutover_None (content version dateStr version' dateStr' : str) :
  cutover content version dateStr = None ->
  cutover content version' dateStr' = None.
Proof.
  unfold cutover. destruct (captureUnreleased content) as [cap|];
    [|reflexivity].
  now destruct (isEmpty (trim (body cap))).
Qed.

Lemma lit_plain (a : ascii) (r : string) :
  Ascii.eqb a "\"%char = false -> lit (String a r) = N_of_ascii a :: lit r.
Proof. intros A. cbn [lit]. rewrite A. now destruct r. Qed.

Lemma ofNumber_single (n : N) :
  Conventional.noLineTerminator (ofNumber n) = true.
Proof.
  unfold ofNumber. induction (N.to_uint n) as [|u IH|u IH|u IH|u IH|u IH
                                               |u IH|u IH|u IH|u IH|u IH];
    [reflexivity|..];
    cbn [NilEmpty.string_of_uint]; rewrite lit_plain by reflexivity;
    unfold Conventional.noLineTerminator in *; cbn [forallb];
    now rewrite IH.
Qed.

Lemma noLineTerminator_app (a b : str) :
  Conventional.noLineTerminator (a ++ b)
  = Conventional.noLineTerminator a && Conventional.noLineTerminator b.
Proof. unfold Conventional.noLineTerminator. apply forallb_app. Qed.

Lemma pad2_single (n : N) : Conventional.noLineTerminator (pad2 n) = true.
Proof.
  unfold pad2. pose proof (ofNumber_single n) as H.
  destruct (ofNumber n) as [|d [|e s]]; exact H.
Qed.

Lemma dateStrOf_single (fullYear month date : N) :
  Conventional.noLineTerminator (dateStrOf fullYear month date) = true.
Proof.
  unfold dateStrOf.
  now rewrite !noLineTerminator_app, ofNumber_single, !pad2_single.
Qed.

(** X12.  A release that follows a release moves nothing.  Once
    [releaseUnreleased] has run for a tag whose version is a single line,
    the staging section is empty, and a further run, for any tag and on
    any day, leaves the changelog and the release body as they are: no
    empty version section is ever written. *)
Theorem release_twice (ev ev' : ReleaseEvent)
  (fullYear month date fullYear' month' date' : N) (r : Remote) :
  Conventional.noLineTerminator (versionOfTag (tag_name ev)) = true ->
  releaseUnreleased ev' fullYear' month' date'
    (releaseUnreleased ev fullYear month date r)
  = releaseUnreleased ev fullYear month date r.
Proof.
  intros V. pose proof (dateStrOf_single fullYear month date) as D.
  destruct (changelogFile r) as [content|] eqn:F.
  2:{ assert (R : forall e y m d, releaseUnreleased e y m d r = r)
        by (intros; unfold releaseUnreleased; now rewrite F).
      now rewrite !R. }
  destruct (cutover content (versionOfTag (tag_name ev))
              (dateStrOf fullYear month date)) as [c|] eqn:C.
  - destruct (cutover_empties_staging _ _ _ V D C) as (cap' & C' & B').
    remember (releaseUnreleased ev fullYear month date r) as r1 eqn:R1.
    assert (F1 : changelogFile r1 = Some (next c)).
    { subst r1. unfold releaseUnreleased. now rewrite F, C. }
    assert (N : cutover (next c) (versionOfTag (tag_name ev'))
                  (dateStrOf fullYear' month' date') = None).
    { unfold cutover. now rewrite C', B'. }
    unfold releaseUnreleased. now rewrite F1, N.
  - assert (R : releaseUnreleased ev fullYear month date r = r).
    { unfold releaseUnreleased. now rewrite F, C. }
    rewrite R. unfold releaseUnreleased. rewrite F.
    now rewrite (cutover_None _ _ _ _ _ C).
Qed.

Lemma release_twice_witness :
  let r :=
    mkRemote
      (Some (lit "# Changelog\n\n## [Unreleased]\n### Fixes\n- a (#1)\n"))
      (lit "notes") in
  let ev := mkReleaseEvent (Some (lit "v0.1.0")) (Some 7%N) in
  let ev' := mkReleaseEvent (Some (lit "v0.2.0")) (Some 8%N) in
  releaseBody (releaseUnreleased ev 2024 0 1 r) = lit "### Fixes\n- a (#1)\n"
  /\ releaseUnreleased ev' 2024 1 2 (releaseUnreleased ev 2024 0 1 r)
     = releaseUnreleased ev 2024 0 1 r.
Proof.
  split; [vm_compute; reflexivity|].
  apply (@release_twice
           (mkReleaseEvent (Some (lit "v0.1.0")) (Some 7%N))
           (mkReleaseEvent (Some (lit "v0.2.0")) (Some 8%N))
           2024 0 1 2024 1 2
           (mkRemote
              (Some (lit "# Changelog\n\n## [Unreleased]\n### Fixes\n- a (#1)\n"))
              (lit "notes"))).
  vm_compute. reflexivity.
Defined.

(* ================================================================== *)
(** * A category that is created, then used *)
(* ================================================================== *)

Lemma trim_app_ws (l x : str) :
  forallb isWhiteSpace x = true -> trim (l ++ x) = trim l.
Proof.
  intros X. unfold trim. destruct (trimStart l) as [|c r] eqn:T.
  - rewrite trimStart_ws_app by exact T.
    now rewrite (trimStart_all_ws _ X).
  - rewrite trimStart_app by (rewrite T; discriminate).
    rewrite T. now apply trimEnd_app_ws.
Qed.

Lemma all_ws_blank (ls : list str) :
  forallb (forallb isWhiteSpace) ls = true -> forallb isBlank ls = true.
Proof.
  induction ls as [|l ls IH]; [reflexivity|]. cbn [forallb]. intros A.
  apply andb_true_iff in A. destruct A as [A1 A2].
  rewrite (IH A2), andb_true_r. unfold isBlank, trim.
  now rewrite (trimStart_all_ws _ A1).
Qed.

Section NewCategory.

Variable toLowerCase : str -> str.

(** What [insertIntoUnreleasedCategory] returns when no line is the
    isCategoryHeader toLowerCase (catHeader of) the category. *)
Lemma insert_new_category (body category bullet : str) :
  findIndex (isCategoryHeader toLowerCase (catHeader category)) (splitLF body) = None ->
  exists w,
    body = trimEnd body ++ w /\ forallb isWhiteSpace w = true
    /\ insertIntoUnreleasedCategory toLowerCase body category bullet
       = (if isEmpty (trimEnd body) then [] else trimEnd body ++ [LF; LF])
         ++ catHeader category ++ LF :: bullet ++ LF :: w.
Proof.
  intros F. destruct (trimEnd_split body) as (w & E & W).
  exists w. split; [exact E|]. split; [exact W|].
  unfold insertIntoUnreleasedCategory. cbv zeta.
  rewrite F.
  assert (S : sliceFrom (length (trimEnd body)) body = w).
  { unfold sliceFrom. rewrite E at 2. apply skipn_exact. }
  rewrite S. eval_lits.
  destruct (isEmpty (trimEnd body)); cbn [app];
    repeat (rewrite <- app_assoc; cbn [app]); reflexivity.
Qed.

Lemma lines_of_trimmed (body : str) (P : str -> bool) :
  (forall l x, forallb isWhiteSpace x = true -> P (l ++ x) = P l) ->
  forallb (fun l => negb (P l)) (splitLF body) = true ->
  forallb (fun l => negb (P l)) (splitLF (trimEnd body)) = true.
Proof.
  intros Pw H. destruct (trimEnd_split body) as (w & E & W).
  destruct (splitLF_app_ex (trimEnd body)) as (I & L & EI & HI).
  rewrite E, HI in H. rewrite EI.
  rewrite forallb_app in *. cbn [forallb] in *.
  apply andb_true_iff in H. destruct H as [H1 H2].
  apply andb_true_iff in H2. destruct H2 as [H2 _].
  rewrite H1. cbn [andb]. rewrite andb_true_r.
  rewrite Pw in H2; [exact H2|].
  pose proof (splitLF_all_ws _ W) as A.
  rewrite (splitLF_hd_tl w) in A. cbn [forallb] in A.
  now apply andb_true_iff in A.
Qed.

Lemma heading_app_ws (category l x : str) :
  forallb isWhiteSpace x = true ->
  isCategoryHeader toLowerCase (catHeader category) (l ++ x) = isCategoryHeader toLowerCase (catHeader category) l.
Proof.
  intros X. unfold isCategoryHeader. now rewrite trim_app_ws.
Qed.

Lemma heading_same (c1 c2 l : str) :
  isCategoryHeader toLowerCase (catHeader c2) (catHeader c1) = true -> isCategoryHeader toLowerCase (catHeader c2) l = isCategoryHeader toLowerCase (catHeader c1) l.
Proof.
  unfold isCategoryHeader. intros H.
  destruct (eqb_spec (toLowerCase (trim (catHeader c1)))
              (toLowerCase (trim (catHeader c2)))) as [E|]; [|discriminate].
  now rewrite E.
Qed.

Lemma new_category_lines (body category bullet : str) :
  findIndex (isCategoryHeader toLowerCase (catHeader category)) (splitLF body) = None ->
  isCategoryHeader toLowerCase (catHeader category) [] = false ->
  noLF category = true -> noLF bullet = true ->
  exists pre post,
    splitLF (insertIntoUnreleasedCategory toLowerCase body category bullet)
    = pre ++ catHeader category :: bullet :: post
    /\ forallb (fun l => negb (isCategoryHeader toLowerCase (catHeader category) l)) pre = true
    /\ forallb isBlank post = true.
Proof.
  intros F H0 Lc Lb.
  destruct (insert_new_category body category bullet F) as (w & E & W & ->).
  assert (Lh : noLF (catHeader category) = true).
  { unfold catHeader. now rewrite noLF_app, Lc. }
  assert (T : splitLF (catHeader category ++ LF :: bullet ++ LF :: w)
              = catHeader category :: bullet :: splitLF w).
  { rewrite (@splitLF_app_noLF (catHeader category) _ _ Lh eq_refl).
    now rewrite (@splitLF_app_noLF bullet _ _ Lb eq_refl). }
  assert (Bw : forallb isBlank (splitLF w) = true)
    by (apply all_ws_blank; now apply splitLF_all_ws).
  destruct (isEmpty (trimEnd body)) eqn:TE.
  - exists [], (splitLF w). cbn [app]. now rewrite T.
  - exists (splitLF (trimEnd body) ++ [[]]), (splitLF w).
    rewrite <- !app_assoc. cbn [app].
    rewrite splitLF_app_LF.
    change (LF :: catHeader category ++ LF :: bullet ++ LF :: w)
      with ([] ++ LF :: catHeader category ++ LF :: bullet ++ LF :: w).
    rewrite splitLF_app_LF, T. cbn [splitLF app].
    split; [reflexivity|]. split; [|exact Bw].
    rewrite forallb_app. cbn [forallb]. rewrite H0. cbn [negb andb].
    rewrite andb_true_r.
    apply lines_of_trimmed.
    + intros l x X. now apply heading_app_ws.
    + now apply findIndex_None.
Qed.

End NewCategory.

(** X13.  A category that an entry creates is the one a later entry of
    the same category goes under.  When no line of the staging body is
    the heading of the category, the first insertion writes the heading
    and the bullet after everything else in the body; a second insertion
    under a category with the same heading (up to letter case and
    surrounding white space) finds that heading and puts its bullet
    directly above the first: no second heading is written. *)
Theorem new_category_then_same (toLowerCase : str -> str)
  (body category category2 b1 b2 : str) :
  findIndex (isCategoryHeader toLowerCase (catHeader category)) (splitLF body)
  = None ->
  isCategoryHeader toLowerCase (catHeader category) [] = false ->
  isCategoryHeader toLowerCase (catHeader category2) (catHeader category)
  = true ->
  noLF category = true -> noLF b1 = true -> isBlank b1 = false ->
  exists pre post,
    insertIntoUnreleasedCategory toLowerCase body category b1
    = joinLF (pre ++ catHeader category :: b1 :: post)
    /\ forallb
         (fun l => negb (isCategoryHeader toLowerCase (catHeader category) l))
         pre = true
    /\ forallb isBlank post = true
    /\ insertIntoUnreleasedCategory toLowerCase
         (insertIntoUnreleasedCategory toLowerCase body category b1)
         category2 b2
       = joinLF (pre ++ catHeader category :: b2 :: b1 :: post
                 ++ finalEmpty (pre ++ catHeader category :: b1 :: post)).
Proof.
  intros F H0 H2 Lc L1 NB.
  pose proof (fun l => heading_same toLowerCase category category2 l H2) as HS.
  destruct (new_category_lines toLowerCase body category b1 F H0 Lc L1)
    as (pre & post & E & Np & Bp).
  exists pre, post.
  split; [now rewrite <- E, joinLF_splitLF|].
  split; [exact Np|]. split; [exact Bp|].
  rewrite (insert_decomposed toLowerCase _ category2 b2 pre
             (catHeader category) [] (b1 :: post)).
  - cbn [app].
    replace (finalEmpty (pre ++ catHeader category :: b2 :: b1 :: post))
      with (finalEmpty (pre ++ catHeader category :: b1 :: post)).
    + now rewrite <- !app_assoc.
    + unfold finalEmpty.
      replace (pre ++ catHeader category :: b2 :: b1 :: post)
        with ((pre ++ [catHeader category; b2]) ++ b1 :: post)
        by (now rewrite <- app_assoc).
      replace (pre ++ catHeader category :: b1 :: post)
        with ((pre ++ [catHeader category]) ++ b1 :: post)
        by (now rewrite <- app_assoc).
      now rewrite !needsFinalEmpty_app by discriminate.
  - exact E.
  - rewrite <- Np. clear - HS. induction pre as [|l pre IH]; [reflexivity|].
    cbn [forallb]. rewrite IH. f_equal. f_equal. apply HS.
  - exact H2.
  - reflexivity.
  - cbn [headNotBlank]. now rewrite NB.
Qed.

Lemma new_category_then_same_witness :
  let body := lit "### Features\n- a (#1)\n" in
  let b1 := lit "- x (#2)" in
  let b2 := lit "- y (#3)" in
  exists pre post,
    insertIntoUnreleasedCategory lowerASCII body (lit "Fixes") b1
    = joinLF (pre ++ catHeader (lit "Fixes") :: b1 :: post)
    /\ forallb
         (fun l =>
            negb (isCategoryHeader lowerASCII (catHeader (lit "Fixes")) l))
         pre = true
    /\ forallb isBlank post = true
    /\ insertIntoUnreleasedCategory lowerASCII
         (insertIntoUnreleasedCategory lowerASCII body (lit "Fixes") b1)
         (lit "fixes") b2
       = joinLF (pre ++ catHeader (lit "Fixes") :: b2 :: b1 :: post
                 ++ finalEmpty (pre ++ catHeader (lit "Fixes") :: b1 :: post)).
Proof.
  apply (@new_category_then_same lowerASCII
           (lit "### Features\n- a (#1)\n") (lit "Fixes") (lit "fixes")
           (lit "- x (#2)") (lit "- y (#3)"));
    vm_compute; reflexivity.
Defined.

Example new_category_then_same_run :
  insertIntoUnreleasedCategory lowerASCII
    (insertIntoUnreleasedCategory lowerASCII
       (lit "### Features\n- a (#1)\n") (lit "Fixes") (lit "- x (#2)"))
    (lit "fixes") (lit "- y (#3)")
  = lit "### Features\n- a (#1)\n\n### Fixes\n- y (#3)\n- x (#2)\n\n".
Proof. vm_compute. reflexivity. Qed.
Import RegExp RegExpSpec.

(* ================================================================== *)
(** * The matcher *)
(* ================================================================== *)

Section MatcherFacts.

Variable A : Type.

Lemma isSome_orElse (x y : option A) :
  AsWritten.isSome (orElse x y) = AsWritten.isSome x || AsWritten.isSome y.
Proof. destruct x; reflexivity. Qed.

Lemma rep_decides (P : char -> bool) (k : state -> option A) (kf : str -> bool) :
  decides k kf ->
  forall s min p cs, AsWritten.isSome (rep min P p s cs k) = repB min P kf s.
Proof.
  intros D. induction s as [|c r IH]; intros min p cs; cbn [rep repB].
  - destruct (min =? 0)%nat; [apply D|reflexivity].
  - destruct (P c); cbn [andb orb].
    + rewrite isSome_orElse, IH. destruct (min =? 0)%nat; cbn [andb].
      * now rewrite D.
      * reflexivity.
    + destruct (min =? 0)%nat; [apply D|reflexivity].
Qed.

Lemma run_decides (fl : flags) (r : re) :
  noBol r = true ->
  forall (k : state -> option A) (kf : str -> bool),
    decides k kf ->
    decides (fun st => run fl r st k) (accepts fl r kf).
Proof.
  induction r as [|c| | |a IHa b IHb|a IHa|min P|i a IHa];
    intros NB k kf D p s cs; cbn [run accepts rest prev caps].
  - apply D.
  - destruct s as [|x s']; [reflexivity|].
    destruct (chrEq fl c x); [apply D|reflexivity].
  - discriminate.
  - destruct s as [|c s']; [apply D|].
    destruct (multiline fl && isLineTerminator c); [apply D|reflexivity].
  - cbn [noBol] in NB. apply andb_true_iff in NB. destruct NB as [Na Nb].
    apply (IHa Na). apply (IHb Nb). exact D.
  - rewrite isSome_orElse. rewrite (IHa NB k kf D p s cs). now rewrite D.
  - now apply rep_decides.
  - apply (IHa NB). intros p' s' cs'. apply D.
Qed.

End MatcherFacts.

Lemma run_Bol (A : Type) (fl : flags) (r : re) (st : state)
  (k : state -> option A) :
  run fl (Seq Bol r) st k
  = if atLineStart fl (prev st) then run fl r st k else None.
Proof.
  cbn [run]. unfold atLineStart. destruct (prev st) as [c|]; [|reflexivity].
  destruct (multiline fl && isLineTerminator c); reflexivity.
Qed.

Lemma decides_final (i : nat) :
  decides (fun st => Some (mkFound i st)) anything.
Proof. intros p s cs. reflexivity. Qed.

Lemma execFrom_anchored_m (fl : flags) (r : re) :
  noBol r = true -> multiline fl = true ->
  forall s p i,
    AsWritten.isSome (execFrom fl (Seq Bol r) p s i)
    = anyLineStart (accepts fl r anything) (atLineStart fl p) s.
Proof.
  intros NB M. induction s as [|c s IH]; intros p i; cbn [execFrom anyLineStart].
  - rewrite run_Bol. cbn [prev].
    destruct (atLineStart fl p); cbn [andb orb].
    + pose proof (@run_decides _ fl r NB _ _ (decides_final i) p [] []) as D.
      cbn beta in D.
      destruct (run fl r _ _); cbn [AsWritten.isSome] in *; rewrite <- D; reflexivity.
    + reflexivity.
  - rewrite run_Bol. cbn [prev].
    destruct (atLineStart fl p); cbn [andb orb].
    + pose proof (@run_decides _ fl r NB _ _ (decides_final i) p (c :: s) []) as D.
      cbn beta in D.
      destruct (run fl r _ _); cbn [AsWritten.isSome] in *; rewrite <- D; cbn [orb].
      * reflexivity.
      * rewrite IH. cbn [atLineStart]. now rewrite M.
    + rewrite IH. cbn [atLineStart]. now rewrite M.
Qed.

(** An expression that starts with [^], under flag [m]: tried at every
    line start. *)
Lemma test_anchored_m (fl : flags) (r : re) (s : str) :
  noBol r = true -> multiline fl = true ->
  test fl (Seq Bol r) s = anyLineStart (accepts fl r anything) true s.
Proof.
  intros NB M. unfold test, exec.
  exact (@execFrom_anchored_m fl r NB M s None 0).
Qed.

Lemma execFrom_not_start (fl : flags) (r : re) :
  multiline fl = false ->
  forall s c i, execFrom fl (Seq Bol r) (Some c) s i = None.
Proof.
  intros M. induction s as [|x s IH]; intros c i; cbn [execFrom].
  - rewrite run_Bol. cbn [prev atLineStart]. now rewrite M.
  - rewrite run_Bol. cbn [prev atLineStart]. rewrite M. cbn [andb]. apply IH.
Qed.

(** Without flag [m], only at the start of the input. *)
Lemma exec_anchored (fl : flags) (r : re) (s : str) :
  multiline fl = false ->
  exec fl (Seq Bol r) s
  = run fl r (mkState None s []) (fun st => Some (mkFound 0 st)).
Proof.
  intros M. unfold exec. destruct s as [|c s]; cbn [execFrom].
  - rewrite run_Bol. cbn [prev atLineStart].
    destruct (run fl r _ _); reflexivity.
  - rewrite run_Bol. cbn [prev atLineStart].
    destruct (run fl r _ _); [reflexivity|]. now apply execFrom_not_start.
Qed.

Lemma test_anchored (fl : flags) (r : re) (s : str) :
  noBol r = true -> multiline fl = false ->
  test fl (Seq Bol r) s = accepts fl r anything s.
Proof.
  intros NB M. unfold test. rewrite (@exec_anchored fl r s M).
  exact (@run_decides _ fl r NB _ _ (decides_final 0) None s []).
Qed.
Ltac eval_chs :=
  repeat match goal with
         | |- context [ch ?a] =>
             let v := eval vm_compute in (ch a) in
             change (ch a) with v
         end.

(* ================================================================== *)
(** * The expressions of the sources and their recognisers *)
(* ================================================================== *)

Lemma anyLineStart_same (P Q : str -> bool) :
  (forall s, P s = Q s) ->
  forall s b, anyLineStart P b s = anyLineStart Q b s.
Proof.
  intros E. induction s as [|c r IH]; intros b; cbn [anyLineStart].
  - now rewrite E.
  - now rewrite E, IH.
Qed.

Lemma fold_eq_plain (c x : char) :
  isLetter c = false -> (foldASCII c =? foldASCII x)%N = (c =? x)%N.
Proof.
  unfold isLetter, foldASCII. intros L.
  destruct (N.leb_spec 65 c), (N.leb_spec c 90), (N.leb_spec 97 c),
    (N.leb_spec c 122); cbn [andb orb] in L; try discriminate L;
    destruct (N.leb_spec 65 x), (N.leb_spec x 90); cbn [andb];
    repeat match goal with
           | |- context [(?a =? ?b)%N] => destruct (N.eqb_spec a b)
           end; try reflexivity; lia.
Qed.

Lemma chrEq_plain (fl : flags) (c x : char) :
  isLetter c = false -> chrEq fl c x = (c =? x)%N.
Proof.
  intros L. unfold chrEq. destruct (ignoreCase fl); [|reflexivity].
  now apply fold_eq_plain.
Qed.

Lemma ws_fold (c : char) : isWhiteSpace c = true -> foldASCII c = c.
Proof.
  intros W. unfold foldASCII.
  destruct ((65 <=? c) && (c <=? 90))%N eqn:U; [|reflexivity].
  exfalso. unfold isWhiteSpace in W. bool_to_prop; lia.
Qed.

(** No white space matches a character that is none. *)
Lemma chrEq_ws (fl : flags) (c x : char) :
  isWhiteSpace c = false -> isWhiteSpace (foldASCII c) = false ->
  isWhiteSpace x = true -> chrEq fl c x = false.
Proof.
  intros C C' X. unfold chrEq. destruct (ignoreCase fl).
  - rewrite (@ws_fold x X). destruct (N.eqb_spec (foldASCII c) x); [|reflexivity].
    subst. congruence.
  - destruct (N.eqb_spec c x); [|reflexivity]. subst. congruence.
Qed.

Lemma accepts_lits_i (fl : flags) (p : str) (kf : str -> bool) (s : str) :
  ignoreCase fl = true ->
  accepts fl (lits p) kf s
  = match stripPrefixCI p s with Some r => kf r | None => false end.
Proof.
  intros I. revert s. induction p as [|c p IH]; intros s; [reflexivity|].
  destruct p as [|d p].
  - cbn [lits accepts stripPrefixCI]. unfold chrEq. rewrite I.
    destruct s as [|x s]; [reflexivity|].
    destruct (foldASCII c =? foldASCII x)%N; reflexivity.
  - change (lits (c :: d :: p)) with (Seq (Chr c) (lits (d :: p))).
    cbn [accepts]. cbn [stripPrefixCI]. unfold chrEq at 1. rewrite I.
    destruct s as [|x s]; [reflexivity|].
    destruct (foldASCII c =? foldASCII x)%N; [|reflexivity].
    cbn [andb]. rewrite IH. reflexivity.
Qed.

Lemma accepts_lits_plain (fl : flags) (p : str) (kf : str -> bool) (s : str) :
  (forall c, In c p -> isLetter c = false) ->
  accepts fl (lits p) kf s
  = match stripPrefix p s with Some r => kf r | None => false end.
Proof.
  revert s. induction p as [|c p IH]; intros s L; [reflexivity|].
  assert (Lc : isLetter c = false) by (apply L; now left).
  assert (Lp : forall c, In c p -> isLetter c = false)
    by (intros y Hy; apply L; now right).
  destruct p as [|d p].
  - cbn [lits accepts stripPrefix]. destruct s as [|x s]; [reflexivity|].
    rewrite (@chrEq_plain fl c x Lc). destruct (c =? x)%N; reflexivity.
  - change (lits (c :: d :: p)) with (Seq (Chr c) (lits (d :: p))).
    cbn [accepts]. cbn [stripPrefix].
    destruct s as [|x s]; [reflexivity|].
    rewrite (@chrEq_plain fl c x Lc). destruct (c =? x)%N; [|reflexivity].
    cbn [andb]. now rewrite IH.
Qed.

(** White space before something that no white space starts is taken
    whole. *)
Lemma repB_skip (kf : str -> bool) :
  (forall c r, isWhiteSpace c = true -> kf (c :: r) = false) ->
  forall s, repB 0 isWhiteSpace kf s = kf (trimStart s).
Proof.
  intros F. induction s as [|c r IH]; [reflexivity|].
  cbn [repB trimStart pred Nat.eqb andb].
  destruct (isWhiteSpace c) eqn:Pc; cbn [andb orb].
  - rewrite IH, (F c r Pc). apply orb_false_r.
  - reflexivity.
Qed.

Lemma stripPrefixCI_ws (p : str) (c d : char) (r : str) :
  isWhiteSpace c = true -> isWhiteSpace d = false ->
  isWhiteSpace (foldASCII d) = false ->
  stripPrefixCI (d :: p) (c :: r) = None.
Proof.
  intros C D D'. cbn [stripPrefixCI]. rewrite (@ws_fold c C).
  destruct (N.eqb_spec (foldASCII d) c); [|reflexivity]. subst. congruence.
Qed.

(** [/^\#\s*Changelog/im] at one line start *)
Lemma title_accepts (s : str) :
  accepts flags_im
    (seq [Chr (ch "#"); Rep 0 isWhiteSpace; lits (lit "Changelog")])
    anything s
  = titleAt s.
Proof.
  eval_lits. eval_chs. cbn [seq]. cbn [accepts]. unfold titleAt.
  destruct s as [|x s]; [reflexivity|].
  rewrite (@chrEq_plain flags_im 35%N x eq_refl). rewrite N.eqb_sym.
  destruct (x =? 35)%N; [|reflexivity]. cbn [andb].
  rewrite repB_skip.
  - rewrite accepts_lits_i by reflexivity. eval_lits.
    now destruct (stripPrefixCI _ _).
  - intros c r W. rewrite accepts_lits_i by reflexivity.
    now rewrite stripPrefixCI_ws.
Qed.

Lemma title_test_matched (t : str) :
  AsWritten.CHANGELOG_TITLE_RE_test t = CHANGELOG_TITLE_RE_test t.
Proof.
  unfold AsWritten.CHANGELOG_TITLE_RE_test, AsWritten.CHANGELOG_TITLE_RE,
    CHANGELOG_TITLE_RE_test.
  change (seq (Bol :: ?l)) with (Seq Bol (seq l)).
  rewrite test_anchored_m by reflexivity.
  apply anyLineStart_same. exact title_accepts.
Qed.

(** [\s*$] under flag [m] *)
Lemma ws_eol_accepts (s : str) :
  repB 0 isWhiteSpace (accepts flags_im Eol anything) s = wsThenEol s.
Proof.
  induction s as [|c r IH]; [reflexivity|].
  cbn [repB wsThenEol pred Nat.eqb andb]. rewrite IH.
  replace (accepts flags_im Eol anything (c :: r)) with (isLineTerminator c)
    by (cbn; now rewrite andb_true_r).
  apply orb_comm.
Qed.

(** [\s*\]?\s*$] under flag [m] *)
Lemma tail_accepts (s : str) :
  repB 0 isWhiteSpace
    (accepts flags_im (Opt (Chr 93%N))
       (repB 0 isWhiteSpace (accepts flags_im Eol anything))) s
  = wsThenEol s
    || match trimStart s with
       | c :: r => (c =? 93)%N && wsThenEol r
       | [] => false
       end.
Proof.
  induction s as [|c r IH]; [reflexivity|].
  cbn [repB pred Nat.eqb andb]. rewrite IH. clear IH.
  cbn [accepts]. rewrite !ws_eol_accepts.
  rewrite (@chrEq_plain flags_im 93%N c eq_refl). rewrite (N.eqb_sym 93 c).
  cbn [trimStart wsThenEol].
  destruct (isWhiteSpace c) eqn:W; cbn [andb orb].
  - destruct (N.eqb_spec c 93) as [->|_]; [discriminate W|]. cbn [andb orb].
    destruct (isLineTerminator c), (wsThenEol r),
      (match trimStart r with [] => false | _ => _ end); reflexivity.
  - rewrite orb_false_r. apply orb_comm.
Qed.

(** [\s*\[?\s*] before a word: both runs are taken whole. *)
Lemma front_accepts (K : str -> bool) :
  (forall c r, isWhiteSpace c = true -> K (c :: r) = false) ->
  (forall r, K (91%N :: r) = false) ->
  forall s,
    repB 0 isWhiteSpace
      (accepts flags_im (Opt (Chr 91%N)) (repB 0 isWhiteSpace K)) s
    = K (match trimStart s with
         | c :: r => if (c =? 91)%N then trimStart r else c :: r
         | [] => []
         end).
Proof.
  intros W B. induction s as [|c r IH].
  - cbn. reflexivity.
  - cbn [repB pred Nat.eqb andb]. rewrite IH. clear IH.
    cbn [accepts]. rewrite !(repB_skip K W).
    rewrite (@chrEq_plain flags_im 91%N c eq_refl). rewrite (N.eqb_sym 91 c).
    cbn [trimStart].
    destruct (isWhiteSpace c) eqn:Wc; cbn [andb orb].
    + destruct (N.eqb_spec c 91) as [->|_]; [discriminate Wc|]. cbn [andb orb].
      destruct (trimStart r) as [|x t] eqn:T.
      * apply orb_diag.
      * destruct (N.eqb_spec x 91) as [->|_].
        -- rewrite B. apply orb_false_r.
        -- apply orb_diag.
    + destruct (N.eqb_spec c 91) as [->|_]; cbn [andb orb].
      * rewrite B. apply orb_false_r.
      * reflexivity.
Qed.

(** [UNRELEASED_HEADER_RE] at one line start *)
Lemma unreleased_accepts (s : str) :
  accepts flags_im
    (seq [lits (lit "##"); Rep 0 isWhiteSpace; Opt (Chr (ch "["));
          Rep 0 isWhiteSpace; lits (lit "unreleased"); Rep 0 isWhiteSpace;
          Opt (Chr (ch "]")); Rep 0 isWhiteSpace; Eol])
    anything s
  = unreleasedAt s.
Proof.
  eval_chs. cbn [seq].
  set (K := accepts flags_im
              (Seq (lits (lit "unreleased"))
                 (Seq (Rep 0 isWhiteSpace)
                    (Seq (Opt (Chr 93%N)) (Seq (Rep 0 isWhiteSpace) Eol))))
              anything).
  assert (KE : forall t,
    K t = match stripPrefixCI (lit "unreleased") t with
          | Some r4 =>
              wsThenEol r4
              || match trimStart r4 with
                 | c :: r => (c =? 93)%N && wsThenEol r
                 | [] => false
                 end
          | None => false
          end).
  { intros t. unfold K.
    change (accepts flags_im (Seq ?a ?b) anything t)
      with (accepts flags_im a (accepts flags_im b anything) t).
    rewrite accepts_lits_i by reflexivity.
    destruct (stripPrefixCI _ t) as [r4|]; [|reflexivity].
    exact (tail_accepts r4). }
  change (accepts flags_im (Seq (lits (lit "##")) ?b) anything s)
    with (accepts flags_im (lits (lit "##")) (accepts flags_im b anything) s).
  rewrite accepts_lits_plain
    by (intros c [<-|[<-|[]]]; reflexivity).
  unfold unreleasedAt. destruct (stripPrefix _ s) as [r1|]; [|reflexivity].
  change (accepts flags_im
            (Seq (Rep 0 isWhiteSpace)
               (Seq (Opt (Chr 91%N)) (Seq (Rep 0 isWhiteSpace) ?b)))
            anything r1)
    with (repB 0 isWhiteSpace
            (accepts flags_im (Opt (Chr 91%N))
               (repB 0 isWhiteSpace (accepts flags_im b anything))) r1).
  fold K. rewrite front_accepts.
  - rewrite KE. cbv zeta.
    destruct (trimStart r1) as [|c r]; [reflexivity|].
    now destruct (c =? 91)%N.
  - intros c r W. rewrite KE. eval_lits. now rewrite stripPrefixCI_ws.
  - intros r. rewrite KE. reflexivity.
Qed.

(** X14.  [UNRELEASED_HEADER_RE], matched by backtracking under its
    flags [i] and [m], accepts a text exactly when the recogniser of the
    embedding does: at the start of the text or after a line terminator
    there is [##], white space, an optional [[], white space, the word
    [unreleased] in any letter case, and then white space up to the end
    of a line with at most one [] ] in it. *)
Theorem staging_header_expression (t : str) :
  AsWritten.UNRELEASED_HEADER_RE_test t = UNRELEASED_HEADER_RE_test t.
Proof.
  unfold AsWritten.UNRELEASED_HEADER_RE_test, AsWritten.UNRELEASED_HEADER_RE,
    UNRELEASED_HEADER_RE_test.
  change (seq (Bol :: ?l)) with (Seq Bol (seq l)).
  rewrite test_anchored_m by reflexivity.
  apply anyLineStart_same. exact unreleased_accepts.
Qed.

Lemma repB_anything (P : char -> bool) (s : str) : repB 0 P anything s = true.
Proof. destruct s; cbn; [reflexivity|apply orb_true_r]. Qed.

(** [/^##\s+/] *)
Lemma next_section_matched (line : str) :
  AsWritten.NEXT_SECTION_RE_test line = sectionHeadingAt line.
Proof.
  unfold AsWritten.NEXT_SECTION_RE_test, AsWritten.NEXT_SECTION_RE.
  change (seq (Bol :: ?l)) with (Seq Bol (seq l)).
  rewrite test_anchored by reflexivity. cbn [seq].
  change (accepts flags_ (Seq ?a ?b) anything line)
    with (accepts flags_ a (accepts flags_ b anything) line).
  rewrite accepts_lits_plain by (intros c [<-|[<-|[]]]; reflexivity).
  unfold sectionHeadingAt. destruct (stripPrefix _ line) as [[|c r]|];
    try reflexivity.
  cbn [accepts repB pred Nat.eqb andb]. rewrite repB_anything.
  now rewrite andb_true_r, orb_false_r.
Qed.

(* ================================================================== *)
(** * The title grammar *)
(* ================================================================== *)

Section Captures.

Variable A : Type.

Lemma orElse_None (x : option A) : orElse x None = x.
Proof. now destruct x. Qed.

Lemma rep_prevIndep (P : char -> bool) (k : state -> option A) :
  prevIndep k ->
  forall s min p p' cs, rep min P p s cs k = rep min P p' s cs k.
Proof.
  intros I. destruct s as [|c r]; intros min p p' cs; cbn [rep].
  - now rewrite (I p p').
  - now rewrite (I p p').
Qed.

Lemma run_prevIndep (fl : flags) (r : re) :
  noBol r = true ->
  forall k : state -> option A,
    prevIndep k -> prevIndep (fun st => run fl r st k).
Proof.
  induction r as [|c| | |a IHa b IHb|a IHa|min P|i a IHa];
    intros NB k I p p' s cs; cbn [run rest prev caps].
  - apply I.
  - reflexivity.
  - discriminate.
  - destruct s as [|c s']; [apply I|].
    destruct (multiline fl && isLineTerminator c); [apply I|reflexivity].
  - cbn [noBol] in NB. apply andb_true_iff in NB. destruct NB as [Na Nb].
    apply (IHa Na). now apply IHb.
  - rewrite (IHa NB k I p p' s cs). now rewrite (I p p').
  - now apply rep_prevIndep.
  - apply (IHa NB). intros q q' s' cs'. apply I.
Qed.

(** A run of a class before something that no member of the class starts
    is taken whole. *)
Lemma rep_longest (P : char -> bool) (k : state -> option A) :
  prevIndep k ->
  (forall p c r cs, P c = true -> k (mkState p (c :: r) cs) = None) ->
  forall s min p cs,
    rep min P p s cs k
    = if (min <=? length (fst (span P s)))%nat
      then k (mkState p (snd (span P s)) cs)
      else None.
Proof.
  intros I F. induction s as [|c r IH]; intros min p cs; cbn [rep span].
  - cbn [fst snd length]. now destruct min.
  - destruct (P c) eqn:Pc.
    + rewrite IH. destruct (span P r) as [w t]. cbn [fst snd length].
      rewrite (F p c r cs Pc).
      replace (if (min =? 0)%nat then None else None) with (@None A)
        by now destruct (min =? 0)%nat.
      rewrite orElse_None. rewrite (I (Some c) p).
      destruct min as [|min]; reflexivity.
    + cbn [fst snd length]. now destruct min.
Qed.

End Captures.


Lemma span_app (P : char -> bool) (s : str) :
  fst (span P s) ++ snd (span P s) = s.
Proof.
  induction s as [|c r IH]; [reflexivity|]. cbn [span].
  destruct (P c); [|reflexivity]. destruct (span P r) as [w t].
  cbn [fst snd app] in *. now rewrite IH.
Qed.

Lemma span_rest (P : char -> bool) (s : str) (c : char) (r : str) :
  snd (span P s) = c :: r -> P c = false.
Proof.
  induction s as [|x s IH]; [discriminate|]. cbn [span].
  destruct (P x) eqn:Px.
  - destruct (span P s) as [w t]. exact IH.
  - cbn [snd]. intros E. injection E as -> _. exact Px.
Qed.

Lemma span_all (P : char -> bool) (s : str) :
  forallb P s = true -> span P s = (s, []).
Proof.
  induction s as [|c r IH]; [reflexivity|]. cbn [forallb span]. intros H.
  apply andb_true_iff in H. destruct H as [Pc H]. rewrite Pc.
  now rewrite (IH H).
Qed.

Lemma span_some (P : char -> bool) (s : str) :
  forallb P s = false -> snd (span P s) <> [].
Proof.
  induction s as [|c r IH]; [discriminate|]. cbn [forallb span]. intros H.
  destruct (P c); cbn [andb] in H.
  - destruct (span P r) as [w t]. now apply IH.
  - discriminate.
Qed.

Lemma firstn_taken (w t : str) : firstn (length (w ++ t) - length t) (w ++ t) = w.
Proof.
  rewrite length_app. replace (length w + length t - length t) with (length w)
    by lia.
  rewrite firstn_app, Nat.sub_diag, firstn_all. cbn [firstn]. apply app_nil_r.
Qed.

Lemma spanWord_span (s : str) : Conventional.spanWord s = span isWordChar s.
Proof.
  induction s as [|c r IH]; [reflexivity|]. cbn [Conventional.spanWord span].
  now rewrite IH.
Qed.

Lemma spanNotParen_span (s : str) : Conventional.spanNotParen s = span notParen s.
Proof.
  induction s as [|c r IH]; [reflexivity|]. cbn [Conventional.spanNotParen span].
  unfold notParen at 1. change (ch ")") with 41%N.
  rewrite IH. now destruct (c =? 41)%N.
Qed.

Lemma noLineTerminator_trimStart (r : str) :
  Conventional.noLineTerminator r = true -> Conventional.noLineTerminator (trimStart r) = true.
Proof.
  induction r as [|c r IH]; [reflexivity|]. cbn [trimStart].
  destruct (isWhiteSpace c); [|easy].
  intros H. apply IH. cbn in H. now apply andb_true_iff in H.
Qed.

Lemma noLineTerminator_last (r : str) (y : char) (q : str) :
  rev r = y :: q -> Conventional.noLineTerminator r = true -> isLineTerminator y = false.
Proof.
  intros R H. unfold Conventional.noLineTerminator in H. rewrite forallb_forall in H.
  apply negb_true_iff. apply H. apply in_rev. rewrite R. now left.
Qed.

(** White space after the colon: [\s*] gives way to [(.+)] only when
    nothing else is left for it. *)
Lemma subjectOf_ws (c : char) (r : str) :
  isWhiteSpace c = true ->
  Conventional.subjectOf (c :: r)
  = match Conventional.subjectOf r with
    | Some x => Some x
    | None => if Conventional.noLineTerminator (c :: r) then Some (c :: r) else None
    end.
Proof.
  intros W. unfold Conventional.subjectOf. cbn [trimStart]. rewrite W.
  destruct (trimStart r) as [|x t] eqn:T.
  - cbn [rev]. destruct (rev r) as [|y q] eqn:R.
    + apply (f_equal (@rev char)) in R. rewrite rev_involutive in R. subst r.
      cbn. now destruct (isLineTerminator c).
    + cbn [app]. destruct (isLineTerminator y) eqn:Ly; [|reflexivity].
      destruct (Conventional.noLineTerminator (c :: r)) eqn:N; [|reflexivity].
      cbn in N. apply andb_true_iff in N. destruct N as [_ N].
      rewrite (noLineTerminator_last _ R N) in Ly. discriminate.
  - destruct (Conventional.noLineTerminator (x :: t)) eqn:N; [reflexivity|].
    destruct (Conventional.noLineTerminator (c :: r)) eqn:N'; [|reflexivity].
    cbn in N'. apply andb_true_iff in N'. destruct N' as [_ N'].
    apply noLineTerminator_trimStart in N'. rewrite T in N'. congruence.
Qed.

Lemma subjectOf_start (c : char) (r : str) :
  isWhiteSpace c = false ->
  Conventional.subjectOf (c :: r)
  = if Conventional.noLineTerminator (c :: r) then Some (c :: r) else None.
Proof. intros W. unfold Conventional.subjectOf. cbn [trimStart]. now rewrite W. Qed.

Section TitleShape.

Variable fl : flags.
Hypothesis M : multiline fl = false.
Variables o1 o2 o3 o4 : option nat.
Variable A : Type.
Variable f : captures -> A.

Lemma finish_prevIndep : prevIndep (finish f).
Proof. intros p p' s cs. reflexivity. Qed.

Lemma subject_run (p : option char) (t : str) (cs : captures) :
  run fl (tailSubject o4) (mkState p t cs) (finish f)
  = if negb (isEmpty t) && Conventional.noLineTerminator t
    then Some (f (capOf o4 t ++ cs))
    else None.
Proof.
  unfold tailSubject.
  assert (E : forall k : state -> option A,
             prevIndep k ->
             (forall q c r cs', k (mkState q (c :: r) cs') = None) ->
             rep 1 dot p t cs k
             = if negb (isEmpty t) && Conventional.noLineTerminator t
               then k (mkState p [] cs) else None).
  { intros k I F. rewrite rep_longest; [|exact I|intros; apply F].
    destruct (Conventional.noLineTerminator t) eqn:N.
    - unfold Conventional.noLineTerminator in N.
      change (fun c : char => negb (isLineTerminator c)) with dot in N.
      rewrite (span_all _ _ N). cbn [fst snd].
      destruct t; reflexivity.
    - rewrite andb_false_r.
      pose proof (@span_some dot t N) as S.
      destruct (span dot t) as [w [|x t']]; cbn [fst snd] in *;
        [congruence|].
      rewrite F. now destruct (1 <=? length w)%nat. }
  destruct o4 as [i|]; cbn [wrap capOf app run rest prev caps].
  - rewrite E.
    + cbn [rest prev caps]. now rewrite Nat.sub_0_r, firstn_all.
    + intros q q' s' cs'. reflexivity.
    + intros q c r cs'. cbn [rest]. now rewrite M.
  - rewrite E.
    + reflexivity.
    + intros q q' s' cs'. cbn [run rest]. now destruct s'; [|rewrite M].
    + intros q c r cs'. cbn [run rest]. now rewrite M.
Qed.

Lemma blank_subject_run (s : str) (p : option char) (cs : captures) :
  run fl (tailBlank o4) (mkState p s cs) (finish f)
  = match Conventional.subjectOf s with
    | Some subj => Some (f (capOf o4 subj ++ cs))
    | None => None
    end.
Proof.
  unfold tailBlank. cbn [run rest prev caps]. revert p.
  induction s as [|c r IH]; intros p.
  - cbn [rep Nat.eqb]. rewrite subject_run. reflexivity.
  - cbn [rep Nat.eqb pred]. rewrite subject_run. cbn [isEmpty negb andb].
    destruct (isWhiteSpace c) eqn:W.
    + rewrite IH, (@subjectOf_ws c r W).
      destruct (Conventional.subjectOf r); [reflexivity|].
      cbn [orElse]. now destruct (Conventional.noLineTerminator (c :: r)).
    + rewrite (@subjectOf_start c r W).
      now destruct (Conventional.noLineTerminator (c :: r)).
Qed.

Lemma colon_run (s : str) (p : option char) (cs : captures) :
  run fl (tailColon o4) (mkState p s cs) (finish f)
  = match s with
    | c :: r4 =>
        if (c =? 58)%N then
          match Conventional.subjectOf r4 with
          | Some subj => Some (f (capOf o4 subj ++ cs))
          | None => None
          end
        else None
    | [] => None
    end.
Proof.
  unfold tailColon. cbn [run rest prev caps]. destruct s as [|c r4]; [reflexivity|].
  rewrite (@chrEq_plain fl 58%N c eq_refl), (N.eqb_sym 58 c).
  destruct (c =? 58)%N; [|reflexivity]. apply blank_subject_run.
Qed.

Lemma bang_run (s : str) (p : option char) (cs : captures) :
  run fl (tailBang o3 o4) (mkState p s cs) (finish f)
  = match s with
    | c :: r =>
        if (c =? 33)%N
        then run fl (tailColon o4) (mkState None r (capOf o3 [33%N] ++ cs)) (finish f)
        else run fl (tailColon o4) (mkState None s cs) (finish f)
    | [] => None
    end.
Proof.
  unfold tailBang.
  change (run fl (Seq ?a ?b) ?st ?k)
    with (run fl a st (fun st' => run fl b st' k)).
  cbn [run]. rewrite !colon_run. cbn [rest prev caps].
  destruct s as [|c r].
  - destruct o3; reflexivity.
  - destruct (N.eqb_spec c 33) as [->|N].
    + destruct o3 as [i|]; cbn [wrap run rest prev caps capOf app];
        rewrite (@chrEq_plain fl 33%N 33%N eq_refl); cbn [N.eqb Pos.eqb];
        rewrite ?colon_run; cbn [length];
        rewrite ?Nat.sub_succ_l, ?Nat.sub_diag by lia; cbn [firstn];
        apply orElse_None.
    + destruct o3 as [i|]; cbn [wrap run rest prev caps capOf app];
        rewrite (@chrEq_plain fl 33%N c eq_refl);
        (destruct (N.eqb_spec 33 c) as [E|_]; [now subst|]);
        cbn [orElse]; rewrite ?colon_run; reflexivity.
Qed.

Lemma bang_prev (s : str) (p q : option char) (cs : captures) :
  run fl (tailBang o3 o4) (mkState p s cs) (finish f) = run fl (tailBang o3 o4) (mkState q s cs) (finish f).
Proof. now rewrite !bang_run. Qed.

Lemma bang_fails (c : char) (r : str) (p : option char) (cs : captures) :
  (c =? 33)%N = false -> (c =? 58)%N = false ->
  run fl (tailBang o3 o4) (mkState p (c :: r) cs) (finish f) = None.
Proof. intros B C. rewrite bang_run, B, colon_run. now rewrite C. Qed.

Lemma scope_run (s : str) (p : option char) (cs : captures) :
  run fl (tailScope o2 o3 o4) (mkState p s cs) (finish f)
  = match s with
    | c :: r =>
        if (c =? 40)%N then
          match fst (span notParen r), snd (span notParen r) with
          | _ :: _, _ :: r3 =>
              run fl (tailBang o3 o4)
                (mkState None r3 (capOf o2 (fst (span notParen r)) ++ cs))
                (finish f)
          | _, _ => None
          end
        else run fl (tailBang o3 o4) (mkState None s cs) (finish f)
    | [] => None
    end.
Proof.
  unfold tailScope.
  change (run fl (Seq ?a ?b) ?st ?k)
    with (run fl a st (fun st' => run fl b st' k)).
  cbn [run rest prev caps]. fold (tailBang o3 o4).
  destruct s as [|c r].
  - cbn [orElse]. now rewrite bang_run.
  - rewrite (@chrEq_plain fl 40%N c eq_refl), (N.eqb_sym 40 c).
    destruct (N.eqb_spec c 40) as [->|N].
    + rewrite (@bang_fails 40%N r p cs eq_refl eq_refl), orElse_None.
      assert (E : forall k : state -> option A,
                 prevIndep k ->
                 (forall q t cs', k (mkState q t cs')
                                  = match t with
                                    | x :: r3 =>
                                        if (x =? 41)%N
                                        then k (mkState None t cs')
                                        else None
                                    | [] => None
                                    end) ->
                 rep 1 notParen (Some 40%N) r cs k
                 = match fst (span notParen r), snd (span notParen r) with
                   | _ :: _, x :: r3 => k (mkState None (x :: r3) cs)
                   | _, _ => None
                   end).
      { intros k I K. rewrite rep_longest.
        - pose proof (@span_rest notParen r) as SR.
          destruct (span notParen r) as [[|y sc] [|x r3]]; cbn [fst snd length] in *;
            try reflexivity.
          + now rewrite K.
          + apply (I (Some 40%N) None).
        - exact I.
        - intros q x t cs' Px. rewrite K.
          unfold notParen in Px. change (ch ")") with 41%N in Px.
          now destruct (x =? 41)%N. }
      destruct o2 as [i|]; cbn [wrap run rest prev caps capOf app].
      * rewrite E.
        -- pose proof (span_app notParen r) as SA.
           pose proof (@span_rest notParen r) as SR.
           destruct (span notParen r) as [[|y sc] [|x r3]];
             cbn [fst snd] in *; try reflexivity.
           cbn [rest prev caps].
           specialize (SR x r3 eq_refl). unfold notParen in SR.
           change (ch ")") with 41%N in SR. apply negb_false_iff in SR.
           rewrite (@chrEq_plain fl 41%N x eq_refl), (N.eqb_sym 41 x), SR.
           rewrite <- SA at 1 2. rewrite firstn_taken.
           apply bang_prev.
        -- intros q q' t cs'. cbn [rest prev caps].
           destruct t as [|x t]; [reflexivity|].
           destruct (chrEq fl 41%N x); [apply bang_prev|reflexivity].
        -- intros q t cs'. cbn [rest prev caps].
           destruct t as [|x t]; [reflexivity|].
           rewrite (@chrEq_plain fl 41%N x eq_refl), (N.eqb_sym 41 x).
           now destruct (x =? 41)%N.
      * rewrite E.
        -- pose proof (@span_rest notParen r) as SR.
           destruct (span notParen r) as [[|y sc] [|x r3]];
             cbn [fst snd] in *; try reflexivity.
           cbn [rest prev caps].
           specialize (SR x r3 eq_refl). unfold notParen in SR.
           change (ch ")") with 41%N in SR. apply negb_false_iff in SR.
           rewrite (@chrEq_plain fl 41%N x eq_refl), (N.eqb_sym 41 x), SR.
           apply bang_prev.
        -- intros q q' t cs'. cbn [run rest prev caps].
           destruct t as [|x t]; [reflexivity|].
           destruct (chrEq fl 41%N x); [apply bang_prev|reflexivity].
        -- intros q t cs'. cbn [run rest prev caps].
           destruct t as [|x t]; [reflexivity|].
           rewrite (@chrEq_plain fl 41%N x eq_refl), (N.eqb_sym 41 x).
           now destruct (x =? 41)%N.
    + destruct (N.eqb_spec 40 c) as [E|_]; [now subst|].
      cbn [orElse]. apply bang_prev.
Qed.

Lemma scope_prev (s : str) (p q : option char) (cs : captures) :
  run fl (tailScope o2 o3 o4) (mkState p s cs) (finish f) = run fl (tailScope o2 o3 o4) (mkState q s cs) (finish f).
Proof. now rewrite !scope_run. Qed.

Lemma scope_fails (c : char) (r : str) (p : option char) (cs : captures) :
  isWordChar c = true -> run fl (tailScope o2 o3 o4) (mkState p (c :: r) cs) (finish f) = None.
Proof.
  intros W. rewrite scope_run.
  destruct (N.eqb_spec c 40) as [->|_]; [discriminate W|].
  apply bang_fails.
  - destruct (N.eqb_spec c 33) as [->|_]; [discriminate W|reflexivity].
  - destruct (N.eqb_spec c 58) as [->|_]; [discriminate W|reflexivity].
Qed.

Lemma type_run (s : str) (p : option char) (cs : captures) :
  run fl (titleShape o1 o2 o3 o4) (mkState p s cs) (finish f)
  = if isEmpty (fst (span isWordChar s)) then None
    else run fl (tailScope o2 o3 o4)
           (mkState None (snd (span isWordChar s))
              (capOf o1 (fst (span isWordChar s)) ++ cs))
           (finish f).
Proof.
  unfold titleShape.
  change (run fl (Seq ?a ?b) ?st ?k)
    with (run fl a st (fun st' => run fl b st' k)).
  pose proof (span_app isWordChar s) as SA.
  destruct o1 as [i|]; cbn [wrap run rest prev caps capOf app].
  - rewrite rep_longest.
    + destruct (span isWordChar s) as [[|y w] t]; cbn [fst snd length] in *;
        [reflexivity|].
      cbn [Nat.leb isEmpty rest prev caps].
      rewrite <- SA at 1 2. rewrite firstn_taken. apply scope_prev.
    + intros q q' t cs'. cbn [rest prev caps]. apply scope_prev.
    + intros q c r cs' W. cbn [rest prev caps]. now apply scope_fails.
  - rewrite rep_longest.
    + destruct (span isWordChar s) as [[|y w] t]; cbn [fst snd length] in *;
        [reflexivity|].
      cbn [Nat.leb isEmpty]. apply scope_prev.
    + intros q q' t cs'. apply scope_prev.
    + intros q c r cs' W. now apply scope_fails.
Qed.

Lemma bang_colon (s : str) (p : option char) (cs : captures) :
  run fl (tailBang o3 o4) (mkState p s cs) (finish f)
  = let (bang, r3) :=
      match s with
      | c :: r => if (c =? 33)%N then (true, r) else (false, s)
      | [] => (false, s)
      end in
    match r3 with
    | c :: r4 =>
        if (c =? 58)%N then
          match Conventional.subjectOf r4 with
          | Some subj =>
              Some (f (capOf o4 subj
                       ++ (if bang then capOf o3 [33%N] else []) ++ cs))
          | None => None
          end
        else None
    | [] => None
    end.
Proof.
  rewrite bang_run. destruct s as [|c r]; [reflexivity|].
  destruct (c =? 33)%N; now rewrite colon_run.
Qed.

(** The expression in the shape of the two title expressions computes
    the parse of the title, and its groups are the parts of the parse. *)
Lemma shape_parse (s : str) :
  run fl (titleShape o1 o2 o3 o4) (mkState None s []) (finish f)
  = match Conventional.exec s with
    | Some m => Some (f (capsOfMatch o1 o2 o3 o4 m))
    | None => None
    end.
Proof.
  rewrite type_run. unfold Conventional.exec.
  rewrite spanWord_span.
  destruct (span isWordChar s) as [w r1]. cbn [fst snd].
  destruct (isEmpty w); [reflexivity|].
  rewrite scope_run.
  assert (K : forall sc r2 cs,
             cs = match sc with Some x => capOf o2 x | None => [] end
                  ++ capOf o1 w ->
             run fl (tailBang o3 o4) (mkState None r2 cs) (finish f)
             = (let (bang, r3) :=
                  match r2 with
                  | c :: r => if (c =? 33)%N then (true, r) else (false, r2)
                  | [] => (false, r2)
                  end in
                match r3 with
                | [] => None
                | c :: r4 =>
                    if (c =? 58)%N then
                      match Conventional.subjectOf r4 with
                      | Some subj =>
                          Some (f (capsOfMatch o1 o2 o3 o4
                                     (Conventional.mkMatch w sc bang subj)))
                      | None => None
                      end
                    else None
                end)).
  { intros sc r2 cs ->. rewrite bang_colon.
    unfold capsOfMatch. cbn [Conventional.m_subject Conventional.m_bang Conventional.m_scope Conventional.m_type].
    destruct r2 as [|c r]; [reflexivity|].
    destruct (c =? 33)%N; reflexivity. }
  destruct r1 as [|c r]; [reflexivity|].
  destruct (c =? 40)%N.
  - rewrite spanNotParen_span. destruct (span notParen r) as [sc r2].
    cbn [fst snd]. destruct sc as [|y sc]; [reflexivity|].
    destruct r2 as [|x r3]; [reflexivity|].
    rewrite (K (Some (y :: sc)) r3 _ (f_equal _ (app_nil_r _))).
    destruct r3 as [|c1 r4]; [reflexivity|].
    destruct (c1 =? 33)%N.
    + destruct r4 as [|c2 r5]; [reflexivity|].
      destruct (c2 =? 58)%N; [|reflexivity]. now destruct (Conventional.subjectOf r5).
    + destruct (c1 =? 58)%N; [|reflexivity]. now destruct (Conventional.subjectOf r4).
  - rewrite (K None (c :: r) (capOf o1 w ++ []) (app_nil_r (capOf o1 w))).
    destruct (c =? 33)%N.
    + destruct r as [|c2 r5]; [reflexivity|].
      destruct (c2 =? 58)%N; [|reflexivity]. now destruct (Conventional.subjectOf r5).
    + destruct (c =? 58)%N; [|reflexivity]. now destruct (Conventional.subjectOf r).
Qed.

End TitleShape.

(* ================================================================== *)
(** * What a match is read for *)
(* ================================================================== *)

Section Continuations.

Variable A : Type.

Lemma rep_ext (P : char -> bool) (k k' : state -> option A) :
  (forall st, k st = k' st) ->
  forall s min p cs, rep min P p s cs k = rep min P p s cs k'.
Proof.
  intros E. induction s as [|c r IH]; intros min p cs; cbn [rep].
  - now rewrite E.
  - now rewrite E, IH.
Qed.

Lemma run_ext (fl : flags) (r : re) :
  forall (k k' : state -> option A) (st : state),
    (forall st', k st' = k' st') -> run fl r st k = run fl r st k'.
Proof.
  induction r as [|c| | |a IHa b IHb|a IHa|min P|i a IHa];
    intros k k' st E; cbn [run].
  - apply E.
  - destruct (rest st) as [|x s']; [reflexivity|]. now rewrite E.
  - now rewrite E.
  - now rewrite E.
  - apply IHa. intros st'. now apply IHb.
  - now rewrite (IHa k k' st E), E.
  - now apply rep_ext.
  - apply IHa. intros st'. apply E.
Qed.

End Continuations.

Section Reading.

Variables A B : Type.
Variable g : A -> B.

Lemma orElse_map (x y : option A) :
  option_map g (orElse x y) = orElse (option_map g x) (option_map g y).
Proof. now destruct x. Qed.

Lemma rep_map (P : char -> bool) (k : state -> option A) :
  forall s min p cs,
    option_map g (rep min P p s cs k)
    = rep min P p s cs (fun st => option_map g (k st)).
Proof.
  induction s as [|c r IH]; intros min p cs; cbn [rep].
  - now destruct (min =? 0)%nat.
  - destruct (P c).
    + rewrite orElse_map, IH. now destruct (min =? 0)%nat.
    + now destruct (min =? 0)%nat.
Qed.

(** What is read off a match can be read at the end of the
    expression. *)
Lemma run_map (fl : flags) (r : re) :
  forall (k : state -> option A) (st : state),
    option_map g (run fl r st k)
    = run fl r st (fun st' => option_map g (k st')).
Proof.
  induction r as [|c| | |a IHa b IHb|a IHa|min P|i a IHa];
    intros k st; cbn [run].
  - reflexivity.
  - destruct (rest st) as [|x s']; [reflexivity|].
    now destruct (chrEq fl c x).
  - destruct (prev st) as [c|]; [|reflexivity].
    now destruct (multiline fl && isLineTerminator c).
  - destruct (rest st) as [|c s']; [reflexivity|].
    now destruct (multiline fl && isLineTerminator c).
  - rewrite IHa. apply run_ext. intros st'. apply IHb.
  - now rewrite orElse_map, IHa.
  - apply rep_map.
  - rewrite IHa. reflexivity.
Qed.

End Reading.

(** The title expressions are anchored and not multi-line: a match starts
    at the start of the title. *)
Lemma title_exec (fl : flags) (o1 o2 o3 o4 : option nat) (B : Type)
  (h : captures -> B) (s : str) :
  multiline fl = false ->
  option_map (fun m => h (caps (final m)))
    (exec fl (Seq Bol (titleShape o1 o2 o3 o4)) s)
  = option_map (fun m => h (capsOfMatch o1 o2 o3 o4 m)) (Conventional.exec s).
Proof.
  intros M. rewrite (@exec_anchored fl _ s M), run_map. cbn [option_map].
  change (fun st' : state => Some (h (caps (final (mkFound 0 st')))))
    with (finish h).
  rewrite (@shape_parse fl M o1 o2 o3 o4 B h s).
  now destruct (Conventional.exec s).
Qed.

Lemma CC_RE_exec_parse (title : str) :
  AsWritten.CC_RE_exec title = Conventional.exec title.
Proof.
  unfold AsWritten.CC_RE_exec.
  pose proof (@title_exec flags_i (Some 1) (Some 2) (Some 3) (Some 4) _
                (fun cs =>
                   let m := mkFound 0 (mkState None [] cs) in
                   Conventional.mkMatch (AsWritten.groupOr 1 m) (group 2 m)
                     (AsWritten.isSome (group 3 m)) (AsWritten.groupOr 4 m))
                title eq_refl) as E.
  change (Seq Bol (titleShape (Some 1) (Some 2) (Some 3) (Some 4)))
    with AsWritten.CC_RE in E.
  destruct (exec flags_i AsWritten.CC_RE title) as [m|];
    destruct (Conventional.exec title) as [[ty sc bang subj]|];
    cbn [option_map] in E; try discriminate E; [|reflexivity].
  refine (eq_trans E _). destruct sc, bang; reflexivity.
Qed.

Lemma normalizeTitleForBullet_parse (title : str) :
  AsWritten.normalizeTitleForBullet title = normalizeTitleForBullet title.
Proof.
  unfold AsWritten.normalizeTitleForBullet, normalizeTitleForBullet.
  pose proof (@title_exec flags_ (Some 1) None None (Some 2) _
                (fun cs => AsWritten.groupOr 2 (mkFound 0 (mkState None [] cs)))
                (trim title) eq_refl) as E.
  change (Seq Bol (titleShape (Some 1) None None (Some 2)))
    with AsWritten.TITLE_PREFIX_RE in E.
  destruct (exec flags_ AsWritten.TITLE_PREFIX_RE (trim title)) as [m|];
    destruct (Conventional.exec (trim title)) as [[ty sc bang subj]|];
    cbn [option_map] in E; try discriminate E; [|reflexivity].
  injection E as E. cbn [Conventional.m_subject].
  refine (eq_trans E _). now destruct sc, bang.
Qed.

(* ================================================================== *)
(** * The replacements *)
(* ================================================================== *)

Lemma stripLeadingV_matched (tag : str) :
  AsWritten.stripLeadingV tag = stripLeadingV tag.
Proof.
  unfold AsWritten.stripLeadingV, replace, stripLeadingV.
  change (seq [Bol; Chr (ch "v")]) with (Seq Bol (Chr 118%N)).
  rewrite (@exec_anchored flags_i _ tag eq_refl). cbn [run rest caps].
  destruct tag as [|c r]; [reflexivity|].
  unfold chrEq. cbn [ignoreCase flags_i].
  change (foldASCII 118%N) with 118%N.
  rewrite (N.eqb_sym 118%N (foldASCII c)).
  now destruct (foldASCII c =? 118)%N.
Qed.

Section Prefix.

Variable A : Type.
Variable h : str -> A.

Lemma run_lits_plain (fl : flags) (p : str) (k : state -> option A) :
  ignoreCase fl = false -> prevIndep k ->
  forall s q cs,
    run fl (lits p) (mkState q s cs) k
    = match stripPrefix p s with
      | Some r => k (mkState None r cs)
      | None => None
      end.
Proof.
  intros I K. induction p as [|c p IH]; intros s q cs.
  - cbn [lits run stripPrefix]. apply K.
  - destruct p as [|d p].
    + cbn [lits run stripPrefix rest caps]. unfold chrEq. rewrite I.
      destruct s as [|x s]; [reflexivity|].
      destruct (c =? x)%N; [apply K|reflexivity].
    + change (lits (c :: d :: p)) with (Seq (Chr c) (lits (d :: p))).
      cbn [run rest caps]. cbn [stripPrefix]. unfold chrEq at 1. rewrite I.
      destruct s as [|x s]; [reflexivity|].
      destruct (c =? x)%N; [apply IH|reflexivity].
Qed.

(** Greedy white space before the end of the expression takes all there
    is. *)
Lemma rep_all (s : str) (p : option char) (cs : captures) :
  rep 0 isWhiteSpace p s cs (fun st => Some (h (rest st)))
  = Some (h (trimStart s)).
Proof.
  revert p. induction s as [|c r IH]; intros p; [reflexivity|].
  cbn [rep trimStart pred Nat.eqb rest].
  destruct (isWhiteSpace c); [|reflexivity]. now rewrite IH.
Qed.

End Prefix.

(** [s.replace(re, "")] for an anchored expression, read at the end of
    the expression: what is left after the match. *)
Lemma replace_anchored (r : re) (s : str) :
  replace flags_ (Seq Bol r) [] s
  = match run flags_ r (mkState None s []) (fun st => Some (rest st)) with
    | Some x => x
    | None => s
    end.
Proof.
  unfold replace. rewrite (@exec_anchored flags_ r s eq_refl).
  pose proof (run_map (fun m => firstn (index m) s ++ [] ++ rest (final m))
                flags_ r (fun st => Some (mkFound 0 st)) (mkState None s []))
    as E.
  cbv beta in E.
  change (run flags_ r (mkState None s []) (fun st => Some (rest st)))
    with (run flags_ r (mkState None s [])
            (fun st' =>
               option_map
                 (fun m => firstn (index m) s ++ [] ++ rest (final m))
                 (Some (mkFound 0 st')))).
  rewrite <- E. now destruct (run flags_ r _ _).
Qed.

Lemma stripLabelPrefix_matched (p s : str) :
  AsWritten.stripLabelPrefix p s = stripLabelPrefix p s.
Proof.
  unfold AsWritten.stripLabelPrefix, stripLabelPrefix.
  change (seq [Bol; lits p; Rep 0 isWhiteSpace])
    with (Seq Bol (Seq (lits p) (Rep 0 isWhiteSpace))).
  rewrite replace_anchored.
  change (run flags_ (Seq ?a ?b) ?st ?k)
    with (run flags_ a st (fun st' => run flags_ b st' k)).
  rewrite run_lits_plain.
  - destruct (stripPrefix p s) as [r|]; [|reflexivity].
    cbn [run prev rest caps]. now rewrite (rep_all (fun x => x)).
  - reflexivity.
  - intros q q' t cs. cbn [run prev rest caps].
    now rewrite !(rep_all (fun x => x)).
Qed.

Lemma trimEnd_nil_ws (r : str) :
  trimEnd r = [] -> forallb isWhiteSpace r = true.
Proof.
  intros T. destruct (trimEnd_split r) as (w & E & W).
  rewrite T in E. cbn [app] in E. now subst.
Qed.

Lemma trimEnd_cons (c : char) (r : str) :
  forallb isWhiteSpace (c :: r) = false ->
  trimEnd (c :: r) = c :: trimEnd r.
Proof.
  intros N. cbn [trimEnd]. destruct (trimEnd r) as [|d r'] eqn:T;
    [|reflexivity].
  cbn [forallb] in N. rewrite (trimEnd_nil_ws _ T), andb_true_r in N.
  now rewrite N.
Qed.

(** [\s+$] is found where the trailing white space starts. *)
Lemma trailing_space_found (s : str) :
  forall p i,
    option_map (fun m => (index m, rest (final m)))
      (execFrom flags_ (Seq (Rep 1 isWhiteSpace) Eol) p s i)
    = if length (trimEnd s) <? length s
      then Some (i + length (trimEnd s), [])
      else None.
Proof.
  assert (R : forall p t i,
             option_map (fun m => (index m, rest (final m)))
               (run flags_ (Seq (Rep 1 isWhiteSpace) Eol) (mkState p t [])
                  (fun st => Some (mkFound i st)))
             = if negb (isEmpty t) && forallb isWhiteSpace t
               then Some (i, [])
               else None).
  { intros p t i. rewrite run_map. cbn [option_map index final run rest prev caps].
    rewrite rep_longest.
    - destruct (forallb isWhiteSpace t) eqn:W.
      + rewrite (span_all _ _ W). cbn [fst snd rest].
        now destruct t.
      + rewrite andb_false_r. pose proof (@span_some isWhiteSpace t W) as S.
        destruct (span isWhiteSpace t) as [w [|x t']]; cbn [fst snd] in *;
          [congruence|].
        cbn [rest multiline flags_ andb].
        now destruct (1 <=? length w)%nat.
    - intros q q' t' cs. cbn [rest]. now destruct t'.
    - intros q c r cs _. reflexivity. }
  induction s as [|c r IH]; intros p i.
  - cbn [execFrom].
    destruct (run flags_ _ _ _) eqn:E; [|reflexivity].
    specialize (R p [] i). rewrite E in R. discriminate R.
  - cbn [execFrom]. specialize (R p (c :: r) i).
    destruct (run flags_ _ _ _) as [m|].
    + rewrite R. cbn [isEmpty negb andb].
      destruct (forallb isWhiteSpace (c :: r)) eqn:W; [|discriminate R].
      rewrite (trimEnd_all_ws _ W). cbn [length Nat.ltb Nat.leb].
      now rewrite Nat.add_0_r.
    + cbn [isEmpty negb andb option_map] in R.
      destruct (forallb isWhiteSpace (c :: r)) eqn:W; [discriminate R|].
      rewrite IH, (trimEnd_cons _ _ W). cbn [length].
      change (S (length (trimEnd r)) <? S (length r))
        with (length (trimEnd r) <? length r).
      replace (S i + length (trimEnd r)) with (i + S (length (trimEnd r)))
        by lia.
      reflexivity.
Qed.

Lemma stripTrailingSpace_matched (s : str) :
  AsWritten.stripTrailingSpace s = trimEnd s.
Proof.
  unfold AsWritten.stripTrailingSpace, replace, exec.
  change (seq [Rep 1 isWhiteSpace; Eol]) with (Seq (Rep 1 isWhiteSpace) Eol).
  pose proof (trailing_space_found s None 0) as E.
  destruct (trimEnd_split s) as (w & Es & W).
  destruct (execFrom flags_ _ None s 0) as [m|]; cbn [option_map] in E.
  - destruct (Nat.ltb_spec (length (trimEnd s)) (length s)); [|discriminate E].
    injection E as -> ->. cbn [Nat.add app]. rewrite app_nil_r.
    rewrite Es at 2. apply firstn_exact.
  - destruct (Nat.ltb_spec (length (trimEnd s)) (length s)); [discriminate E|].
    assert (L : length w = 0).
    { apply (f_equal (@length char)) in Es. rewrite length_app in Es. lia. }
    destruct w; [|discriminate L]. now rewrite app_nil_r in Es.
Qed.

(* ================================================================== *)
(** * The expressions of the sources and the embedding *)
(* ================================================================== *)

Example CC_RE_runs :
  AsWritten.CC_RE_exec (lit "Feat(core)!:  add a parser")
  = Some (Conventional.mkMatch (lit "Feat") (Some (lit "core")) true
            (lit "add a parser")).
Proof. vm_compute. reflexivity. Qed.

Example UNRELEASED_HEADER_RE_runs :
  map AsWritten.UNRELEASED_HEADER_RE_test
    [lit "## [Unreleased]"; lit "##unreleased  "; lit "intro\n## [ UNRELEASED ]\n";
     lit "## [Unreleased] soon"; lit "### Unreleased"]
  = [true; true; true; false; false].
Proof. vm_compute. reflexivity. Qed.

(** X15.  The two other line tests of the changelog editor, matched by
    backtracking, are the recognisers of the embedding: the title test
    [/^\#\s*Changelog/im] of [ensureHeaderAndUnreleased], and the test
    [/^##\s+/] with which [captureUnreleased] finds the next section. *)
Theorem title_and_section_expressions (t line : str) :
  AsWritten.CHANGELOG_TITLE_RE_test t = CHANGELOG_TITLE_RE_test t
  /\ AsWritten.NEXT_SECTION_RE_test line = sectionHeadingAt line.
Proof. split; [apply title_test_matched|apply next_section_matched]. Qed.

(** X16.  The two expressions that read a title, matched by
    backtracking, compute the parse of the embedding: [CC_RE.exec] of
    [categorize] gives the type, scope, bang and subject of the parse as
    its groups 1 to 4, and the expression of [normalizeTitleForBullet]
    gives the subject as its group 2. *)
Theorem title_grammar_expressions (title : str) :
  AsWritten.CC_RE_exec title = Conventional.exec title
  /\ AsWritten.normalizeTitleForBullet title = normalizeTitleForBullet title.
Proof.
  split; [apply CC_RE_exec_parse|apply normalizeTitleForBullet_parse].
Qed.

(** X17.  The replacements by an expression, matched by backtracking, are
    the functions of the embedding: [/^v/i] takes one leading [v] or [V]
    off a tag, [/^type:\s*/] and [/^kind:\s*/] take the prefix and the
    white space after it off a label, and [/\s+$/s] takes the white
    space off the end of the staging body. *)
Theorem replacement_expressions (tag p s : str) :
  AsWritten.stripLeadingV tag = stripLeadingV tag
  /\ AsWritten.stripLabelPrefix p s = stripLabelPrefix p s
  /\ AsWritten.stripTrailingSpace s = trimEnd s.
Proof.
  split; [apply stripLeadingV_matched|].
  split; [apply stripLabelPrefix_matched|apply stripTrailingSpace_matched].
Qed.
(* ================================================================== *)
(** * The changelog file in the repository *)
(* ================================================================== *)

Lemma eqb_same (a : str) : eqb a a = true.
Proof. now destruct (eqb_spec a a). Qed.

Lemma lookup_same (k : str * str) (f : Repository.File)
  (m : list ((str * str) * Repository.File)) :
  Repository.lookup k ((k, f) :: m) = Some f.
Proof.
  cbn [Repository.lookup]. unfold Repository.keyEqb.
  now rewrite !eqb_same.
Qed.


Lemma ensure_fixed (x : str) :
  ensureHeaderAndUnreleased (ensureHeaderAndUnreleased x)
  = ensureHeaderAndUnreleased x.
Proof.
  destruct (ensure_tests x) as [T1 T2].
  remember (ensureHeaderAndUnreleased x) as t.
  unfold ensureHeaderAndUnreleased. rewrite T1. cbn [negb]. now rewrite T2.
Qed.

Section RepositoryFacts.

Import Repository.

Variable blobSha : str -> str.


(** X19.  [ensureChangelog] is idempotent on the repository: run again on
    the state it left, it makes no commit, changes nothing and returns
    the same file. *)
Theorem ensureChangelog_again (ctx : Context) (defaultBranch : str)
  (changelogPath : option str) (st : Store) :
  let r := ensureChangelog blobSha ctx defaultBranch changelogPath st in
  ensureChangelog blobSha ctx defaultBranch changelogPath (fst r) = r.
Proof.
  cbv zeta. unfold ensureChangelog at 2 3. cbv zeta.
  set (branch := resolveTargetBranch ctx defaultBranch).
  set (path := pathOf changelogPath).
  assert (K : forall st0 f,
             getFile st0 path branch = Some f ->
             ensureHeaderAndUnreleased (content f) = content f ->
             ensureChangelog blobSha ctx defaultBranch changelogPath st0
             = (st0, inr (mkFileData (sha f) (content f) branch))).
  { intros st0 f G E. unfold ensureChangelog. cbv zeta.
    fold branch path. rewrite G, E, eqb_same. reflexivity. }
  destruct (getFile st path branch) as [f|] eqn:G.
  - destruct (eqb_spec (ensureHeaderAndUnreleased (content f)) (content f))
      as [E|N]; cbn [negb].
    + cbn [fst]. now apply K.
    + unfold getFile, putFile. cbn [files]. rewrite lookup_same.
      cbn [fst sha content].
      apply (K _ (mkFile (blobSha (ensureHeaderAndUnreleased (content f)))
                    (ensureHeaderAndUnreleased (content f)))).
      * unfold getFile. cbn [files]. apply lookup_same.
      * cbn [content]. apply ensure_fixed.
  - unfold getFile, putFile. cbn [files]. rewrite lookup_same.
    cbn [fst sha content].
    apply (K _ (mkFile (blobSha HEADER) HEADER)).
    + unfold getFile. cbn [files]. apply lookup_same.
    + vm_compute. reflexivity.
Qed.

(** X20.  [addUnreleasedEntry] normalises the text it reads itself, so
    running [ensureChangelog] before it changes the commits that are made
    and not the file that results: the changelog after both is the
    changelog after [addUnreleasedEntry] alone. *)
Theorem addUnreleasedEntry_after_ensure (toLowerCase : str -> str)
  (ctx : Context) (defaultBranch : str) (changelogPath : option str)
  (entry : Entry) (st : Store) :
  let path := pathOf changelogPath in
  let branch := resolveTargetBranch ctx defaultBranch in
  getFile
    (addUnreleasedEntry blobSha toLowerCase ctx defaultBranch changelogPath
       entry
       (fst (ensureChangelog blobSha ctx defaultBranch changelogPath st)))
    path branch
  = getFile
      (addUnreleasedEntry blobSha toLowerCase ctx defaultBranch changelogPath
         entry st)
      path branch.
Proof.
  cbv zeta.
  set (branch := resolveTargetBranch ctx defaultBranch).
  set (path := pathOf changelogPath).
  assert (A : forall st0,
             getFile
               (addUnreleasedEntry blobSha toLowerCase ctx defaultBranch
                  changelogPath entry st0) path branch
             = Some (mkFile
                       (blobSha
                          (addEntryText toLowerCase
                             match getFile st0 path branch with
                             | Some f => content f
                             | None => HEADER
                             end entry))
                       (addEntryText toLowerCase
                          match getFile st0 path branch with
                          | Some f => content f
                          | None => HEADER
                          end entry))).
  { intros st0. unfold addUnreleasedEntry. cbv zeta. fold branch path.
    unfold getFile at 1, putFile. cbn [files]. apply lookup_same. }
  rewrite !A.
  assert (T : forall x,
             addEntryText toLowerCase (ensureHeaderAndUnreleased x) entry
             = addEntryText toLowerCase x entry).
  { intros x. unfold addEntryText. now rewrite ensure_fixed. }
  unfold ensureChangelog. cbv zeta. fold branch path.
  destruct (getFile st path branch) as [f|] eqn:G.
  - destruct (eqb_spec (ensureHeaderAndUnreleased (content f)) (content f))
      as [E|N]; cbn [negb].
    + cbn [fst]. now rewrite G.
    + unfold getFile at 1 2 3 4, putFile. cbn [files].
      rewrite !lookup_same. cbn [fst files]. unfold getFile.
      cbn [files]. rewrite !lookup_same. cbn [content]. now rewrite T.
  - unfold getFile at 1 2 3 4, putFile. cbn [files].
    rewrite !lookup_same. cbn [fst files]. unfold getFile.
    cbn [files]. rewrite !lookup_same. reflexivity.
Qed.

End RepositoryFacts.
(* ================================================================== *)
(** * The scope of a pull request in a monorepo *)
(* ================================================================== *)

Section MonorepoFacts.

Import Monorepo.

Lemma hd_insertByDirLength (x : PackageMeta) (l : list PackageMeta) :
  hd_error (insertByDirLength x l)
  = match hd_error l with
    | Some y => if length (dir x) <? length (dir y) then Some y else Some x
    | None => Some x
    end.
Proof.
  destruct l as [|y r]; [reflexivity|]. cbn [insertByDirLength hd_error].
  now destruct (length (dir x) <? length (dir y)).
Qed.

(** The head of the sorted list: an element, with no longer directory
    in the list. *)
Lemma hd_sortByDirLength (l : list PackageMeta) :
  match hd_error (sortByDirLength l) with
  | Some h =>
      In h l
      /\ forall q, In q l -> length (dir q) <= length (dir h)
  | None => l = []
  end.
Proof.
  induction l as [|x r IH]; [reflexivity|].
  cbn [sortByDirLength]. rewrite hd_insertByDirLength.
  destruct (hd_error (sortByDirLength r)) as [y|].
  - destruct IH as [I M].
    destruct (Nat.ltb_spec (length (dir x)) (length (dir y))).
    + split; [now right|]. intros q [<-|Q]; [lia|now apply M].
    + split; [now left|]. intros q [<-|Q]; [lia|].
      specialize (M q Q). lia.
  - subst r. split; [now left|]. intros q [<-|[]]. lia.
Qed.

(** X21.  The package a changed path is counted for is the most specific
    one: [hit] is a listed package that contains the path (the path is
    its directory or lies under it), and no listed package that contains
    the path has a longer directory; there is no [hit] exactly when no
    listed package contains the path. *)
Theorem hit_most_specific (packages : list PackageMeta) (p : str) :
  match hitOf packages p with
  | Some h =>
      In h packages /\ inPackage p h = true
      /\ forall q,
          In q packages -> inPackage p q = true ->
          length (dir q) <= length (dir h)
  | None => forallb (fun q => negb (inPackage p q)) packages = true
  end.
Proof.
  unfold hitOf.
  pose proof (hd_sortByDirLength (filter (inPackage p) packages)) as H.
  destruct (hd_error _) as [h|].
  - destruct H as [I M]. apply filter_In in I. destruct I as [I P].
    split; [exact I|]. split; [exact P|].
    intros q Q Pq. apply M. apply filter_In. now split.
  - apply forallb_forall. intros q Q.
    destruct (inPackage p q) eqn:Pq; [|reflexivity].
    assert (F : In q (filter (inPackage p) packages))
      by (apply filter_In; now split).
    rewrite H in F. destruct F.
Qed.

Lemma touched_fold (packages : list PackageMeta) (paths : list str) :
  forall seen,
    fold_left (touch packages) paths seen
    = firstOfEachDir seen (hitsOf packages paths).
Proof.
  induction paths as [|p r IH]; intros seen; [reflexivity|].
  cbn [fold_left hitsOf flat_map]. rewrite IH. unfold touch.
  destruct (hitOf packages p) as [h|]; reflexivity.
Qed.

Lemma firstOfEachDir_keeps (r seen : list PackageMeta) :
  forallb (fun x => existsb (fun t => sameDir t x) seen) r = true ->
  firstOfEachDir seen r = seen.
Proof.
  induction r as [|x r IH]; [reflexivity|]. cbn [forallb firstOfEachDir].
  intros H. apply andb_true_iff in H. destruct H as [-> H]. now apply IH.
Qed.

Lemma firstOfEachDir_grows (r seen : list PackageMeta) :
  length seen <= length (firstOfEachDir seen r).
Proof.
  revert seen. induction r as [|x r IH]; intros seen; [cbn; lia|].
  cbn [firstOfEachDir]. destruct (existsb _ seen); [apply IH|].
  etransitivity; [|apply IH]. rewrite length_app. cbn. lia.
Qed.

Lemma firstOfEachDir_adds (r seen : list PackageMeta) :
  forallb (fun x => existsb (fun t => sameDir t x) seen) r = false ->
  length seen < length (firstOfEachDir seen r).
Proof.
  induction r as [|x r IH]; [discriminate|]. cbn [forallb firstOfEachDir].
  destruct (existsb _ seen); cbn [andb]; [exact IH|].
  intros _. pose proof (firstOfEachDir_grows r (seen ++ [x])) as G.
  rewrite length_app in G. cbn in G. lia.
Qed.

Lemma inferScope_hits (paths : list str) (packages : list PackageMeta) :
  inferScopeFromPaths paths packages
  = match hitsOf packages paths with
    | [] => None
    | h :: r => if forallb (sameDir h) r then Some (scopeName h) else None
    end.
Proof.
  unfold inferScopeFromPaths.
  destruct paths as [|p ps]; [now destruct packages|].
  destruct packages as [|q qs].
  { replace (hitsOf [] (p :: ps)) with (@nil PackageMeta);
      [reflexivity|].
    unfold hitsOf. now induction (p :: ps). }
  rewrite touched_fold.
  destruct (hitsOf (q :: qs) (p :: ps)) as [|h r]; [reflexivity|].
  cbn [firstOfEachDir existsb app].
  assert (E : forallb (fun x => existsb (fun t => sameDir t x) [h]) r
              = forallb (sameDir h) r).
  { clear. induction r as [|x r IH]; [reflexivity|].
    cbn [forallb]. rewrite IH. cbn [existsb]. now rewrite orb_false_r. }
  destruct (forallb (sameDir h) r) eqn:F.
  - rewrite (firstOfEachDir_keeps r [h]); [reflexivity|exact E].
  - pose proof (firstOfEachDir_adds r [h] E) as L. cbn [length] in L.
    destruct (firstOfEachDir [h] r) as [|a [|b l]]; cbn [length] in L;
      try lia. reflexivity.
Qed.

(** X22.  [inferScopeFromPaths] gives a scope exactly when the changed
    paths that lie in a package all lie, most specifically, in packages
    of one and the same directory, and at least one path does: the scope
    is then the name of the first such package, or the last segment of
    its directory when it has no name.  Paths spread over two
    directories, and an empty list of paths or of packages, give no
    scope. *)
Theorem inferScopeFromPaths_spec (changedPaths : list str)
  (packages : list PackageMeta) :
  inferScopeFromPaths changedPaths packages
  = match hitsOf packages changedPaths with
    | [] => None
    | h :: r => if forallb (sameDir h) r then Some (scopeName h) else None
    end.
Proof. apply inferScope_hits. Qed.

Lemma hitsOf_app (packages : list PackageMeta) (a b : list str) :
  hitsOf packages (a ++ b) = hitsOf packages a ++ hitsOf packages b.
Proof. unfold hitsOf. apply flat_map_app. Qed.

(** X23.  A changed path that lies in no package has no part in the
    scope: with or without it, wherever it stands among the changed
    paths, [inferScopeFromPaths] gives the same answer. *)
Theorem outside_path_ignored (packages : list PackageMeta) (p : str)
  (before after : list str) :
  forallb (fun q => negb (inPackage p q)) packages = true ->
  inferScopeFromPaths (before ++ p :: after) packages
  = inferScopeFromPaths (before ++ after) packages.
Proof.
  intros O. rewrite !inferScope_hits, !hitsOf_app.
  replace (hitsOf packages (p :: after)) with (hitsOf packages after);
    [reflexivity|].
  cbn [hitsOf flat_map]. unfold hitOf.
  replace (filter (inPackage p) packages) with (@nil PackageMeta);
    [reflexivity|].
  clear - O. induction packages as [|q r IH]; [reflexivity|].
  cbn [forallb filter] in *. apply andb_true_iff in O. destruct O as [Q O].
  apply negb_true_iff in Q. rewrite Q. now apply IH.
Qed.

Lemma outside_path_ignored_witness :
  let packages :=
    [mkPackageMeta (lit "packages/api") (Some (lit "@acme/api"));
     mkPackageMeta (lit "packages/web") None] in
  inferScopeFromPaths
    ([lit "packages/web/src/a.ts"] ++ lit "README.md"
       :: [lit "packages/web/b.ts"]) packages
  = inferScopeFromPaths
      ([lit "packages/web/src/a.ts"] ++ [lit "packages/web/b.ts"]) packages.
Proof.
  apply (@outside_path_ignored
           [mkPackageMeta (lit "packages/api") (Some (lit "@acme/api"));
            mkPackageMeta (lit "packages/web") None]
           (lit "README.md") [lit "packages/web/src/a.ts"]
           [lit "packages/web/b.ts"]).
  vm_compute. reflexivity.
Defined.

Example inferScope_runs :
  let packages :=
    [mkPackageMeta (lit "packages/api") (Some (lit "@acme/api"));
     mkPackageMeta (lit "packages/api/client") None;
     mkPackageMeta (lit "packages/web") None] in
  inferScopeFromPaths [lit "packages/web/src/a.ts"; lit "README.md"] packages
  = Some (lit "web")
  /\ inferScopeFromPaths [lit "packages/api/client/x.ts"] packages
     = Some (lit "client")
  /\ inferScopeFromPaths [lit "packages/api/x.ts"] packages
     = Some (lit "@acme/api")
  /\ inferScopeFromPaths
       [lit "packages/api/x.ts"; lit "packages/web/y.ts"] packages
     = None
  /\ inferScopeFromPaths [lit "packages/apiary/x.ts"] packages = None.
Proof. vm_compute. repeat split. Qed.

(** The elements of a [Set] built by [setAdd] are distinct. *)
Lemma setAdd_NoDup (x : str) (set : list str) :
  NoDup set -> NoDup (setAdd x set).
Proof.
  intros N. unfold setAdd. destruct (existsb (eqb x) set) eqn:E; [exact N|].
  apply NoDup_app; [exact N|repeat constructor; intros []|].
  intros y Y [X|[]]. subst y.
  assert (T : existsb (eqb x) set = true).
  { apply existsb_exists. exists x. split; [exact Y|].
    now destruct (eqb_spec x x). }
  congruence.
Qed.

Lemma setAdd_In (x y : str) (set : list str) :
  In y (setAdd x set) <-> y = x \/ In y set.
Proof.
  unfold setAdd. destruct (existsb (eqb x) set) eqn:E.
  - split; [now right|]. intros [->|I]; [|exact I].
    apply existsb_exists in E. destruct E as [z [Z E]].
    now destruct (eqb_spec x z); [subst|].
  - rewrite in_app_iff. cbn [In]. intuition.
Qed.

(** X24.  [normalizeGlobs] returns a list without repetition, which
    holds exactly the globs of the list given that are not blank, each
    trimmed and without one leading [./]; a missing list gives the empty
    list. *)
Theorem normalizeGlobs_spec (globs : option (list str)) :
  NoDup (normalizeGlobs globs)
  /\ forall x,
      In x (normalizeGlobs globs)
      <-> exists g,
          In g (match globs with Some l => l | None => [] end)
          /\ isEmpty (trim g) = false
          /\ x = stripDotSlash (trim g).
Proof.
  unfold normalizeGlobs.
  set (l := match globs with Some l => l | None => [] end).
  assert (G : forall set,
             NoDup set ->
             NoDup (fold_left
                      (fun set g =>
                         if isEmpty (trim g) then set
                         else setAdd (stripDotSlash (trim g)) set) l set)
             /\ forall x,
                 In x (fold_left
                         (fun set g =>
                            if isEmpty (trim g) then set
                            else setAdd (stripDotSlash (trim g)) set) l set)
                 <-> In x set
                     \/ exists g,
                         In g l /\ isEmpty (trim g) = false
                         /\ x = stripDotSlash (trim g)).
  { induction l as [|g r IH]; intros set N; cbn [fold_left].
    - split; [exact N|]. intros x. split; [now left|].
      intros [I|(g & [] & _)]. exact I.
    - destruct (isEmpty (trim g)) eqn:B.
      + destruct (IH set N) as [N' I']. split; [exact N'|].
        intros x. rewrite I'. split.
        * intros [I|(g' & I & E)]; [now left|right].
          exists g'. split; [now right|exact E].
        * intros [I|(g' & [<-|I] & B' & E)]; [now left|congruence|right].
          now exists g'.
      + destruct (IH _ (setAdd_NoDup (stripDotSlash (trim g)) N))
          as [N' I'].
        split; [exact N'|]. intros x. rewrite I', setAdd_In. split.
        * intros [[->|I]|(g' & I & E)].
          -- right. exists g. split; [now left|now split].
          -- now left.
          -- right. exists g'. split; [now right|exact E].
        * intros [I|(g' & [<-|I] & B' & E)].
          -- left. now right.
          -- left. now left.
          -- right. now exists g'. }
  destruct (G [] (NoDup_nil _)) as [N I]. split; [exact N|].
  intros x. rewrite I. split; [intros [[]|H]; exact H|now right].
Qed.

End MonorepoFacts.
(* ================================================================== *)
(** * The files of a pull request *)
(* ================================================================== *)

Section GitHubFacts.

Import GitHub.

Lemma listFrom_pages (listFiles : nat -> list PrFile) (n : nat) :
  forall first files fuel,
    fullPages listFiles first n = true ->
    (length (listFiles (first + n)) <? 100) = true ->
    n < fuel ->
    listFrom listFiles fuel first files
    = Some (files ++ map recordOf (pagesFrom listFiles first (S n))).
Proof.
  induction n as [|n IH]; intros first files fuel F L K.
  - destruct fuel as [|fuel]; [lia|]. cbn [listFrom pagesFrom].
    rewrite Nat.add_0_r in L. rewrite L. now rewrite app_nil_r.
  - destruct fuel as [|fuel]; [lia|]. cbn [fullPages] in F.
    apply andb_true_iff in F. destruct F as [F1 F].
    apply negb_true_iff in F1. cbn [listFrom]. rewrite F1.
    rewrite (IH (S first) (files ++ map recordOf (listFiles first)) fuel); try assumption; try lia.
    + change (pagesFrom listFiles first (S (S n)))
        with (listFiles first ++ pagesFrom listFiles (S first) (S n)).
      now rewrite map_app, app_assoc.
    + now replace (S first + n) with (first + S n) by lia.
Qed.

Lemma listFrom_short (listFiles : nat -> list PrFile) (fuel : nat) :
  forall n first files,
    fullPages listFiles first n = true ->
    fuel <= n ->
    listFrom listFiles fuel first files = None.
Proof.
  induction fuel as [|fuel IH]; intros n first files F K; [reflexivity|].
  destruct n as [|n]; [lia|]. cbn [fullPages] in F.
  apply andb_true_iff in F. destruct F as [F1 F].
  apply negb_true_iff in F1. cbn [listFrom]. rewrite F1.
  apply (IH n); [exact F|lia].
Qed.

(** X25.  [listPrFiles] reads the pages of [pulls.listFiles] from page 1
    up to the first page that has fewer than 100 entries, that page
    included, and returns their entries in order, each with its status
    mapped; it reads no page after that one, and it does not end before
    such a page is served ([fuel] pages are not enough when the first
    [fuel] pages are full). *)
Theorem listPrFiles_pages (listFiles : nat -> list PrFile) (n fuel : nat) :
  fullPages listFiles 1 n = true ->
  (length (listFiles (S n)) <? 100) = true ->
  listPrFiles listFiles fuel
  = if n <? fuel
    then Some (map recordOf (pagesFrom listFiles 1 (S n)))
    else None.
Proof.
  intros F L. unfold listPrFiles. destruct (Nat.ltb_spec n fuel) as [K|K].
  - now rewrite (@listFrom_pages listFiles n 1 [] fuel F L K).
  - now apply (@listFrom_short listFiles fuel n 1 []).
Qed.

Lemma listPrFiles_pages_witness :
  listPrFiles
    (fun page =>
       match page with
       | 1 => repeat (mkPrFile (lit "a.ts") None (lit "changed")) 100
       | 2 => [mkPrFile (lit "b.ts") (Some (lit "c.ts")) (lit "renamed")]
       | _ => []
       end) 5
  = if 1 <? 5
    then Some (map recordOf
                 (pagesFrom
                    (fun page =>
                       match page with
                       | 1 => repeat (mkPrFile (lit "a.ts") None
                                        (lit "changed")) 100
                       | 2 => [mkPrFile (lit "b.ts") (Some (lit "c.ts"))
                                 (lit "renamed")]
                       | _ => []
                       end) 1 2))
    else None.
Proof.
  apply (@listPrFiles_pages
           (fun page =>
              match page with
              | 1 => repeat (mkPrFile (lit "a.ts") None (lit "changed")) 100
              | 2 => [mkPrFile (lit "b.ts") (Some (lit "c.ts"))
                        (lit "renamed")]
              | _ => []
              end) 1 5);
    vm_compute; reflexivity.
Defined.

(** X26.  No file that [listPrFiles] returns has the status [changed],
    which is reported as [modified]. *)
Theorem listPrFiles_status (listFiles : nat -> list PrFile) (fuel : nat) :
  match listPrFiles listFiles fuel with
  | Some files =>
      forallb (fun f => negb (eqb (status f) (lit "changed"))) files = true
  | None => True
  end.
Proof.
  unfold listPrFiles.
  assert (G : forall page files,
             forallb (fun f => negb (eqb (status f) (lit "changed"))) files
             = true ->
             match listFrom listFiles fuel page files with
             | Some files' =>
                 forallb (fun f => negb (eqb (status f) (lit "changed")))
                   files' = true
             | None => True
             end).
  { induction fuel as [|fuel IH]; intros page files H; [exact I|].
    cbn [listFrom].
    assert (H' : forallb (fun f => negb (eqb (status f) (lit "changed")))
                   (files ++ map recordOf (listFiles page)) = true).
    { rewrite forallb_app, H. cbn [andb].
      induction (listFiles page) as [|f r IHr]; [reflexivity|].
      cbn [map forallb]. rewrite IHr, andb_true_r.
      unfold recordOf. cbn [status].
      destruct (eqb_spec (status f) (lit "changed")) as [E|N]; cbn [orb].
      - reflexivity.
      - destruct (eqb (status f) (lit "modified")); [reflexivity|].
        apply negb_true_iff.
        now destruct (eqb_spec (status f) (lit "changed")). }
    destruct (length (listFiles page) <? 100); [exact H'|].
    now apply IH. }
  now apply G.
Qed.

End GitHubFacts.
